(** * Blind-Maze-Game: maze generation, cell queries, ray casting, collisions

    A shallow embedding of [maze.py], [ray_casting.py] and [game.py].

    Modelling conventions.
    - Python integers are [Z]; values stored in the [uint8] grid are reduced
      modulo 256 when they are written.  [mask & ~wall_mask], between a
      [uint8] and a negative Python integer, is taken on unbounded integers,
      as numpy's value-based casting computes it.
    - A two-dimensional numpy array is a list of rows.  Indexing follows
      numpy: an index [i] on an axis of length [n] is valid when
      [-n <= i < n], a negative index counts from the end, anything else
      raises [IndexError].
    - Exceptions are values of [result]; the unbounded recursion of
      [Maze._generate] and the [while True] loop of [ray_cast] take a fuel
      argument, and [None] means that the fuel ran out.
    - [random.shuffle] is an oracle: a function from the number of the
      shuffle call to the reordered list.
    - Python floats are exact rationals; the IEEE special values appear
      only where the code creates them ([float('inf')] in [ray_cast]), as the
      extra constructors of [float].  Rounding is not modelled. *)

From Stdlib Require Import ZArith QArith Qround Qabs List Bool Lia Lqa Permutation Finite.
From Stdlib Require Import Ascii.
From Stdlib Require String DecimalString DecimalNat.
Import ListNotations.
Open Scope Z_scope.

(** ** Exceptions *)

Inductive exn : Type :=
| IndexError
| ValueError
| OverflowError.

Inductive result (A : Type) : Type :=
| Ok (a : A)
| Raise (e : exn).
Arguments Ok {A} a.
Arguments Raise {A} e.

Definition bind {A B : Type} (r : result A) (k : A -> result B) : result B :=
  match r with
  | Ok a => k a
  | Raise e => Raise e
  end.

Notation "x <- r ;; k" := (bind r (fun x => k))
  (at level 61, r at next level, right associativity).

(** ** Two-dimensional numpy arrays *)

Module Np.

(** [np.full((rows, cols), v)]: negative dimensions are refused. *)
Definition full {A : Type} (rows cols : Z) (v : A) : result (list (list A)) :=
  if (rows <? 0) || (cols <? 0) then Raise ValueError
  else Ok (repeat (repeat v (Z.to_nat cols)) (Z.to_nat rows)).

(** [a[:, :] = v] keeps the shape and overwrites every entry. *)
Definition fill {A : Type} (a : list (list A)) (v : A) : list (list A) :=
  map (map (fun _ => v)) a.

(** Position designated by index [i] on an axis of length [n]. *)
Definition index (n : nat) (i : Z) : result nat :=
  let len := Z.of_nat n in
  if (0 <=? i) && (i <? len) then Ok (Z.to_nat i)
  else if (- len <=? i) && (i <? 0) then Ok (Z.to_nat (i + len))
  else Raise IndexError.

Fixpoint upd {A : Type} (l : list A) (n : nat) (v : A) : list A :=
  match l, n with
  | [], _ => []
  | _ :: t, O => v :: t
  | a :: t, S n' => a :: upd t n' v
  end.

(** [a[y, x]] *)
Definition get {A : Type} (d : A) (a : list (list A)) (y x : Z) : result A :=
  r <- index (length a) y ;;
  let row := nth r a [] in
  c <- index (length row) x ;;
  Ok (nth c row d).

(** [a[y, x] = v] *)
Definition set {A : Type} (a : list (list A)) (y x : Z) (v : A)
  : result (list (list A)) :=
  r <- index (length a) y ;;
  let row := nth r a [] in
  c <- index (length row) x ;;
  Ok (upd a r (upd row c v)).

End Np.

(** ** maze.py *)

Record Cell : Type := mkCell {
  cell_x : Z;
  cell_y : Z;
  left : bool;
  right : bool;
  top : bool;
  bottom : bool
}.

Record Maze : Type := mkMaze {
  grid : list (list Z);
  _visited : list (list bool);
  width : Z;
  height : Z
}.

Definition uint8 (z : Z) : Z := z mod 256.

(** [Maze.__init__] *)
Definition Maze_init (w h : Z) : result Maze :=
  g <- Np.full h w (uint8 15) ;;
  v <- Np.full h w false ;;
  Ok (mkMaze g v w h).

(** [bool(cell & k)] *)
Definition flag (cell k : Z) : bool := negb (Z.land cell k =? 0).

(** [Maze.cell_at] *)
Definition cell_at (m : Maze) (x y : Z) : result Cell :=
  cell <- Np.get 0 (grid m) y x ;;
  Ok (mkCell x y (flag cell 2) (flag cell 8) (flag cell 1) (flag cell 4)).

(** *** Generation *)

(** [list(enumerate([(0, -1), (-1, 0), (0, 1), (1, 0)]))] *)
Definition wall_numbers_and_offsets : list (Z * (Z * Z)) :=
  [(0, (0, -1)); (1, (-1, 0)); (2, (0, 1)); (3, (1, 0))].

(** The outcome of the [n]-th call of [random.shuffle]. *)
Definition shuffler : Type := nat -> list (Z * (Z * Z)) -> list (Z * (Z * Z)).

(** A maze together with the number of shuffles drawn so far. *)
Definition gen_state : Type := (Maze * nat)%type.

Definition set_grid (m : Maze) (g : list (list Z)) : Maze :=
  mkMaze g (_visited m) (width m) (height m).

Definition set_visited (m : Maze) (v : list (list bool)) : Maze :=
  mkMaze (grid m) v (width m) (height m).

(** A [for] loop whose body may run out of fuel or raise. *)
Fixpoint for_each {A S : Type} (body : A -> S -> option (result S))
    (l : list A) (s : S) : option (result S) :=
  match l with
  | [] => Some (Ok s)
  | a :: l' =>
    match body a s with
    | Some (Ok s') => for_each body l' s'
    | r => r
    end
  end.

(** Lines 63-69 of [maze.py]: clear the wall numbered [w] of cell [(x, y)]
    and the opposite wall of cell [(i, j)]. *)
Definition remove_wall (g : list (list Z)) (w x y i j : Z)
  : result (list (list Z)) :=
  let wall_mask := Z.shiftl 1 w in
  let opposite_wall_mask :=
    if wall_mask >=? 4 then Z.shiftr wall_mask 2 else Z.shiftl wall_mask 2 in
  c <- Np.get 0 g y x ;;
  g1 <- Np.set g y x (uint8 (Z.land c (Z.lnot wall_mask))) ;;
  c' <- Np.get 0 g1 j i ;;
  Np.set g1 j i (uint8 (Z.land c' (Z.lnot opposite_wall_mask))).

(** Body of the [for] loop of [Maze._generate] at cell [(x, y)];
    [recurse] stands for the recursive call. *)
Definition visit_neighbour
    (recurse : Z -> Z -> gen_state -> option (result gen_state))
    (x y : Z) (item : Z * (Z * Z)) (s : gen_state) : option (result gen_state) :=
  let '(w, (dx, dy)) := item in
  let m := fst s in
  let i := x + dx in
  let j := y + dy in
  if (i <? 0) || (i >=? width m) || (j <? 0) || (j >=? height m)
  then Some (Ok s)
  else
    match Np.get false (_visited m) j i with
    | Raise e => Some (Raise e)
    | Ok true => Some (Ok s)
    | Ok false =>
      match remove_wall (grid m) w x y i j with
      | Raise e => Some (Raise e)
      | Ok g => recurse i j (set_grid m g, snd s)
      end
    end.

(** [Maze._generate] *)
Fixpoint _generate (shuffle : shuffler) (fuel : nat) (x y : Z) (s : gen_state)
  : option (result gen_state) :=
  match fuel with
  | O => None
  | S fuel' =>
    match Np.set (_visited (fst s)) y x true with
    | Raise e => Some (Raise e)
    | Ok v =>
      for_each (visit_neighbour (_generate shuffle fuel') x y)
        (shuffle (snd s) wall_numbers_and_offsets)
        (set_visited (fst s) v, S (snd s))
    end
  end.

(** [Maze.generate] *)
Definition generate (shuffle : shuffler) (fuel : nat) (s : gen_state)
  : option (result gen_state) :=
  let m := fst s in
  let m0 := mkMaze (Np.fill (grid m) (uint8 15)) (Np.fill (_visited m) false)
                   (width m) (height m) in
  _generate shuffle fuel 0 0 (m0, snd s).

(** *** The maze as a graph *)

Definition in_grid (w h : Z) (c : Z * Z) : bool :=
  (0 <=? fst c) && (fst c <? w) && (0 <=? snd c) && (snd c <? h).

(** The wall between two cells of the grid is open when the two cells are
    neighbours and [cell_at] reports no wall on either of the facing sides. *)
Definition passable (m : Maze) (a b : Z * Z) : bool :=
  in_grid (width m) (height m) a && in_grid (width m) (height m) b &&
  match cell_at m (fst a) (snd a), cell_at m (fst b) (snd b) with
  | Ok ca, Ok cb =>
    ((fst b =? fst a + 1) && (snd b =? snd a) && negb (right ca) && negb (left cb))
    || ((fst b =? fst a - 1) && (snd b =? snd a) && negb (left ca) && negb (right cb))
    || ((fst b =? fst a) && (snd b =? snd a + 1) && negb (bottom ca) && negb (top cb))
    || ((fst b =? fst a) && (snd b =? snd a - 1) && negb (top ca) && negb (bottom cb))
  | _, _ => false
  end.

Definition range (n : Z) : list Z := map Z.of_nat (seq 0 (Z.to_nat n)).

(** Every cell of a [w] by [h] grid, row by row. *)
Definition all_cells (w h : Z) : list (Z * Z) :=
  flat_map (fun y => map (fun x => (x, y)) (range w)) (range h).

(** Every pair of neighbouring cells, once: each cell with its right-hand
    neighbour and with the neighbour below. *)
Definition all_edges (w h : Z) : list ((Z * Z) * (Z * Z)) :=
  flat_map (fun c =>
    (if fst c + 1 <? w then [(c, (fst c + 1, snd c))] else [])
    ++ (if snd c + 1 <? h then [(c, (fst c, snd c + 1))] else []))
    (all_cells w h).

(** Number of wall pairs that have been cleared. *)
Definition cleared_wall_pairs (m : Maze) : Z :=
  Z.of_nat (length (filter (fun e => passable m (fst e) (snd e))
                           (all_edges (width m) (height m)))).

(** [walk E a p b]: starting at [a], the cells of [p] are entered one after
    the other through related pairs, and the walk ends at [b]. *)
Fixpoint walk {A : Type} (E : A -> A -> Prop) (a : A) (p : list A) (b : A) : Prop :=
  match p with
  | [] => a = b
  | c :: p' => E a c /\ walk E c p' b
  end.

(** A simple path visits no cell twice. *)
Definition simple_path {A : Type} (E : A -> A -> Prop) (a : A) (p : list A) (b : A)
  : Prop :=
  walk E a p b /\ NoDup (a :: p).

Definition maze_path (m : Maze) (a : Z * Z) (p : list (Z * Z)) (b : Z * Z) : Prop :=
  simple_path (fun c c' => passable m c c' = true) a p b.

(** ** Floats *)

(** A Python float: a rational, or one of the IEEE special values. *)
Inductive float : Type :=
| Fin (q : Q)
| PInf
| NInf
| NaN.

Module Float.

Definition of_Z (z : Z) : float := Fin (inject_Z z).

Definition is_finite (a : float) : bool :=
  match a with
  | Fin _ => true
  | _ => false
  end.

Definition add (a b : float) : float :=
  match a, b with
  | NaN, _ | _, NaN => NaN
  | Fin p, Fin q => Fin (Qred (p + q))
  | PInf, NInf | NInf, PInf => NaN
  | PInf, _ | _, PInf => PInf
  | NInf, _ | _, NInf => NInf
  end.

Definition neg (a : float) : float :=
  match a with
  | Fin q => Fin (Qred (- q))
  | PInf => NInf
  | NInf => PInf
  | NaN => NaN
  end.

(** An infinity times a finite factor. *)
Definition scale_inf (inf : float) (q : Q) : float :=
  match Qcompare q 0 with
  | Eq => NaN
  | Gt => inf
  | Lt => neg inf
  end.

Definition mul (a b : float) : float :=
  match a, b with
  | NaN, _ | _, NaN => NaN
  | Fin p, Fin q => Fin (Qred (p * q))
  | Fin p, inf => scale_inf inf p
  | inf, Fin q => scale_inf inf q
  | PInf, PInf | NInf, NInf => PInf
  | PInf, NInf | NInf, PInf => NInf
  end.

(** [a <= b]; every comparison with a nan is false. *)
Definition le (a b : float) : bool :=
  match a, b with
  | NaN, _ | _, NaN => false
  | NInf, _ | _, PInf => true
  | PInf, _ | _, NInf => false
  | Fin p, Fin q => Qle_bool p q
  end.

Definition ge (a b : float) : bool := le b a.

(** [math.floor] *)
Definition floor (a : float) : result Z :=
  match a with
  | Fin q => Ok (Qfloor q)
  | NaN => Raise ValueError
  | _ => Raise OverflowError
  end.

(** Nearest integer of a rational, ties to the even one. *)
Definition round_half_even (q : Q) : Z :=
  let f := Qfloor q in
  match Qcompare (q - inject_Z f) (1 # 2) with
  | Lt => f
  | Gt => f + 1
  | Eq => if Z.even f then f else f + 1
  end.

(** [round] with one argument *)
Definition round (a : float) : result Z :=
  match a with
  | Fin q => Ok (round_half_even q)
  | NaN => Raise ValueError
  | _ => Raise OverflowError
  end.

End Float.

(** [q % 1] *)
Definition mod1 (q : Q) : Q := Qred (q - inject_Z (Qfloor q)).

(** ** ray_casting.py *)

(** [1 if d > 0 else -1] *)
Definition sign_of (d : Q) : Z := if Qle_bool d 0 then -1 else 1.

(** [a / abs(b) if b != 0 else float('inf')] *)
Definition increment (a b : Q) : float :=
  if Qeq_bool b 0 then PInf else Fin (Qred (a / Qabs b)).

Definition point : Type := (float * float)%type.

Definition all_finite (p : point) : bool :=
  Float.is_finite (fst p) && Float.is_finite (snd p).

Record ray : Type := mkRay {
  x_sign : Z;
  y_sign : Z;
  x_inc : float;
  y_inc : float
}.

(** [np.all(signs * p <= signs * q)] *)
Definition before (r : ray) (p q : point) : bool :=
  Float.le (Float.mul (Float.of_Z (x_sign r)) (fst p))
           (Float.mul (Float.of_Z (x_sign r)) (fst q))
  && Float.le (Float.mul (Float.of_Z (y_sign r)) (snd p))
              (Float.mul (Float.of_Z (y_sign r)) (snd q)).

(** [intersection[0] >= maze.width or intersection[1] >= maze.width] *)
Definition beyond (maze : Maze) (p : point) : bool :=
  Float.ge (fst p) (Float.of_Z (width maze))
  || Float.ge (snd p) (Float.of_Z (width maze)).

(** The crossing examined by the next round of the loop. *)
Definition chosen (r : ray) (next_h next_v : point) : point :=
  if before r next_h next_v then next_h else next_v.

(** The [while True] loop of [ray_cast]. *)
Fixpoint ray_loop (fuel : nat) (maze : Maze) (r : ray) (next_h next_v : point)
  : option (result point) :=
  match fuel with
  | O => None
  | S fuel' =>
    if before r next_h next_v then
      let intersection := next_h in
      if beyond maze intersection then Some (Ok intersection)
      else
        match (cx <- Float.floor (fst intersection) ;;
               cy <- Float.round (snd intersection) ;;
               c <- cell_at maze cx cy ;;
               Ok (top c)) with
        | Raise e => Some (Raise e)
        | Ok wall =>
          let next_h' := (Float.add (fst intersection) (x_inc r),
                          Float.add (snd intersection) (Float.of_Z (y_sign r))) in
          if wall then Some (Ok intersection)
          else ray_loop fuel' maze r next_h' next_v
        end
    else
      let intersection := next_v in
      if beyond maze intersection then Some (Ok intersection)
      else
        match (cx <- Float.round (fst intersection) ;;
               cy <- Float.floor (snd intersection) ;;
               c <- cell_at maze cx cy ;;
               Ok (left c)) with
        | Raise e => Some (Raise e)
        | Ok wall =>
          let next_v' := (Float.add (fst intersection) (Float.of_Z (x_sign r)),
                          Float.add (snd intersection) (y_inc r)) in
          if wall then Some (Ok intersection)
          else ray_loop fuel' maze r next_h next_v'
        end
  end.

(** Lines 18-37 of [ray_casting.py]: the ray and its first two crossings. *)
Definition ray_of (dx dy : Q) : ray :=
  mkRay (sign_of dx) (sign_of dy) (increment dx dy) (increment dy dx).

Definition infinite_crossing (r : ray) : point :=
  (Float.mul (Float.of_Z (x_sign r)) PInf, Float.mul (Float.of_Z (y_sign r)) PInf).

Definition first_h (x y : Q) (r : ray) : point :=
  let p :=
    if y_sign r >? 0
    then (Float.add (Fin x) (Float.mul (x_inc r) (Fin (Qred (1 - mod1 y)))),
          Float.of_Z (Qceiling y))
    else (Float.add (Fin x) (Float.mul (x_inc r) (Fin (mod1 y))),
          Float.of_Z (Qfloor y)) in
  if all_finite p then p else infinite_crossing r.

Definition first_v (x y : Q) (r : ray) : point :=
  let p :=
    if x_sign r >? 0
    then (Float.of_Z (Qceiling x),
          Float.add (Fin y) (Float.mul (y_inc r) (Fin (Qred (1 - mod1 x)))))
    else (Float.of_Z (Qfloor x),
          Float.add (Fin y) (Float.mul (y_inc r) (Fin (mod1 x)))) in
  if all_finite p then p else infinite_crossing r.

(** [ray_cast] *)
Definition ray_cast (fuel : nat) (x y dx dy : Q) (maze : Maze)
  : option (result point) :=
  let r := ray_of dx dy in
  ray_loop fuel maze r (first_h x y r) (first_v x y r).

(** ** game.py *)

Module Player.

Record t : Type := mk {
  x : Q;
  y : Q;
  x_velocity : Q;
  y_velocity : Q;
  width : Q;
  height : Q
}.

(** [Player.center] *)
Definition center (p : t) : Q * Q :=
  (x p + width p / 2, y p + height p / 2)%Q.

(** [Player.update] *)
Definition update (dt : Q) (p : t) : t :=
  mk (x p + x_velocity p * dt)%Q (y p + y_velocity p * dt)%Q
     (x_velocity p) (y_velocity p) (width p) (height p).

Definition set_x (p : t) (v : Q) : t :=
  mk v (y p) (x_velocity p) (y_velocity p) (width p) (height p).

Definition set_y (p : t) (v : Q) : t :=
  mk (x p) v (x_velocity p) (y_velocity p) (width p) (height p).

End Player.

Record Game : Type := mkGame {
  maze : Maze;
  player : Player.t;
  player_move_speed : Q
}.

(** [astype(np.int32)] on a float within the range of [int32]: the
    fractional part is dropped. *)
Definition truncate (q : Q) : Z :=
  if Qle_bool 0 q then Qfloor q else Qceiling q.

(** [Game.current_cell] *)
Definition current_cell (g : Game) : result Cell :=
  let c := Player.center (player g) in
  cell_at (maze g) (truncate (fst c)) (truncate (snd c)).

Definition Qlt_bool (a b : Q) : bool := negb (Qle_bool b a).

(** Lines 84-87 of [game.py] *)
Definition clamp_x (last_cell : Cell) (p : Player.t) : Player.t :=
  if left last_cell && Qlt_bool (Player.x p) (inject_Z (cell_x last_cell))
  then Player.set_x p (inject_Z (cell_x last_cell))
  else if right last_cell
          && Qle_bool (inject_Z (cell_x last_cell) + 1) (Player.x p + Player.width p)
  then Player.set_x p (inject_Z (cell_x last_cell) + 1 - Player.width p)%Q
  else p.

(** Lines 88-91 of [game.py] *)
Definition clamp_y (last_cell : Cell) (p : Player.t) : Player.t :=
  if top last_cell && Qlt_bool (Player.y p) (inject_Z (cell_y last_cell))
  then Player.set_y p (inject_Z (cell_y last_cell))
  else if bottom last_cell
          && Qle_bool (inject_Z (cell_y last_cell) + 1) (Player.y p + Player.height p)
  then Player.set_y p (inject_Z (cell_y last_cell) + 1 - Player.height p)%Q
  else p.

(** [Game.update]: the outcome of the call and the game it leaves behind.
    When [current_cell] raises nothing has been changed yet. *)
Definition Game_update (dt : Q) (g : Game) : result unit * Game :=
  match current_cell g with
  | Raise e => (Raise e, g)
  | Ok last_cell =>
    let p := clamp_y last_cell (clamp_x last_cell (Player.update dt (player g))) in
    (Ok tt, mkGame (maze g) p (player_move_speed g))
  end.

(** The rectangle of the player lies in the unit square. *)
Definition in_unit_square (p : Player.t) : Prop :=
  (0 <= Player.x p /\ Player.x p + Player.width p <= 1 /\
   0 <= Player.y p /\ Player.y p + Player.height p <= 1)%Q.

(** ** Trees and the invariant of the generation *)

(** Two vertices are linked when the list of edges holds the pair in
    either direction. *)
Definition linked {A : Type} (EL : list (A * A)) (a b : A) : Prop :=
  In (a, b) EL \/ In (b, a) EL.

(** A tree, the way a depth-first search grows one: a root, then new
    vertices hung one at a time on vertices already there. *)
Inductive tree {A : Type} : list A -> list (A * A) -> Prop :=
| tree_root : forall r, tree [r] []
| tree_leaf : forall V EL u v e,
    tree V EL -> In u V -> ~ In v V -> e = (u, v) \/ e = (v, u) ->
    tree (v :: V) (e :: EL).

(** Exactly one simple path leads from [a] to [b]. *)
Definition unique_path {A : Type} (EL : list (A * A)) (a b : A) : Prop :=
  exists p, simple_path (linked EL) a p b /\
            forall q, simple_path (linked EL) a q b -> q = p.

(** Entry of an array at a cell [(x, y)] of the grid, and the array with
    that entry replaced. *)
Definition get2 {A : Type} (d : A) (a : list (list A)) (c : Z * Z) : A :=
  nth (Z.to_nat (fst c)) (nth (Z.to_nat (snd c)) a []) d.

Definition set2 {A : Type} (a : list (list A)) (c : Z * Z) (v : A)
  : list (list A) :=
  Np.upd a (Z.to_nat (snd c))
    (Np.upd (nth (Z.to_nat (snd c)) a []) (Z.to_nat (fst c)) v).

(** Mask stored for a cell of the grid, and its visited mark. *)
Definition cellv (m : Maze) (c : Z * Z) : Z := get2 0 (grid m) c.

Definition seen (m : Maze) (c : Z * Z) : bool := get2 false (_visited m) c.

Definition shape {A : Type} (a : list (list A)) (h w : Z) : Prop :=
  Z.of_nat (length a) = h /\ Forall (fun r => Z.of_nat (length r) = w) a.

(** A maze whose arrays have the dimensions it records. *)
Definition well_formed (m : Maze) : Prop :=
  shape (grid m) (height m) (width m) /\ shape (_visited m) (height m) (width m).

(** Neighbour of a cell across the wall numbered [d]. *)
Definition nb (c : Z * Z) (d : Z) : Z * Z :=
  match d with
  | 0 => (fst c, snd c - 1)
  | 1 => (fst c - 1, snd c)
  | 2 => (fst c, snd c + 1)
  | 3 => (fst c + 1, snd c)
  | _ => c
  end.

(** [Inv w h m Vs V EL]: the cells marked visited are those of [Vs], the
    cleared walls are the edges [EL], and these form a tree on [V]. *)
Record Inv (w h : Z) (m : Maze) (Vs V : list (Z * Z))
    (EL : list ((Z * Z) * (Z * Z))) : Prop := mkInv {
  inv_width : width m = w;
  inv_height : height m = h;
  inv_grid : shape (grid m) h w;
  inv_visited : shape (_visited m) h w;
  inv_range : forall c, in_grid w h c = true -> 0 <= cellv m c <= 15;
  inv_seen : forall c, in_grid w h c = true -> (seen m c = true <-> In c Vs);
  inv_cells : forall c, In c V -> in_grid w h c = true;
  inv_tree : tree V EL;
  inv_edges : forall e, In e EL -> In e (all_edges w h);
  inv_walls : forall c d, in_grid w h c = true -> 0 <= d < 4 ->
      (Z.testbit (cellv m c) d = false <-> linked EL c (nb c d))
}.

(** The wall facing the wall numbered [d], and the pair of [all_edges]
    that joins a cell to its neighbour across the wall [d]. *)
Definition opp (d : Z) : Z := if d <? 2 then d + 2 else d - 2.

Definition edge_of (c : Z * Z) (d : Z) : (Z * Z) * (Z * Z) :=
  if d <? 2 then (nb c d, c) else (c, nb c d).

(** Every neighbour of [c] inside the grid belongs to [V]. *)
Definition closed (w h : Z) (V : list (Z * Z)) (c : Z * Z) : Prop :=
  forall d, 0 <= d < 4 -> in_grid w h (nb c d) = true -> In (nb c d) V.

(** What a run of the generation that started with [fuel] and the visited
    cells [Vs] may end in: it runs out of fuel only when the fuel was short
    of the number of cells still to visit, it never raises, and when it
    returns the maze satisfies [Q]. *)
Definition outcome (w h : Z) (fuel : nat) (Vs : list (Z * Z)) (Q : Maze -> Prop)
    (r : option (result gen_state)) : Prop :=
  match r with
  | None => (fuel + length Vs < length (all_cells w h))%nat
  | Some (Raise _) => False
  | Some (Ok s') => Q (fst s')
  end.

(** The maze holds a tree that extends [V0], and every cell the run has
    added has all its neighbours in the tree. *)
Definition grown (w h : Z) (V0 Vs : list (Z * Z)) (m' : Maze) : Prop :=
  exists V' EL',
    Inv w h m' V' V' EL' /\ incl V0 V' /\
    forall c, In c V' -> ~ In c Vs -> closed w h V' c.

(** The maze holds a tree that spans the whole grid. *)
Definition spans (w h : Z) (m : Maze) : Prop :=
  exists V EL, Inv w h m V V EL /\ forall c, in_grid w h c = true -> In c V.

(** The neighbours of [(x, y)] inside the grid that a list of items of the
    loop names. *)
Definition targets (w h x y : Z) (l : list (Z * (Z * Z))) : list (Z * Z) :=
  filter (in_grid w h) (map (fun item => nb (x, y) (fst item)) l).

(** Wall flags agree across every pair of neighbouring cells: the right
    side of a cell with the left side of the next one, the bottom side of
    a cell with the top side of the one below. *)
Definition symmetric (m : Maze) : Prop :=
  forall x y,
    in_grid (width m) (height m) (x, y) = true ->
    (in_grid (width m) (height m) (x + 1, y) = true ->
     exists c c', cell_at m x y = Ok c /\ cell_at m (x + 1) y = Ok c' /\
                  right c = left c') /\
    (in_grid (width m) (height m) (x, y + 1) = true ->
     exists c c', cell_at m x y = Ok c /\ cell_at m x (y + 1) = Ok c' /\
                  bottom c = top c').

(** The maze is a spanning tree of its grid: one wall pair less than cells
    has been cleared, and between any two cells there is exactly one simple
    path through open walls. *)
Definition spanning_tree (m : Maze) : Prop :=
  cleared_wall_pairs m = width m * height m - 1 /\
  forall a b,
    in_grid (width m) (height m) a = true ->
    in_grid (width m) (height m) b = true ->
    exists p, maze_path m a p b /\ forall q, maze_path m a q b -> q = p.

(** The mazes a program can hold: a freshly built one, or the outcome of
    [generate] on one of them, whatever the shuffles. *)
Inductive reachable : Maze -> Prop :=
| reachable_init : forall w h m, Maze_init w h = Ok m -> reachable m
| reachable_generate : forall m shuffle fuel calls m' calls',
    reachable m ->
    (forall n l, Permutation l (shuffle n l)) ->
    generate shuffle fuel (m, calls) = Some (Ok (m', calls')) ->
    reachable m'.

(** Exactly one of two wall flags is [false]. *)
Definition exactly_one_false (a b : bool) : Prop := xorb a b = true.

(** The only cell of a one by one maze, with its four walls. *)
Definition walled : Cell := mkCell 0 0 true true true true.

(** ** Sample inputs *)

(** [Maze(1, 1)], [Maze(2, 1)] and [Maze(2, 2)] as the constructor leaves
    them, and the shuffle that keeps the order. *)
Definition maze_1x1 : Maze := mkMaze [[15]] [[false]] 1 1.

Definition maze_2x1 : Maze := mkMaze [[15; 15]] [[false; false]] 2 1.

Definition maze_2x2 : Maze :=
  mkMaze [[15; 15]; [15; 15]] [[false; false]; [false; false]] 2 2.

Definition in_order : shuffler := fun _ l => l.

(** ** Case analysis on masks and wall numbers *)

Ltac enum_mask c :=
  let H := fresh "H" in
  assert (H : c = 0 \/ c = 1 \/ c = 2 \/ c = 3 \/ c = 4 \/ c = 5 \/ c = 6 \/ c = 7
              \/ c = 8 \/ c = 9 \/ c = 10 \/ c = 11 \/ c = 12 \/ c = 13 \/ c = 14
              \/ c = 15) by lia;
  repeat (destruct H as [H|H]; [subst c|]); [..|subst c].

Ltac enum_wall d :=
  let H := fresh "H" in
  assert (H : d = 0 \/ d = 1 \/ d = 2 \/ d = 3) by lia;
  repeat (destruct H as [H|H]; [subst d|]); [..|subst d].

(** * More of the program

    [maze.py] printed, [drawing.py]'s lines of a maze, the construction
    and the frames of a game ([game.py], [main.py]), and two of the tools
    of [vision_tools.py]: the breadcrumbs and the drone of the hallway
    check.

    Modelling conventions, besides those above.
    - Random numbers are arguments: [draw_x] and [draw_y] are what
      [randint] returns.
    - Sounds and spoken texts are results: a call returns the list of what
      it has queued or said, in order.
    - A coroutine is the state it keeps between two [yield]s, with one
      function for each way of resuming it.
    - Positions of the player and of the drone are exact rationals, as in
      the model of [game.py]. *)

(** ** maze.py: iteration and printing *)

(** [Cell.walls] *)
Definition walls (c : Cell) : list bool := [left c; top c; right c; bottom c].

(** A function that may raise, run over a list from left to right. *)
Fixpoint map_result {A B : Type} (f : A -> result B) (l : list A)
  : result (list B) :=
  match l with
  | [] => Ok []
  | a :: l' => b <- f a ;; bs <- map_result f l' ;; Ok (b :: bs)
  end.

(** [Maze.__iter__], consumed to its end by two nested [for] loops: the
    rows of the grid, each with its cells from left to right. *)
Definition Maze_iter (m : Maze) : result (list (list Cell)) :=
  map_result (fun y => map_result (fun x => cell_at m x y) (range (width m)))
             (range (height m)).

Definition newline : ascii := ascii_of_nat 10.

(** The two characters [maze_as_ascii] appends for a cell. *)
Definition cell_as_ascii (cell : Cell) : list ascii :=
  [if bottom cell then "_"%char else " "%char;
   if right cell then "|"%char else " "%char].

(** [maze_as_ascii]; a Python string is the list of its characters. *)
Definition maze_as_ascii (maze : Maze) : result (list ascii) :=
  rows <- Maze_iter maze ;;
  Ok (flat_map (fun row => flat_map cell_as_ascii row ++ [newline]) rows).

(** Number of marks set in the array of visited cells. *)
Definition marked (m : Maze) : nat := length (filter id (concat (_visited m))).

(** What a run of the generation does to the marks and to the number of
    shuffles drawn: one shuffle for each new mark. *)
Definition accounted (s s' : gen_state) : Prop :=
  width (fst s') = width (fst s) /\ height (fst s') = height (fst s) /\
  shape (_visited (fst s')) (height (fst s)) (width (fst s)) /\
  (marked (fst s') + snd s = marked (fst s) + snd s')%nat.

(** Number of wall characters in the picture [maze_as_ascii] returns. *)
Definition wall_characters (s : list ascii) : nat :=
  (count_occ ascii_dec s "_"%char + count_occ ascii_dec s "|"%char)%nat.

(** The pairs of [all_edges] that start at a cell. *)
Definition edges_at (w h : Z) (c : Z * Z) : list ((Z * Z) * (Z * Z)) :=
  (if fst c + 1 <? w then [(c, (fst c + 1, snd c))] else [])
  ++ (if snd c + 1 <? h then [(c, (fst c, snd c + 1))] else []).

(** ** drawing.py: the lines of a maze *)

(** A call [scene.draw_line(x1, y1, x2, y2, colour, line_width=line_width)]
    of [draw_maze]; the colour and the line width are those [draw_maze] was
    given. *)
Record draw_line : Type := mkLine {
  line_x1 : Z;
  line_y1 : Z;
  line_x2 : Z;
  line_y2 : Z
}.

(** Lines 203-206 of [drawing.py] *)
Definition draw_cell (cell : Cell) : list draw_line :=
  (if bottom cell
   then [mkLine (cell_x cell) (cell_y cell + 1) (cell_x cell + 1) (cell_y cell + 1)]
   else [])
  ++ (if right cell
      then [mkLine (cell_x cell + 1) (cell_y cell) (cell_x cell + 1) (cell_y cell + 1)]
      else []).

(** [draw_maze]: the calls of [scene.draw_line] it makes, in order. *)
Definition draw_maze (maze : Maze) : result (list draw_line) :=
  rows <- Maze_iter maze ;;
  Ok (flat_map (flat_map draw_cell) rows).

(** The cell [cell_at] decodes at a position of the grid. *)
Definition cell_of (m : Maze) (c : Z * Z) : Cell :=
  mkCell (fst c) (snd c) (flag (cellv m c) 2) (flag (cellv m c) 8)
         (flag (cellv m c) 1) (flag (cellv m c) 4).

(** Number of walls [maze_as_ascii] and [draw_maze] show for a cell. *)
Definition walls_shown (c : Cell) : nat :=
  (Nat.b2n (bottom c) + Nat.b2n (right c))%nat.

(** ** game.py: construction and steering *)

(** [random.randint(a, b)], where [draw] is the number drawn: the range
    must not be empty. *)
Definition randint (a b draw : Z) : result Z :=
  if b <? a then Raise ValueError else Ok draw.

(** [Player.__init__] *)
Definition Player_init (x y width height : Q) : Player.t :=
  Player.mk x y 0 0 width height.

(** [Player.position] *)
Definition Player_position (p : Player.t) : Q * Q := (Player.x p, Player.y p).


(** [Game.__init__]; [draw_x] and [draw_y] are the two numbers drawn. *)
Definition Game_init (maze : Maze) (player_move_speed : Q) (draw_x draw_y : Z)
  : result Game :=
  rx <- randint 0 (width maze - 1) draw_x ;;
  ry <- randint 0 (height maze - 1) draw_y ;;
  Ok (mkGame maze
        (Player_init (inject_Z rx + (1 # 4)) (inject_Z ry + (1 # 4)) (1 # 2) (1 # 2))
        player_move_speed).



(** ** vision_tools.py: breadcrumbs *)

(** Equality of cells, field by field, as the dataclass defines it. *)
Definition Cell_eq_dec (a b : Cell) : {a = b} + {a <> b}.
Proof.
  decide equality; try apply Bool.bool_dec; apply Z.eq_dec.
Defined.

(** [str(n)] for a number that is not negative. *)
Definition str (n : nat) : String.string :=
  DecimalString.NilZero.string_of_uint (Nat.to_uint n).

(** [self.breadcrumbs[cell]], if the key is there. *)
Fixpoint lookup (cell : Cell) (d : list (Cell * nat)) : option nat :=
  match d with
  | [] => None
  | (k, v) :: d' => if Cell_eq_dec cell k then Some v else lookup cell d'
  end.

(** The state of a [BreadcrumbTool]: its dictionary, entries in the
    order of their insertion, and the cell of the last update. *)
Record BreadcrumbTool : Type := mkBreadcrumbTool {
  breadcrumbs : list (Cell * nat);
  _last_cell : Cell
}.

(** [BreadcrumbTool.__init__] *)
Definition BreadcrumbTool_init (g : Game) : result BreadcrumbTool :=
  cell <- current_cell g ;;
  Ok (mkBreadcrumbTool [] cell).

(** [BreadcrumbTool.on_key_press]; [key_E] is pyglet's code of the key E.
    The result is the tool after the call and the texts passed to
    [tts_thread.say]. *)
Definition Breadcrumb_on_key_press (key_E symbol : Z) (g : Game)
    (t : BreadcrumbTool) : result (BreadcrumbTool * list String.string) :=
  if negb (symbol =? key_E) then Ok (t, [])
  else
    cell <- current_cell g ;;
    match lookup cell (breadcrumbs t) with
    | None =>
      let d := breadcrumbs t ++ [(cell, length (breadcrumbs t))] in
      Ok (mkBreadcrumbTool d (_last_cell t), [str (length d - 1)])
    | Some n => Ok (t, [str n])
    end.

(** [BreadcrumbTool.update] *)
Definition Breadcrumb_update (g : Game) (t : BreadcrumbTool)
  : result (BreadcrumbTool * list String.string) :=
  next_cell <- current_cell g ;;
  if Cell_eq_dec next_cell (_last_cell t) then Ok (t, [])
  else
    Ok (mkBreadcrumbTool (breadcrumbs t) next_cell,
        match lookup next_cell (breadcrumbs t) with
        | Some breadcrumb_number => [str breadcrumb_number]
        | None => []
        end).

(** One call of [on_key_press] or of [update], with whatever game and key. *)
Inductive breadcrumb_step : BreadcrumbTool -> BreadcrumbTool -> Prop :=
| step_key : forall key_E symbol g t t' said,
    Breadcrumb_on_key_press key_E symbol g t = Ok (t', said) ->
    breadcrumb_step t t'
| step_update : forall g t t' said,
    Breadcrumb_update g t = Ok (t', said) -> breadcrumb_step t t'.

(** The tools a program can hold: a new one, then any calls. *)
Inductive breadcrumb_reachable : BreadcrumbTool -> Prop :=
| tool_new : forall g t, BreadcrumbTool_init g = Ok t -> breadcrumb_reachable t
| tool_step : forall t t',
    breadcrumb_reachable t -> breadcrumb_step t t' -> breadcrumb_reachable t'.

(** ** main.py: the frames of a game *)




(** A two by two maze as [generate] leaves it when every shuffle keeps
    the order of the list. *)
Definition generated_2x2 : Maze :=
  Eval vm_compute in
    match generate in_order 8 (maze_2x2, 0%nat) with
    | Some (Ok (m, _)) => m
    | _ => maze_2x2
    end.

(** The numbers of a dictionary of breadcrumbs are those below its size,
    each the number of one cell. *)
Definition numbered (d : list (Cell * nat)) : Prop :=
  (forall c n, lookup c d = Some n -> (n < length d)%nat) /\
  (forall n, (n < length d)%nat -> exists c, lookup c d = Some n) /\
  (forall c1 c2 n, lookup c1 d = Some n -> lookup c2 d = Some n -> c1 = c2).

(** Any number of calls, one after the other. *)
Inductive breadcrumb_steps : BreadcrumbTool -> BreadcrumbTool -> Prop :=
| steps_none : forall t, breadcrumb_steps t t
| steps_more : forall t t' t'',
    breadcrumb_step t t' -> breadcrumb_steps t' t'' -> breadcrumb_steps t t''.

(** ** Samples *)

(** A player standing in the cell (0, 0) of the generated sample, and one
    standing in the cell (0, 1) below it. *)
Definition game_at_00 : Game :=
  mkGame generated_2x2 (Player_init (1 # 4) (1 # 4) (1 # 2) (1 # 2)) 5.

Definition game_at_01 : Game :=
  mkGame generated_2x2 (Player_init (1 # 4) (5 # 4) (1 # 2) (1 # 2)) 5.

Definition cell_00 : Cell := mkCell 0 0 true true true false.

Definition cell_01 : Cell := mkCell 0 1 true false false true.

(** The tool after E was pressed in (0, 0), and after the player has then
    walked to (0, 1) and pressed E there. *)
Definition tool_marked_once : BreadcrumbTool :=
  mkBreadcrumbTool [(cell_00, 0%nat)] cell_00.

Definition tool_marked_twice : BreadcrumbTool :=
  mkBreadcrumbTool [(cell_00, 0%nat); (cell_01, 1%nat)] cell_01.

(** ** Comparing given numbers *)

(** A comparison of two given rational numbers. *)
Ltac qcheck := vm_compute; first [reflexivity | intros K; discriminate K].

(** ** ray_casting.py: where a ray ends *)

(** The ray is returned, and it ends at the point [(px, py)]. *)
Definition ends_at (r : option (result point)) (px py : Q) : Prop :=
  exists a b, r = Some (Ok (Fin a, Fin b)) /\ (a == px)%Q /\ (b == py)%Q.

(** The ray of a horizontal cast, [dy = 0]: [sx] is the sign of [dx]. *)
Definition horizontal_ray (sx : Z) (z : Q) : ray := mkRay sx (-1) PInf (Fin z).

(** The ray of a vertical cast, [dx = 0]: [sy] is the sign of [dy]. *)
Definition vertical_ray (sy : Z) (z : Q) : ray := mkRay (-1) sy (Fin z) PInf.

(** ** vision_tools.py: the drone of the hallway check *)


(** [cell.walls[i]], an index into a tuple of four. *)
Definition wall (c : Cell) (i : Z) : result bool :=
  j <- Np.index 4 i ;;
  Ok (nth j (walls c) false).











(** A time step in which the drone moves forward by at most one cell. *)
Definition short_step (cells_per_second dt : Q) : Prop :=
  (0 <= cells_per_second * dt <= 1)%Q.


(** The way a drone has gone after some time steps, in cells. *)
Definition travelled (cells_per_second : Q) (dts : list Q) : Q :=
  fold_right (fun dt way => (cells_per_second * dt + way)%Q) 0%Q dts.

(** * Walks and trees *)

Section Walks.

Context {A : Type}.
Implicit Types (E : A -> A -> Prop) (a b c : A) (p q : list A).

Lemma walk_app E p q a b :
  walk E a (p ++ q) b <-> exists c, walk E a p c /\ walk E c q b.
Proof.
  revert a. induction p as [|x p IH]; intros a; simpl.
  - split.
    + intros H. exists a. auto.
    + intros [c [-> H]]. exact H.
  - rewrite IH. split.
    + intros [Hax [c [H1 H2]]]. exists c. auto.
    + intros [c [[Hax H1] H2]]. split; [exact Hax|]. exists c. auto.
Qed.

Lemma walk_end_in E p a b : walk E a p b -> p <> [] -> In b p.
Proof.
  revert a. induction p as [|x p IH]; intros a H Hne; [congruence|].
  destruct H as [_ H]. destruct p as [|y p].
  - simpl in H. subst. left. reflexivity.
  - right. apply (IH x H). discriminate.
Qed.

Lemma walk_snoc E p a b :
  walk E a p b -> p <> [] ->
  exists q c, p = q ++ [b] /\ walk E a q c /\ E c b.
Proof.
  revert a. induction p as [|x p IH]; intros a H Hne; [congruence|].
  destruct H as [Hax H]. destruct p as [|y p].
  - simpl in H. subst x. exists [], a. simpl. auto.
  - destruct (IH x H) as [q [c [Hq [Hw Hc]]]]; [discriminate|].
    exists (x :: q), c. rewrite Hq. simpl. auto.
Qed.

Lemma walk_weaken E E' p a b :
  (forall x y, In x (a :: p) -> In y (a :: p) -> E x y -> E' x y) ->
  walk E a p b -> walk E' a p b.
Proof.
  revert a. induction p as [|x p IH]; intros a HE H; simpl in *; [exact H|].
  destruct H as [Hax H]. split.
  - apply HE; auto.
  - apply IH; [|exact H]. intros u v Hu Hv. apply HE; auto.
Qed.

Lemma simple_loop_nil E p a : simple_path E a p a -> p = [].
Proof.
  intros [Hw Hnd]. destruct p as [|x p]; [reflexivity|].
  exfalso. inversion Hnd as [|? ? Hnot _]; subst.
  apply Hnot. apply (walk_end_in E (x :: p) a a Hw). discriminate.
Qed.

End Walks.

Section Trees.

Context {A : Type}.
Implicit Types (V : list A) (EL : list (A * A)) (a b u v : A).

Lemma tree_edge_in V EL a b :
  tree V EL -> In (a, b) EL -> In a V /\ In b V.
Proof.
  induction 1 as [r|V EL u v e HT IH Hu Hv He]; intros Hin; [destruct Hin|].
  destruct Hin as [Heq|Hin].
  - destruct He as [He|He]; rewrite He in Heq; inversion Heq; subst;
      split; simpl; auto.
  - destruct (IH Hin). split; right; assumption.
Qed.

Lemma tree_linked_in V EL a b :
  tree V EL -> linked EL a b -> In a V /\ In b V.
Proof.
  intros HT [H|H]; destruct (tree_edge_in _ _ _ _ HT H); auto.
Qed.

Lemma tree_NoDup V EL : tree V EL -> NoDup V.
Proof.
  induction 1; constructor; auto. constructor.
Qed.

Lemma tree_NoDup_edges V EL : tree V EL -> NoDup EL.
Proof.
  induction 1 as [r|V EL u v e HT IH Hu Hv He]; constructor; auto.
  intros Hin. destruct e as [x y].
  destruct (tree_edge_in _ _ _ _ HT Hin) as [Hx Hy].
  destruct He as [He|He]; inversion He; subst; contradiction.
Qed.

Lemma tree_size V EL : tree V EL -> length V = S (length EL).
Proof.
  induction 1; simpl; auto.
Qed.

Lemma linked_sym EL a b : linked EL a b -> linked EL b a.
Proof. unfold linked. tauto. Qed.

Lemma NoDup_snoc (l : list A) (x : A) :
  NoDup (l ++ [x]) <-> NoDup l /\ ~ In x l.
Proof.
  split.
  - intros H. split.
    + apply NoDup_app_remove_r in H. exact H.
    + apply NoDup_remove_2 in H. rewrite app_nil_r in H. exact H.
  - intros [H1 H2]. apply NoDup_app; auto.
    + constructor; [intros []|constructor].
    + intros a Ha [Hx|[]]. subst. contradiction.
Qed.

Lemma walk_in_tree V EL a b (p : list A) :
  tree V EL -> walk (linked EL) a p b -> Forall (fun x => In x V) p.
Proof.
  intros HT. revert a. induction p as [|x p IH]; intros a H; constructor.
  - destruct H as [H _]. apply (tree_linked_in _ _ _ _ HT H).
  - destruct H as [_ H]. apply (IH x H).
Qed.

(** Growing a tree [V], [EL] by the leaf [v] hung on [u] through the
    edge [e]: the only link of [v] is [u]. *)
Lemma leaf_link V EL u v e x :
  tree V EL -> ~ In v V -> e = (u, v) \/ e = (v, u) ->
  linked (e :: EL) x v -> x = u.
Proof.
  intros HT Hv He [[H|H]|[H|H]].
  - destruct He as [E|E]; rewrite E in H; inversion H; subst; auto.
  - destruct (tree_edge_in _ _ _ _ HT H). contradiction.
  - destruct He as [E|E]; rewrite E in H; inversion H; subst; auto.
  - destruct (tree_edge_in _ _ _ _ HT H). contradiction.
Qed.

Lemma leaf_linked EL u v e :
  e = (u, v) \/ e = (v, u) -> linked (e :: EL) u v.
Proof.
  intros [E|E]; rewrite E; [left|right]; left; reflexivity.
Qed.

Lemma old_link EL u v e x y :
  e = (u, v) \/ e = (v, u) ->
  linked (e :: EL) x y -> x <> v -> y <> v -> linked EL x y.
Proof.
  intros He [[H|H]|[H|H]] Hx Hy; try (left; exact H); try (right; exact H);
    destruct He as [E|E]; rewrite E in H; inversion H; subst; congruence.
Qed.

Lemma new_link EL e x y : linked EL x y -> linked (e :: EL) x y.
Proof.
  intros [H|H]; [left|right]; right; exact H.
Qed.

(** A simple path between two old vertices does not pass the leaf. *)
Lemma simple_avoids_leaf V EL u v e (q : list A) a b :
  tree V EL -> ~ In v V -> e = (u, v) \/ e = (v, u) ->
  walk (linked (e :: EL)) a q b -> NoDup (a :: q) ->
  a <> v -> b <> v -> ~ In v q.
Proof.
  intros HT Hv He.
  assert (twice : forall a c q, linked (e :: EL) a v ->
            walk (linked (e :: EL)) v (c :: q) b -> ~ NoDup (a :: v :: c :: q)).
  { intros a0 c q0 Hav [Hvc _] Hnd.
    apply (leaf_link V EL u v e _ HT Hv He) in Hav.
    apply linked_sym, (leaf_link V EL u v e _ HT Hv He) in Hvc. subst a0 c.
    inversion Hnd as [|? ? Hnot _]. apply Hnot. right. left. reflexivity. }
  revert a. induction q as [|c q IH]; intros a Hw Hnd Ha Hb; [intros []|].
  destruct Hw as [Hac Hw].
  assert (Hcv : c <> v).
  { intros ->. destruct q as [|c' q]; simpl in Hw; [congruence|].
    exact (twice a c' q Hac Hw Hnd). }
  intros [Hc|Hin]; [congruence|].
  inversion Hnd as [|? ? _ Hnd']. subst.
  exact (IH c Hw Hnd' Hcv Hb Hin).
Qed.

Lemma walk_old EL u v e (q : list A) a b :
  e = (u, v) \/ e = (v, u) ->
  walk (linked (e :: EL)) a q b -> a <> v -> ~ In v q ->
  walk (linked EL) a q b.
Proof.
  intros He Hw Ha Hq. apply (walk_weaken (linked (e :: EL))); [|exact Hw].
  intros x y Hx Hy Hxy. apply (old_link EL u v e x y He Hxy).
  - intros ->. destruct Hx as [Hx|Hx]; [congruence|contradiction].
  - intros ->. destruct Hy as [Hy|Hy]; [congruence|contradiction].
Qed.

Lemma walk_new EL e (q : list A) a b :
  walk (linked EL) a q b -> walk (linked (e :: EL)) a q b.
Proof.
  apply walk_weaken. intros x y _ _. apply new_link.
Qed.

Theorem tree_unique_path V EL :
  tree V EL -> forall a b, In a V -> In b V -> unique_path EL a b.
Proof.
  induction 1 as [r|V EL u v e HT IH Hu Hv He]; intros a b Ha Hb.
  - destruct Ha as [<-|[]]. destruct Hb as [<-|[]].
    exists []. split.
    + split; [reflexivity|]. constructor; [intros []|constructor].
    + intros q Hq. apply (simple_loop_nil _ _ _ Hq).
  - assert (Huv : u <> v) by (intros ->; contradiction).
    destruct Ha as [<-|Ha]; destruct Hb as [<-|Hb].
    + (* from the leaf to itself *)
      exists []. split.
      * split; [reflexivity|]. constructor; [intros []|constructor].
      * intros q Hq. apply (simple_loop_nil _ _ _ Hq).
    + (* from the leaf to an old vertex *)
      assert (Hbv : b <> v) by (intros ->; contradiction).
      destruct (IH u b Hu Hb) as [p [[Hw Hnd] Huniq]].
      exists (u :: p). split.
      * split.
        -- split; [apply linked_sym, (leaf_linked EL u v e He)|].
           apply walk_new. exact Hw.
        -- constructor; [|exact Hnd].
           intros [E|Hin]; [congruence|].
           pose proof (walk_in_tree _ _ _ _ _ HT Hw) as HF.
           rewrite Forall_forall in HF. apply Hv. apply HF. exact Hin.
      * intros q [Hwq Hndq]. destruct q as [|c q]; simpl in Hwq; [congruence|].
        destruct Hwq as [Hvc Hwq].
        apply linked_sym in Hvc. apply (leaf_link V EL u v e _ HT Hv He) in Hvc.
        subst c. f_equal. apply Huniq.
        inversion Hndq as [|? ? Hnot Hnd']; subst. split; [|exact Hnd'].
        apply (walk_old EL u v e _ _ _ He); [exact Hwq|exact Huv|].
        intros Hin. apply Hnot. right. exact Hin.
    + (* from an old vertex to the leaf *)
      assert (Hav : a <> v) by (intros ->; contradiction).
      destruct (IH a u Ha Hu) as [p [[Hw Hnd] Huniq]].
      exists (p ++ [v]). split.
      * split.
        -- apply walk_app. exists u. split; [apply walk_new; exact Hw|].
           split; [apply (leaf_linked EL u v e He)|reflexivity].
        -- change (NoDup ((a :: p) ++ [v])). apply NoDup_snoc. split; [exact Hnd|].
           intros [E|Hin]; [congruence|].
           pose proof (walk_in_tree _ _ _ _ _ HT Hw) as HF.
           rewrite Forall_forall in HF. apply Hv. apply HF. exact Hin.
      * intros q [Hwq Hndq].
        destruct (walk_snoc _ _ _ _ Hwq) as [q0 [c [Hq [Hw0 Hcv]]]].
        { intros ->. simpl in Hwq. congruence. }
        apply (leaf_link V EL u v e _ HT Hv He) in Hcv. subst c q.
        change (NoDup ((a :: q0) ++ [v])) in Hndq.
        apply NoDup_snoc in Hndq. destruct Hndq as [Hnd0 Hnot].
        f_equal. apply Huniq. split; [|exact Hnd0].
        apply (walk_old EL u v e _ _ _ He); [exact Hw0|exact Hav|].
        intros Hin. apply Hnot. right. exact Hin.
    + (* between two old vertices *)
      assert (Hav : a <> v) by (intros ->; contradiction).
      assert (Hbv : b <> v) by (intros ->; contradiction).
      destruct (IH a b Ha Hb) as [p [[Hw Hnd] Huniq]].
      exists p. split.
      * split; [apply walk_new; exact Hw|exact Hnd].
      * intros q [Hwq Hndq]. apply Huniq. split; [|exact Hndq].
        apply (walk_old EL u v e _ _ _ He); [exact Hwq|exact Hav|].
        apply (simple_avoids_leaf V EL u v e q a b HT Hv He); assumption.
Qed.

End Trees.

(** * Arrays *)

Lemma index_inside n i :
  0 <= i < Z.of_nat n -> Np.index n i = Ok (Z.to_nat i).
Proof.
  intros H. unfold Np.index.
  destruct (Z.leb_spec 0 i); [|lia]. destruct (Z.ltb_spec i (Z.of_nat n)); [|lia].
  reflexivity.
Qed.

Lemma index_wraps n i :
  - Z.of_nat n <= i < 0 -> Np.index n i = Ok (Z.to_nat (i + Z.of_nat n)).
Proof.
  intros H. unfold Np.index.
  destruct (Z.leb_spec 0 i); [lia|]. simpl.
  destruct (Z.leb_spec (- Z.of_nat n) i); [|lia]. destruct (Z.ltb_spec i 0); [|lia].
  reflexivity.
Qed.

Lemma index_outside n i :
  i < - Z.of_nat n \/ Z.of_nat n <= i -> Np.index n i = Raise IndexError.
Proof.
  intros H. unfold Np.index.
  destruct (Z.leb_spec 0 i); destruct (Z.ltb_spec i (Z.of_nat n));
    destruct (Z.leb_spec (- Z.of_nat n) i); destruct (Z.ltb_spec i 0);
    simpl; try reflexivity; lia.
Qed.

Lemma upd_length {A} (l : list A) n v : length (Np.upd l n v) = length l.
Proof.
  revert n. induction l as [|a l IH]; intros [|n]; simpl; auto.
Qed.

Lemma upd_nth_same {A} (l : list A) n v d :
  (n < length l)%nat -> nth n (Np.upd l n v) d = v.
Proof.
  revert n. induction l as [|a l IH]; intros [|n] H; simpl in *; try lia; auto.
  apply IH. lia.
Qed.

Lemma upd_nth_other {A} (l : list A) n k v d :
  n <> k -> nth k (Np.upd l n v) d = nth k l d.
Proof.
  revert n k. induction l as [|a l IH]; intros [|n] [|k] H; simpl; auto.
  congruence.
Qed.

Lemma upd_Forall {A} (P : A -> Prop) (l : list A) n v :
  Forall P l -> P v -> Forall P (Np.upd l n v).
Proof.
  intros H Hv. revert n. induction H; intros [|n]; simpl; constructor; auto.
Qed.

Lemma in_grid_bounds w h c :
  in_grid w h c = true <-> 0 <= fst c < w /\ 0 <= snd c < h.
Proof.
  unfold in_grid. rewrite !andb_true_iff, !Z.leb_le, !Z.ltb_lt. lia.
Qed.

Section Shaped.

Context {A : Type}.
Variables (a : list (list A)) (h w : Z).
Hypothesis Hs : shape a h w.

Lemma shape_row n : (n < length a)%nat -> Z.of_nat (length (nth n a [])) = w.
Proof.
  intros H. destruct Hs as [_ HF]. rewrite Forall_forall in HF.
  apply HF. apply nth_In. exact H.
Qed.

Lemma shape_row_of c :
  in_grid w h c = true ->
  (Z.to_nat (snd c) < length a)%nat /\
  (Z.to_nat (fst c) < length (nth (Z.to_nat (snd c)) a []))%nat.
Proof.
  intros H. apply in_grid_bounds in H.
  assert (H1 : (Z.to_nat (snd c) < length a)%nat) by (destruct Hs; lia).
  split; [exact H1|]. pose proof (shape_row _ H1). lia.
Qed.

Lemma get_inside d x y :
  in_grid w h (x, y) = true -> Np.get d a y x = Ok (get2 d a (x, y)).
Proof.
  intros H. pose proof (shape_row_of _ H) as [H1 H2].
  apply in_grid_bounds in H. simpl in *. unfold Np.get.
  rewrite index_inside by (destruct Hs; lia). simpl.
  rewrite index_inside; [reflexivity|].
  rewrite (shape_row _ H1). lia.
Qed.

Lemma set_inside x y v :
  in_grid w h (x, y) = true -> Np.set a y x v = Ok (set2 a (x, y) v).
Proof.
  intros H. pose proof (shape_row_of _ H) as [H1 H2].
  apply in_grid_bounds in H. simpl in *. unfold Np.set.
  rewrite index_inside by (destruct Hs; lia). simpl.
  rewrite index_inside; [reflexivity|].
  rewrite (shape_row _ H1). lia.
Qed.

Lemma set2_shape c v : in_grid w h c = true -> shape (set2 a c v) h w.
Proof.
  intros H. pose proof (shape_row_of _ H) as [H1 H2].
  destruct Hs as [Hl HF]. unfold set2. split.
  - rewrite upd_length. exact Hl.
  - apply upd_Forall; [exact HF|]. rewrite upd_length.
    apply shape_row. exact H1.
Qed.

Lemma get2_set2_same d c v :
  in_grid w h c = true -> get2 d (set2 a c v) c = v.
Proof.
  intros H. pose proof (shape_row_of _ H) as [H1 H2].
  unfold get2, set2. rewrite upd_nth_same by exact H1.
  apply upd_nth_same. exact H2.
Qed.

Lemma get2_set2_other d c c' v :
  in_grid w h c = true -> in_grid w h c' = true -> c' <> c ->
  get2 d (set2 a c v) c' = get2 d a c'.
Proof.
  intros H H' Hne. pose proof (shape_row_of _ H) as [H1 H2].
  apply in_grid_bounds in H, H'.
  unfold get2, set2.
  destruct (Nat.eq_dec (Z.to_nat (snd c)) (Z.to_nat (snd c'))) as [E|E].
  - rewrite <- E. rewrite upd_nth_same by exact H1.
    apply upd_nth_other. intros E'. apply Hne.
    destruct c, c'; simpl in *. f_equal; lia.
  - rewrite upd_nth_other by exact E. reflexivity.
Qed.

End Shaped.

Lemma full_shape {A} h w (v : A) a :
  Np.full h w v = Ok a -> 0 <= h /\ 0 <= w /\ shape a h w.
Proof.
  unfold Np.full. destruct (Z.ltb_spec h 0); [discriminate|].
  destruct (Z.ltb_spec w 0); [discriminate|]. simpl.
  intros E. inversion E; subst. split; [lia|]. split; [lia|]. split.
  - rewrite repeat_length. lia.
  - apply Forall_forall. intros r Hr. apply repeat_spec in Hr. subst.
    rewrite repeat_length. lia.
Qed.

Lemma fill_shape {A} (a : list (list A)) h w v :
  shape a h w -> shape (Np.fill a v) h w.
Proof.
  intros [Hl HF]. unfold Np.fill. split.
  - rewrite length_map. exact Hl.
  - rewrite Forall_forall in *. intros r Hr. apply in_map_iff in Hr.
    destruct Hr as [r0 [<- Hr0]]. rewrite length_map. auto.
Qed.

Lemma nth_map_inside {A B} (f : A -> B) (l : list A) n d d' :
  (n < length l)%nat -> nth n (map f l) d = f (nth n l d').
Proof.
  revert n. induction l as [|x l IH]; intros [|n] H; simpl in *; try lia; auto.
  apply IH. lia.
Qed.

Lemma fill_get2 {A} (a : list (list A)) h w v d c :
  shape a h w -> in_grid w h c = true -> get2 d (Np.fill a v) c = v.
Proof.
  intros Hs H. pose proof (shape_row_of a h w Hs c H) as [H1 H2].
  unfold get2, Np.fill.
  rewrite (nth_map_inside _ _ _ _ []) by exact H1.
  rewrite (nth_map_inside _ _ _ _ d) by exact H2. reflexivity.
Qed.

Lemma full_get2 {A} h w (v : A) a d c :
  Np.full h w v = Ok a -> in_grid w h c = true -> get2 d a c = v.
Proof.
  unfold Np.full. destruct (Z.ltb_spec h 0); [discriminate|].
  destruct (Z.ltb_spec w 0); [discriminate|]. simpl.
  intros E Hc. inversion E; subst. apply in_grid_bounds in Hc.
  unfold get2. rewrite nth_repeat_lt by lia. apply nth_repeat_lt. lia.
Qed.

(** * The cells and the edges of the grid *)

Lemma NoDup_flat_map {A B} (f : A -> list B) (l : list A) :
  NoDup l -> (forall a, In a l -> NoDup (f a)) ->
  (forall a b x, In a l -> In b l -> In x (f a) -> In x (f b) -> a = b) ->
  NoDup (flat_map f l).
Proof.
  induction 1 as [|a l Ha Hl IH]; intros Hf Hdisj; simpl; [constructor|].
  apply NoDup_app.
  - apply Hf. left. reflexivity.
  - apply IH.
    + intros b Hb. apply Hf. right. exact Hb.
    + intros b c x Hb Hc. apply Hdisj; right; assumption.
  - intros x Hx Hin. apply in_flat_map in Hin. destruct Hin as [b [Hb Hxb]].
    apply Ha. rewrite (Hdisj a b x); auto; [left; reflexivity|right; exact Hb].
Qed.

Lemma in_range n x : In x (range n) <-> 0 <= x < n.
Proof.
  unfold range. rewrite in_map_iff. split.
  - intros [k [<- Hk]]. apply in_seq in Hk. lia.
  - intros H. exists (Z.to_nat x). split; [lia|]. apply in_seq. lia.
Qed.

Lemma range_NoDup n : NoDup (range n).
Proof.
  unfold range. apply Finite.Injective_map_NoDup; [|apply seq_NoDup].
  intros a b H. lia.
Qed.

Lemma range_length n : length (range n) = Z.to_nat n.
Proof.
  unfold range. rewrite length_map, length_seq. reflexivity.
Qed.

Lemma in_all_cells w h c : In c (all_cells w h) <-> in_grid w h c = true.
Proof.
  unfold all_cells. rewrite in_flat_map, in_grid_bounds. split.
  - intros [y [Hy Hc]]. apply in_map_iff in Hc. destruct Hc as [x [<- Hx]].
    apply in_range in Hx, Hy. simpl. lia.
  - intros [Hx Hy]. exists (snd c). split; [apply in_range; exact Hy|].
    apply in_map_iff. exists (fst c). split; [destruct c; reflexivity|].
    apply in_range. exact Hx.
Qed.

Lemma all_cells_NoDup w h : NoDup (all_cells w h).
Proof.
  unfold all_cells. apply NoDup_flat_map.
  - apply range_NoDup.
  - intros y _. apply Finite.Injective_map_NoDup; [|apply range_NoDup].
    intros a b H. congruence.
  - intros y y' c _ _ H H'. apply in_map_iff in H, H'.
    destruct H as [x [<- _]]. destruct H' as [x' [E _]]. congruence.
Qed.

Lemma all_cells_length w h :
  length (all_cells w h) = (Z.to_nat w * Z.to_nat h)%nat.
Proof.
  unfold all_cells. rewrite <- (range_length h).
  induction (range h) as [|y l IH]; simpl; [lia|].
  rewrite length_app, length_map, range_length, IH. lia.
Qed.

Lemma in_all_edges w h a b :
  In (a, b) (all_edges w h) <->
  in_grid w h a = true /\ in_grid w h b = true /\
  (b = (fst a + 1, snd a) \/ b = (fst a, snd a + 1)).
Proof.
  unfold all_edges. rewrite in_flat_map. split.
  - intros [c [Hc Hin]]. apply in_all_cells in Hc.
    pose proof Hc as Hc'. apply in_grid_bounds in Hc'.
    apply in_app_or in Hin. destruct Hin as [Hin|Hin].
    + destruct (Z.ltb_spec (fst c + 1) w); [|destruct Hin].
      destruct Hin as [E|[]]. inversion E; subst.
      split; [exact Hc|]. split; [|left; reflexivity].
      apply in_grid_bounds. simpl. lia.
    + destruct (Z.ltb_spec (snd c + 1) h); [|destruct Hin].
      destruct Hin as [E|[]]. inversion E; subst.
      split; [exact Hc|]. split; [|right; reflexivity].
      apply in_grid_bounds. simpl. lia.
  - intros [Ha [Hb Hab]]. exists a. split; [apply in_all_cells; exact Ha|].
    apply in_grid_bounds in Hb. apply in_or_app.
    destruct Hab as [-> | ->]; simpl in Hb.
    + left. destruct (Z.ltb_spec (fst a + 1) w); [|lia]. left. reflexivity.
    + right. destruct (Z.ltb_spec (snd a + 1) h); [|lia]. left. reflexivity.
Qed.

Lemma all_edges_NoDup w h : NoDup (all_edges w h).
Proof.
  unfold all_edges. apply NoDup_flat_map.
  - apply all_cells_NoDup.
  - intros c _.
    destruct (fst c + 1 <? w); destruct (snd c + 1 <? h); simpl;
      repeat constructor; simpl; try tauto.
    intros [E|[]]. inversion E. lia.
  - intros c c' e _ _ H H'.
    assert (forall c0, In e ((if fst c0 + 1 <? w then [(c0, (fst c0 + 1, snd c0))] else [])
              ++ (if snd c0 + 1 <? h then [(c0, (fst c0, snd c0 + 1))] else [])) ->
            fst e = c0) as first.
    { intros c0 Hin. apply in_app_or in Hin.
      destruct (fst c0 + 1 <? w); destruct (snd c0 + 1 <? h); simpl in Hin;
        intuition; subst; reflexivity. }
    rewrite <- (first c H). apply first. exact H'.
Qed.

(** * Wall masks *)

Lemma flags_are_bits c :
  0 <= c <= 15 ->
  flag c 1 = Z.testbit c 0 /\ flag c 2 = Z.testbit c 1 /\
  flag c 4 = Z.testbit c 2 /\ flag c 8 = Z.testbit c 3.
Proof.
  intros H. enum_mask c; repeat split; reflexivity.
Qed.

(** What line 68 and line 69 of [maze.py] store: the mask without the bit
    of the wall. *)
Lemma cleared_mask c d :
  0 <= c <= 15 -> 0 <= d < 4 ->
  0 <= uint8 (Z.land c (Z.lnot (Z.shiftl 1 d))) <= 15 /\
  forall d', 0 <= d' < 4 ->
    Z.testbit (uint8 (Z.land c (Z.lnot (Z.shiftl 1 d)))) d'
    = Z.testbit c d' && negb (d' =? d).
Proof.
  intros Hc Hd. enum_mask c; enum_wall d;
    (split; [vm_compute; split; discriminate|]);
    intros d' Hd'; enum_wall d'; reflexivity.
Qed.

Lemma opposite_mask d :
  0 <= d < 4 ->
  (if Z.shiftl 1 d >=? 4 then Z.shiftr (Z.shiftl 1 d) 2 else Z.shiftl (Z.shiftl 1 d) 2)
  = Z.shiftl 1 (opp d).
Proof.
  intros Hd. enum_wall d; reflexivity.
Qed.

Lemma opp_range d : 0 <= d < 4 -> 0 <= opp d < 4.
Proof.
  intros Hd. enum_wall d; vm_compute; split; congruence.
Qed.

Lemma nb_opp c d : 0 <= d < 4 -> nb (nb c d) (opp d) = c.
Proof.
  intros Hd. destruct c as [x y]. enum_wall d; simpl; f_equal; lia.
Qed.

Lemma nb_inj c d d' : 0 <= d < 4 -> 0 <= d' < 4 -> nb c d = nb c d' -> d = d'.
Proof.
  intros Hd Hd' E. destruct c as [x y].
  enum_wall d; enum_wall d'; simpl in E; inversion E; try reflexivity; lia.
Qed.

Lemma nb_other c d : 0 <= d < 4 -> nb c d <> c.
Proof.
  intros Hd E. destruct c as [x y]. enum_wall d; simpl in E; inversion E; lia.
Qed.

Lemma valid_item item :
  In item wall_numbers_and_offsets <->
  exists d, 0 <= d < 4 /\ fst item = d /\
            forall x y, (x + fst (snd item), y + snd (snd item)) = nb (x, y) d.
Proof.
  split.
  - intros H. simpl in H.
    destruct H as [H|[H|[H|[H|[]]]]]; subst item; simpl;
      [exists 0|exists 1|exists 2|exists 3]; (split; [lia|]); (split; [reflexivity|]);
      intros x y; simpl; f_equal; lia.
  - intros [d [Hd [E H]]]. destruct item as [w [dx dy]]. simpl in *. subst w.
    specialize (H 0 0). simpl in H.
    enum_wall d; simpl in H; inversion H; subst; simpl; tauto.
Qed.

Lemma edge_of_cases c d :
  edge_of c d = (c, nb c d) \/ edge_of c d = (nb c d, c).
Proof.
  unfold edge_of. destruct (d <? 2); auto.
Qed.

Lemma edge_of_in_grid w h c d :
  0 <= d < 4 -> in_grid w h c = true -> in_grid w h (nb c d) = true ->
  In (edge_of c d) (all_edges w h).
Proof.
  intros Hd Hc Hn. unfold edge_of. destruct c as [x y].
  enum_wall d; simpl in *; apply in_all_edges; simpl;
    (split; [assumption|]); (split; [assumption|]).
  - right. f_equal. lia.
  - left. f_equal. lia.
  - right. reflexivity.
  - left. reflexivity.
Qed.

Lemma linked_cons {A} (EL : list (A * A)) e a b :
  linked (e :: EL) a b <-> (e = (a, b) \/ e = (b, a)) \/ linked EL a b.
Proof.
  unfold linked. simpl. tauto.
Qed.

(** * The invariant of the generation *)

Lemma cell_eq_dec (a b : Z * Z) : {a = b} + {a <> b}.
Proof.
  decide equality; apply Z.eq_dec.
Qed.

Lemma edge_touches {A} (c n : A) e a b :
  e = (c, n) \/ e = (n, c) ->
  (e = (a, b) \/ e = (b, a)) <-> (a = c /\ b = n) \/ (a = n /\ b = c).
Proof.
  intros [-> | ->]; split; intros [H|H];
    try (inversion H; subst; tauto); destruct H; subst; tauto.
Qed.

(** Line 49 of [maze.py]: marking the cell the search has just entered. *)
Lemma Inv_mark w h m Vs EL x y :
  Inv w h m Vs ((x, y) :: Vs) EL ->
  Np.set (_visited m) y x true = Ok (set2 (_visited m) (x, y) true) /\
  Inv w h (set_visited m (set2 (_visited m) (x, y) true))
      ((x, y) :: Vs) ((x, y) :: Vs) EL.
Proof.
  intros I. destruct I as [Hw Hh Hg Hv Hr Hs Hc HT He Hwalls].
  assert (Hxy : in_grid w h (x, y) = true) by (apply Hc; left; reflexivity).
  split; [apply (set_inside _ h w Hv); exact Hxy|].
  constructor; simpl; try assumption.
  - apply set2_shape; assumption.
  - intros c Hin. unfold seen. simpl.
    destruct (cell_eq_dec c (x, y)) as [->|Hne].
    + rewrite (get2_set2_same _ h w Hv) by exact Hxy. tauto.
    + rewrite (get2_set2_other _ h w Hv) by assumption.
      specialize (Hs c Hin). unfold seen in Hs. rewrite Hs.
      split; [tauto|]. intros [E|H]; [congruence|exact H].
Qed.

(** Lines 63-69 of [maze.py]: opening the wall towards a cell that has not
    been visited hangs that cell on the tree. *)
Lemma Inv_remove_wall w h m V EL c d :
  Inv w h m V V EL -> In c V -> 0 <= d < 4 ->
  in_grid w h (nb c d) = true -> ~ In (nb c d) V ->
  exists g,
    remove_wall (grid m) d (fst c) (snd c) (fst (nb c d)) (snd (nb c d)) = Ok g /\
    Inv w h (set_grid m g) V (nb c d :: V) (edge_of c d :: EL).
Proof.
  intros I Hin Hd Hn Hnew. destruct I as [Hw Hh Hg Hv Hr Hs Hc HT He Hwalls].
  assert (Hcg : in_grid w h c = true) by (apply Hc; exact Hin).
  assert (Hne : nb c d <> c) by (apply nb_other; exact Hd).
  set (n := nb c d) in *.
  assert (Hback : nb n (opp d) = c) by (unfold n; apply nb_opp; exact Hd).
  set (v1 := uint8 (Z.land (cellv m c) (Z.lnot (Z.shiftl 1 d)))).
  set (v2 := uint8 (Z.land (cellv m n) (Z.lnot (Z.shiftl 1 (opp d))))).
  set (g1 := set2 (grid m) c v1).
  assert (Hg1 : shape g1 h w) by (apply set2_shape; assumption).
  exists (set2 g1 n v2). split.
  - unfold remove_wall. rewrite opposite_mask by exact Hd.
    destruct c as [x y]. simpl fst. simpl snd.
    rewrite (get_inside _ h w Hg) by exact Hcg. simpl bind.
    rewrite (set_inside _ h w Hg) by exact Hcg. simpl bind.
    fold (cellv m (x, y)). fold v1. fold g1.
    assert (En : (fst n, snd n) = n) by (destruct n; reflexivity).
    rewrite (get_inside _ h w Hg1) by (rewrite En; exact Hn). simpl bind.
    rewrite En.
    replace (get2 0 g1 n) with (cellv m n)
      by (symmetry; apply (get2_set2_other _ h w Hg); assumption).
    fold v2.
    rewrite (set_inside _ h w Hg1) by (rewrite En; exact Hn).
    rewrite En. reflexivity.
  - pose proof (cleared_mask (cellv m c) d (Hr c Hcg) Hd) as [R1 B1].
    pose proof (cleared_mask (cellv m n) (opp d) (Hr n Hn) (opp_range d Hd)) as [R2 B2].
    fold v1 in R1, B1. fold v2 in R2, B2.
    assert (Hcell : forall c', in_grid w h c' = true ->
              cellv (set_grid m (set2 g1 n v2)) c' =
              if cell_eq_dec c' n then v2
              else if cell_eq_dec c' c then v1 else cellv m c').
    { intros c' Hc'. unfold cellv. simpl.
      destruct (cell_eq_dec c' n) as [->|N].
      - apply (get2_set2_same _ h w Hg1). exact Hn.
      - rewrite (get2_set2_other _ h w Hg1) by assumption.
        unfold g1. destruct (cell_eq_dec c' c) as [->|C].
        + apply (get2_set2_same _ h w Hg). exact Hcg.
        + apply (get2_set2_other _ h w Hg); assumption. }
    constructor; simpl; try assumption.
    + apply set2_shape; assumption.
    + intros c' Hc'. rewrite (Hcell c' Hc').
      destruct (cell_eq_dec c' n); [exact R2|].
      destruct (cell_eq_dec c' c); [exact R1|]. apply Hr. exact Hc'.
    + intros c' [<-|H]; [exact Hn|apply Hc; exact H].
    + apply (tree_leaf V EL c n); auto. apply edge_of_cases.
    + intros e [<-|H]; [apply edge_of_in_grid; assumption|apply He; exact H].
    + intros c' d' Hc' Hd'. rewrite (Hcell c' Hc').
      rewrite linked_cons. rewrite (edge_touches c n) by apply edge_of_cases.
      destruct (cell_eq_dec c' n) as [->|N]; [|destruct (cell_eq_dec c' c) as [->|C]].
      * rewrite (B2 d' Hd'). destruct (Z.eqb_spec d' (opp d)) as [->|D].
        -- rewrite andb_false_r. rewrite Hback. tauto.
        -- rewrite andb_true_r. rewrite (Hwalls n d' Hn Hd'). split; [tauto|].
           intros [[[E _]|[_ E]]|H]; [congruence| |exact H].
           exfalso. apply D. apply (nb_inj n); [exact Hd'|apply opp_range; exact Hd|].
           rewrite E, Hback. reflexivity.
      * rewrite (B1 d' Hd'). destruct (Z.eqb_spec d' d) as [->|D].
        -- rewrite andb_false_r. fold n. tauto.
        -- rewrite andb_true_r. rewrite (Hwalls c d' Hcg Hd'). split; [tauto|].
           intros [[[_ E]|[E _]]|H]; [|congruence|exact H].
           exfalso. apply D. apply (nb_inj c); assumption.
      * rewrite (Hwalls c' d' Hc' Hd'). split; [tauto|].
        intros [[[E _]|[E _]]|H]; [congruence|congruence|exact H].
Qed.

Lemma Inv_size w h m Vs V EL :
  Inv w h m Vs V EL -> (length V <= length (all_cells w h))%nat.
Proof.
  intros I. apply NoDup_incl_length.
  - apply (tree_NoDup V EL). apply (inv_tree _ _ _ _ _ _ I).
  - intros c Hc. apply in_all_cells. apply (inv_cells _ _ _ _ _ _ I). exact Hc.
Qed.

Lemma closed_mono w h V V' c : incl V V' -> closed w h V c -> closed w h V' c.
Proof.
  intros Hi Hc d Hd Hn. apply Hi. apply Hc; assumption.
Qed.

Lemma outcome_weaken w h fuel V V' (Q Q' : Maze -> Prop) r :
  (length V <= length V')%nat -> (forall m, Q' m -> Q m) ->
  outcome w h fuel V' Q' r -> outcome w h fuel V Q r.
Proof.
  intros Hl HQ. destruct r as [[s|e]|]; simpl; auto. lia.
Qed.

Lemma bounds_test w h i j :
  (i <? 0) || (i >=? w) || (j <? 0) || (j >=? h) = negb (in_grid w h (i, j)).
Proof.
  unfold in_grid. simpl. rewrite !negb_andb. rewrite !Z.geb_leb.
  rewrite <- !Z.ltb_antisym, <- !Z.leb_antisym. reflexivity.
Qed.

Section Generation.

Variable shuffle : shuffler.
Hypothesis shuffle_perm : forall n l, Permutation l (shuffle n l).
Variables w h : Z.

Section Loop.

Variable fuel : nat.
Variables x y : Z.

(** What the recursive calls of the loop are known to do. *)
Hypothesis recursive_call : forall i j m k Vs EL,
  Inv w h m Vs ((i, j) :: Vs) EL ->
  outcome w h fuel Vs (grown w h ((i, j) :: Vs) Vs)
    (_generate shuffle fuel i j (m, k)).

Lemma loop_spec : forall l m k V EL,
  Inv w h m V V EL -> In (x, y) V ->
  Forall (fun item => In item wall_numbers_and_offsets) l ->
  outcome w h fuel V (grown w h (targets w h x y l ++ V) V)
    (for_each (visit_neighbour (_generate shuffle fuel) x y) l (m, k)).
Proof.
  induction l as [|item l IH]; intros m k V EL I Hxy Hl.
  - simpl. exists V, EL. split; [exact I|]. split; [apply incl_refl|].
    intros c Hc Hn. contradiction.
  - inversion Hl as [|? ? Hitem Hl']; subst.
    apply valid_item in Hitem. destruct Hitem as [d [Hd [Ed Hoff]]].
    destruct item as [w0 [dx dy]]. simpl in Ed, Hoff. subst w0.
    specialize (Hoff x y). set (n := nb (x, y) d) in *.
    assert (Ei : x + dx = fst n) by (rewrite <- Hoff; reflexivity).
    assert (Ej : y + dy = snd n) by (rewrite <- Hoff; reflexivity).
    assert (En : (fst n, snd n) = n) by (destruct n; reflexivity).
    unfold targets. simpl map. simpl filter. fold n. fold (targets w h x y l).
    simpl for_each. unfold visit_neighbour at 1. simpl fst. simpl snd.
    rewrite Ei, Ej.
    rewrite (inv_width _ _ _ _ _ _ I), (inv_height _ _ _ _ _ _ I).
    rewrite bounds_test, En.
    destruct (in_grid w h n) eqn:Hn; simpl negb; cbv iota.
    2:{ apply (IH m k V EL I Hxy Hl'). }
    rewrite (get_inside _ h w (inv_visited _ _ _ _ _ _ I))
      by (rewrite En; exact Hn).
    rewrite En. fold (seen m n).
    pose proof (inv_seen _ _ _ _ _ _ I n Hn) as Hseen.
    destruct (seen m n) eqn:Hs.
    + (* the neighbour has been visited *)
      assert (HnV : In n V) by (apply Hseen; reflexivity).
      eapply outcome_weaken; [apply Nat.le_refl| |apply (IH m k V EL I Hxy Hl')].
      intros m' [V' [EL' [I' [Hincl Hnew]]]]. exists V', EL'.
      split; [exact I'|]. split; [|exact Hnew].
      intros c [<-|Hc]; apply Hincl; apply in_or_app; [right; exact HnV|].
      apply in_app_or in Hc. exact Hc.
    + (* the neighbour is new: open the wall and move into it *)
      assert (HnV : ~ In n V).
      { intros Hin. apply Hseen in Hin. discriminate. }
      destruct (Inv_remove_wall w h m V EL (x, y) d I Hxy Hd Hn HnV)
        as [g [Hrem Ig]].
      fold n in Hrem, Ig. simpl fst in Hrem. simpl snd in Hrem at 1.
      rewrite Hrem.
      pose proof (recursive_call (fst n) (snd n) (set_grid m g) k V
                    (edge_of (x, y) d :: EL)) as Hrec.
      rewrite En in Hrec. specialize (Hrec Ig).
      destruct (_generate shuffle fuel (fst n) (snd n) (set_grid m g, k))
        as [[[m3 k3]|e]|]; simpl in Hrec; [|contradiction|exact Hrec].
      destruct Hrec as [V3 [EL3 [I3 [Hincl3 Hnew3]]]].
      assert (HV3 : incl V V3) by (intros c Hc; apply Hincl3; right; exact Hc).
      eapply outcome_weaken; [| |apply (IH m3 k3 V3 EL3 I3 (HV3 _ Hxy) Hl')].
      * apply NoDup_incl_length; [|exact HV3].
        apply (tree_NoDup V EL). apply (inv_tree _ _ _ _ _ _ I).
      * intros m' [V' [EL' [I' [Hincl Hnew]]]]. exists V', EL'.
        split; [exact I'|]. split.
        -- intros c [<-|Hc].
           ++ apply Hincl. apply in_or_app. right. apply Hincl3. left. reflexivity.
           ++ apply Hincl. apply in_or_app. apply in_app_or in Hc.
              destruct Hc as [Hc|Hc]; [left; exact Hc|right; apply HV3; exact Hc].
        -- intros c Hc HcV.
           destruct (in_dec cell_eq_dec c V3) as [Hc3|Hc3].
           ++ apply (closed_mono w h V3).
              ** intros c' Hc'. apply Hincl. apply in_or_app. right. exact Hc'.
              ** apply Hnew3; assumption.
           ++ apply Hnew; assumption.
Qed.

End Loop.

(** [Maze._generate], entered at a cell that hangs on the tree and is not
    marked yet, visits new cells only, extends the tree by each of them
    and returns once every neighbour of every new cell is in the tree. *)
Lemma generate_spec : forall fuel x y m k Vs EL,
  Inv w h m Vs ((x, y) :: Vs) EL ->
  outcome w h fuel Vs (grown w h ((x, y) :: Vs) Vs)
    (_generate shuffle fuel x y (m, k)).
Proof.
  induction fuel as [|fuel IH]; intros x y m k Vs EL I.
  - simpl. pose proof (Inv_size _ _ _ _ _ _ I) as Hsz. simpl in Hsz. lia.
  - simpl _generate. simpl fst. simpl snd.
    destruct (Inv_mark w h m Vs EL x y I) as [Hset I1]. rewrite Hset.
    assert (Hvalid : Forall (fun item => In item wall_numbers_and_offsets)
                       (shuffle k wall_numbers_and_offsets)).
    { apply Forall_forall. intros item Hitem.
      apply (Permutation_in item (Permutation_sym (shuffle_perm k _))). exact Hitem. }
    pose proof (loop_spec fuel x y IH (shuffle k wall_numbers_and_offsets)
                  _ (S k) _ _ I1 (or_introl eq_refl) Hvalid) as Hloop.
    destruct (for_each _ _ _) as [[[m' k']|e]|]; simpl in *; [|exact Hloop|lia].
    destruct Hloop as [V' [EL' [I' [Hincl Hnew]]]]. exists V', EL'.
    split; [exact I'|]. split.
    + intros c Hc. apply Hincl. apply in_or_app. right. exact Hc.
    + intros c Hc HcVs. destruct (cell_eq_dec c (x, y)) as [->|Hne].
      * intros d Hd Hn. apply Hincl. apply in_or_app. left.
        apply filter_In. split; [|exact Hn].
        assert (Hfst : In d (map fst (shuffle k wall_numbers_and_offsets))).
        { apply (Permutation_in d (Permutation_map fst (shuffle_perm k _))).
          simpl. lia. }
        apply in_map_iff in Hfst. destruct Hfst as [item [Hf Hitem]].
        apply in_map_iff. exists item. rewrite Hf. auto.
      * apply Hnew; [exact Hc|]. intros [E|Hin]; [congruence|contradiction].
Qed.

End Generation.

(** Starting from the corner, neighbour by neighbour, every cell is found. *)
Lemma closed_covers w h V :
  (forall c, In c V -> closed w h V c) -> In (0, 0) V ->
  forall c, in_grid w h c = true -> In c V.
Proof.
  intros Hclosed H0.
  assert (Hrow : forall n : nat, Z.of_nat n < w -> 0 < h -> In (Z.of_nat n, 0) V).
  { induction n as [|n IH]; intros Hn Hh; [exact H0|].
    assert (Hp : In (Z.of_nat n, 0) V) by (apply IH; lia).
    replace (Z.of_nat (S n), 0) with (nb (Z.of_nat n, 0) 3)
      by (simpl nb; f_equal; lia).
    apply (Hclosed _ Hp); [lia|]. apply in_grid_bounds. simpl. lia. }
  assert (Hcol : forall (k : nat) x, 0 <= x < w -> Z.of_nat k < h -> In (x, Z.of_nat k) V).
  { induction k as [|k IH]; intros x Hx Hk.
    - replace x with (Z.of_nat (Z.to_nat x)) by lia. apply Hrow; lia.
    - assert (Hp : In (x, Z.of_nat k) V) by (apply IH; lia).
      replace (x, Z.of_nat (S k)) with (nb (x, Z.of_nat k) 2)
        by (simpl nb; f_equal; lia).
      apply (Hclosed _ Hp); [lia|]. apply in_grid_bounds. simpl. lia. }
  intros [x y] Hc. apply in_grid_bounds in Hc. simpl in Hc.
  replace y with (Z.of_nat (Z.to_nat y)) by lia. apply Hcol; lia.
Qed.

(** A maze with every wall up and no cell marked is the tree made of the
    corner cell alone. *)
Lemma Inv_all_walls m :
  1 <= width m -> 1 <= height m -> well_formed m ->
  (forall c, in_grid (width m) (height m) c = true -> cellv m c = 15) ->
  (forall c, in_grid (width m) (height m) c = true -> seen m c = false) ->
  Inv (width m) (height m) m [] [(0, 0)] [].
Proof.
  intros Hw Hh [Hg Hv] Hc Hs. constructor; simpl; try reflexivity; try assumption.
  - intros c Hin. rewrite (Hc c Hin). lia.
  - intros c Hin. rewrite (Hs c Hin). split; [discriminate|intros []].
  - intros c [<-|[]]. apply in_grid_bounds. simpl. lia.
  - constructor.
  - intros e [].
  - intros c d Hin Hd. rewrite (Hc c Hin). split.
    + enum_wall d; discriminate.
    + intros [[]|[]].
Qed.

Lemma Inv_start m :
  1 <= width m -> 1 <= height m -> well_formed m ->
  Inv (width m) (height m)
      (mkMaze (Np.fill (grid m) (uint8 15)) (Np.fill (_visited m) false)
              (width m) (height m))
      [] [(0, 0)] [].
Proof.
  intros Hw Hh [Hg Hv].
  apply (Inv_all_walls (mkMaze _ _ (width m) (height m))); simpl; try assumption.
  - split; apply fill_shape; assumption.
  - intros c Hc. unfold cellv. simpl. apply (fill_get2 _ _ _ _ _ _ Hg Hc).
  - intros c Hc. unfold seen. simpl. apply (fill_get2 _ _ _ _ _ _ Hv Hc).
Qed.

Lemma init_spec w h m :
  Maze_init w h = Ok m ->
  0 <= w /\ 0 <= h /\ width m = w /\ height m = h /\ well_formed m /\
  (forall c, in_grid w h c = true -> cellv m c = 15) /\
  (forall c, in_grid w h c = true -> seen m c = false).
Proof.
  unfold Maze_init. intros H.
  destruct (Np.full h w (uint8 15)) as [g|e] eqn:Eg; [|discriminate].
  destruct (Np.full h w false) as [v|e] eqn:Ev; [|discriminate].
  simpl in H. inversion H; subst. clear H.
  destruct (full_shape _ _ _ _ Eg) as [Hh [Hw Hg]].
  destruct (full_shape _ _ _ _ Ev) as [_ [_ Hv]].
  repeat split; simpl; try assumption; try apply Hg; try apply Hv.
  - intros c Hc. unfold cellv. simpl. apply (full_get2 _ _ _ _ _ _ Eg Hc).
  - intros c Hc. unfold seen. simpl. apply (full_get2 _ _ _ _ _ _ Ev Hc).
Qed.

(** Without a cell at [(0, 0)] the first line of [_generate] raises. *)
Lemma generate_empty shuffle fuel m k :
  well_formed m -> width m < 1 \/ height m < 1 ->
  generate shuffle (S fuel) (m, k) = Some (Raise IndexError).
Proof.
  intros [_ Hv] Hdim. unfold generate. simpl.
  pose proof (fill_shape _ _ _ false Hv) as Hs.
  assert (E : Np.set (Np.fill (_visited m) false) 0 0 true = Raise IndexError).
  { unfold Np.set. destruct Hs as [Hl HF].
    destruct (Z.ltb_spec (height m) 1) as [Hh|Hh].
    - rewrite index_outside by lia. reflexivity.
    - rewrite index_inside by lia. simpl bind.
      rewrite index_outside; [reflexivity|].
      rewrite (shape_row _ _ _ (conj Hl HF)) by (simpl; lia). lia. }
  rewrite E. reflexivity.
Qed.

(** [Maze.generate] on a maze with at least one cell: it returns, given
    fuel for every cell, and the maze it leaves holds a spanning tree. *)
Lemma generate_spans shuffle fuel m k :
  (forall n l, Permutation l (shuffle n l)) ->
  1 <= width m -> 1 <= height m -> well_formed m ->
  outcome (width m) (height m) fuel [] (spans (width m) (height m))
    (generate shuffle fuel (m, k)).
Proof.
  intros Hperm Hw Hh Hwf. unfold generate. simpl fst. simpl snd.
  pose proof (generate_spec shuffle Hperm (width m) (height m) fuel 0 0 _ k [] []
                (Inv_start m Hw Hh Hwf)) as H.
  destruct (_generate _ _ _ _ _) as [[[m' k']|e]|]; simpl in *; [|exact H|exact H].
  destruct H as [V [EL [I [Hincl Hnew]]]]. exists V, EL. split; [exact I|].
  apply closed_covers.
  - intros c Hc. apply Hnew; [exact Hc|intros []].
  - apply Hincl. left. reflexivity.
Qed.

(** * What the invariant says about [cell_at] *)

Section Generated.

Variables (w h : Z) (m : Maze) (Vs V : list (Z * Z)) (EL : list ((Z * Z) * (Z * Z))).
Hypothesis I : Inv w h m Vs V EL.

Lemma cell_at_inside x y :
  in_grid w h (x, y) = true ->
  cell_at m x y =
  Ok (mkCell x y (Z.testbit (cellv m (x, y)) 1) (Z.testbit (cellv m (x, y)) 3)
             (Z.testbit (cellv m (x, y)) 0) (Z.testbit (cellv m (x, y)) 2)).
Proof.
  intros Hc. unfold cell_at.
  rewrite (get_inside _ h w (inv_grid _ _ _ _ _ _ I)) by exact Hc. simpl bind.
  fold (cellv m (x, y)).
  destruct (flags_are_bits _ (inv_range _ _ _ _ _ _ I _ Hc)) as [-> [-> [-> ->]]].
  reflexivity.
Qed.

Lemma linked_inside a b :
  linked EL a b -> in_grid w h a = true /\ in_grid w h b = true.
Proof.
  intros H. destruct (tree_linked_in _ _ _ _ (inv_tree _ _ _ _ _ _ I) H).
  split; apply (inv_cells _ _ _ _ _ _ I); assumption.
Qed.

Lemma linked_adjacent a b :
  linked EL a b -> exists d, 0 <= d < 4 /\ b = nb a d.
Proof.
  intros [H|H]; apply (inv_edges _ _ _ _ _ _ I) in H; apply in_all_edges in H;
    destruct H as [_ [_ [E|E]]]; destruct a as [x y]; destruct b as [x' y'];
    simpl in E; inversion E; subst.
  - exists 3. split; [lia|reflexivity].
  - exists 2. split; [lia|reflexivity].
  - exists 1. split; [lia|]. simpl. f_equal. lia.
  - exists 0. split; [lia|]. simpl. f_equal. lia.
Qed.

(** A wall is open exactly where the tree has an edge. *)
Lemma open_wall c d :
  in_grid w h c = true -> 0 <= d < 4 ->
  (Z.testbit (cellv m c) d = false <-> linked EL c (nb c d)).
Proof.
  apply (inv_walls _ _ _ _ _ _ I).
Qed.

Lemma open_wall_back c d :
  in_grid w h (nb c d) = true -> 0 <= d < 4 ->
  (Z.testbit (cellv m (nb c d)) (opp d) = false <-> linked EL c (nb c d)).
Proof.
  intros Hn Hd. rewrite (open_wall _ _ Hn (opp_range d Hd)).
  rewrite nb_opp by exact Hd. split; apply linked_sym.
Qed.

Lemma passable_nb c d :
  in_grid w h c = true -> in_grid w h (nb c d) = true -> 0 <= d < 4 ->
  passable m c (nb c d) =
  negb (Z.testbit (cellv m c) d) && negb (Z.testbit (cellv m (nb c d)) (opp d)).
Proof.
  intros Hc Hn Hd. unfold passable.
  rewrite (inv_width _ _ _ _ _ _ I), (inv_height _ _ _ _ _ _ I), Hc, Hn.
  destruct c as [x y].
  enum_wall d; simpl nb in *; simpl fst; simpl snd;
    rewrite !cell_at_inside by assumption; simpl;
    rewrite ?Z.eqb_refl;
    repeat match goal with
           | |- context [?a =? ?b] =>
             let E := fresh in destruct (Z.eqb_spec a b) as [E|E]; [lia|]
           end;
    simpl; rewrite ?orb_false_r; reflexivity.
Qed.

Lemma passable_linked a b : passable m a b = true <-> linked EL a b.
Proof.
  split.
  - intros H. pose proof H as H'. unfold passable in H'.
    rewrite (inv_width _ _ _ _ _ _ I), (inv_height _ _ _ _ _ _ I) in H'.
    apply andb_true_iff in H'. destruct H' as [H' Hadj].
    apply andb_true_iff in H'. destruct H' as [Ha Hb].
    assert (exists d, 0 <= d < 4 /\ b = nb a d) as [d [Hd ->]].
    { destruct a as [x y]; destruct b as [x' y']. simpl fst in *. simpl snd in *.
      rewrite !cell_at_inside in Hadj by assumption.
      repeat (apply orb_true_iff in Hadj; destruct Hadj as [Hadj|Hadj]);
        repeat (apply andb_true_iff in Hadj; destruct Hadj as [Hadj ?]);
        repeat match goal with
               | E : (_ =? _) = true |- _ => apply Z.eqb_eq in E
               end; subst.
      - exists 3. split; [lia|reflexivity].
      - exists 1. split; [lia|reflexivity].
      - exists 2. split; [lia|reflexivity].
      - exists 0. split; [lia|reflexivity]. }
    rewrite (passable_nb a d Ha Hb Hd) in H.
    apply andb_true_iff in H. destruct H as [H _].
    apply negb_true_iff in H. apply (open_wall a d Ha Hd). exact H.
  - intros H. destruct (linked_inside a b H) as [Ha Hb].
    destruct (linked_adjacent a b H) as [d [Hd ->]].
    rewrite (passable_nb a d Ha Hb Hd).
    apply (open_wall a d Ha Hd) in H as H1.
    apply (open_wall_back a d Hb Hd) in H as H2.
    rewrite H1, H2. reflexivity.
Qed.

(** The pairs of [all_edges] with an open wall are the edges of the tree. *)
Lemma open_edges_are_tree_edges e :
  In e (filter (fun e => passable m (fst e) (snd e)) (all_edges w h)) <-> In e EL.
Proof.
  rewrite filter_In. destruct e as [a b]. simpl. rewrite passable_linked. split.
  - intros [Hin [H|H]]; [exact H|].
    apply (inv_edges _ _ _ _ _ _ I) in H. apply in_all_edges in H, Hin.
    destruct a as [x y]; destruct b as [x' y']. simpl in *.
    destruct H as [_ [_ [E|E]]]; destruct Hin as [_ [_ [E'|E']]];
      inversion E; inversion E'; lia.
  - intros H. split; [apply (inv_edges _ _ _ _ _ _ I); exact H|left; exact H].
Qed.

Lemma open_edges_count :
  length (filter (fun e => passable m (fst e) (snd e)) (all_edges w h)) = length EL.
Proof.
  apply Permutation_length. apply NoDup_Permutation.
  - apply NoDup_filter. apply all_edges_NoDup.
  - apply (tree_NoDup_edges V). apply (inv_tree _ _ _ _ _ _ I).
  - apply open_edges_are_tree_edges.
Qed.

Lemma maze_path_tree a p b :
  maze_path m a p b <-> simple_path (linked EL) a p b.
Proof.
  unfold maze_path, simple_path. split; intros [Hw Hnd]; (split; [|exact Hnd]);
    revert Hw; apply walk_weaken; intros x y _ _; apply passable_linked.
Qed.

End Generated.

(** * The generated maze *)

Lemma Inv_well_formed w h m Vs V EL : Inv w h m Vs V EL -> well_formed m.
Proof.
  intros I. unfold well_formed.
  rewrite (inv_width _ _ _ _ _ _ I), (inv_height _ _ _ _ _ _ I).
  split; [apply (inv_grid _ _ _ _ _ _ I)|apply (inv_visited _ _ _ _ _ _ I)].
Qed.

Lemma bool_eq_false_iff (a b : bool) : (a = false <-> b = false) -> a = b.
Proof.
  destruct a, b; intros [H1 H2]; try reflexivity.
  - exact (H2 eq_refl).
  - symmetry. exact (H1 eq_refl).
Qed.

Lemma Inv_symmetric w h m Vs V EL : Inv w h m Vs V EL -> symmetric m.
Proof.
  intros I x y Hc.
  rewrite (inv_width _ _ _ _ _ _ I), (inv_height _ _ _ _ _ _ I) in *.
  split; intros Hn; eexists; eexists;
    (split; [apply (cell_at_inside _ _ _ _ _ _ I); exact Hc|]);
    (split; [apply (cell_at_inside _ _ _ _ _ _ I); exact Hn|]); simpl;
    apply bool_eq_false_iff.
  - rewrite (open_wall _ _ _ _ _ _ I (x, y) 3 Hc) by lia.
    rewrite <- (open_wall_back _ _ _ _ _ _ I (x, y) 3 Hn) by lia.
    reflexivity.
  - rewrite (open_wall _ _ _ _ _ _ I (x, y) 2 Hc) by lia.
    rewrite <- (open_wall_back _ _ _ _ _ _ I (x, y) 2 Hn) by lia.
    reflexivity.
Qed.

(** A side that faces the outside of the grid keeps its wall. *)
Lemma boundary_wall w h m Vs V EL c d :
  Inv w h m Vs V EL -> in_grid w h c = true -> 0 <= d < 4 ->
  in_grid w h (nb c d) = false -> Z.testbit (cellv m c) d = true.
Proof.
  intros I Hc Hd Hn. apply not_false_is_true. intros H.
  apply (open_wall _ _ _ _ _ _ I c d Hc Hd) in H.
  apply (linked_inside _ _ _ _ _ _ I) in H. destruct H as [_ H]. congruence.
Qed.

Lemma spans_spanning_tree w h m :
  1 <= w -> 1 <= h -> spans w h m ->
  width m = w /\ height m = h /\ spanning_tree m.
Proof.
  intros Hw Hh [V [EL [I Hall]]].
  pose proof (inv_width _ _ _ _ _ _ I) as Ew.
  pose proof (inv_height _ _ _ _ _ _ I) as Eh.
  split; [exact Ew|]. split; [exact Eh|]. unfold spanning_tree. rewrite Ew, Eh. split.
  - unfold cleared_wall_pairs. rewrite Ew, Eh.
    rewrite (open_edges_count _ _ _ _ _ _ I).
    pose proof (tree_size _ _ (inv_tree _ _ _ _ _ _ I)) as Hsize.
    assert (Hlen : length V = length (all_cells w h)).
    { apply Permutation_length. apply NoDup_Permutation.
      - apply (tree_NoDup V EL). apply (inv_tree _ _ _ _ _ _ I).
      - apply all_cells_NoDup.
      - intros c. rewrite in_all_cells. split; [apply (inv_cells _ _ _ _ _ _ I)|apply Hall]. }
    rewrite all_cells_length in Hlen. nia.
  - intros a b Ha Hb.
    destruct (tree_unique_path V EL (inv_tree _ _ _ _ _ _ I) a b (Hall a Ha) (Hall b Hb))
      as [p [Hp Huniq]].
    exists p. split.
    + apply (maze_path_tree _ _ _ _ _ _ I). exact Hp.
    + intros q Hq. apply Huniq. apply (maze_path_tree _ _ _ _ _ _ I). exact Hq.
Qed.

(** C1: for every maze with at least one column and one row and for every
    outcome of the shuffles, [generate], given fuel for every cell, returns
    a maze that is a spanning tree of the grid: [width * height - 1] wall
    pairs are cleared, and any two cells are joined by exactly one simple
    path through open walls. *)
Theorem generate_spanning_tree shuffle fuel m calls :
  (forall n l, Permutation l (shuffle n l)) ->
  1 <= width m -> 1 <= height m -> well_formed m ->
  (Z.to_nat (width m * height m) <= fuel)%nat ->
  exists m' calls',
    generate shuffle fuel (m, calls) = Some (Ok (m', calls')) /\
    width m' = width m /\ height m' = height m /\ spanning_tree m'.
Proof.
  intros Hperm Hw Hh Hwf Hfuel.
  pose proof (generate_spans shuffle fuel m calls Hperm Hw Hh Hwf) as H.
  destruct (generate shuffle fuel (m, calls)) as [[[m' calls']|e]|]; simpl in H.
  - exists m', calls'. split; [reflexivity|].
    apply spans_spanning_tree; assumption.
  - contradiction.
  - rewrite all_cells_length in H. rewrite Z2Nat.inj_mul in Hfuel by lia. lia.
Qed.

Lemma generate_spanning_tree_witness :
  exists m' calls',
    generate in_order 4 (maze_2x2, O) = Some (Ok (m', calls')) /\
    width m' = 2 /\ height m' = 2 /\ spanning_tree m'.
Proof.
  apply (generate_spanning_tree in_order 4 maze_2x2 O).
  - intros n l. apply Permutation_refl.
  - simpl. lia.
  - simpl. lia.
  - repeat constructor.
  - simpl. lia.
Defined.

Lemma reachable_shape m :
  reachable m ->
  well_formed m /\
  (width m < 1 \/ height m < 1 \/
   exists Vs V EL, Inv (width m) (height m) m Vs V EL).
Proof.
  induction 1 as [w h m Hinit|m shuffle fuel calls m' calls' Hr IH Hperm Hgen].
  - destruct (init_spec w h m Hinit) as [Hw [Hh [Ew [Eh [Hwf [Hc Hs]]]]]].
    split; [exact Hwf|].
    destruct (Z.ltb_spec (width m) 1); [left; assumption|].
    destruct (Z.ltb_spec (height m) 1); [right; left; assumption|].
    right. right. exists [], [(0, 0)], [].
    apply Inv_all_walls; try assumption; rewrite Ew, Eh; assumption.
  - destruct IH as [Hwf _].
    destruct (Z.ltb_spec (width m) 1) as [Hw|Hw].
    { destruct fuel; [discriminate|].
      rewrite generate_empty in Hgen by auto. discriminate. }
    destruct (Z.ltb_spec (height m) 1) as [Hh|Hh].
    { destruct fuel; [discriminate|].
      rewrite generate_empty in Hgen by auto. discriminate. }
    pose proof (generate_spans shuffle fuel m calls Hperm Hw Hh Hwf) as H.
    rewrite Hgen in H. simpl in H. destruct H as [V [EL [I _]]].
    pose proof (inv_width _ _ _ _ _ _ I) as Ew.
    pose proof (inv_height _ _ _ _ _ _ I) as Eh.
    split; [apply (Inv_well_formed _ _ _ _ _ _ I)|].
    right. right. exists V, V, EL. rewrite Ew, Eh. exact I.
Qed.

(** C2: in a maze as the constructor leaves it, and after any number of
    calls of [generate], the wall flag [cell_at] reports on the side of a
    cell that faces a neighbour equals the flag it reports on the facing
    side of that neighbour. *)
Theorem wall_symmetry m : reachable m -> symmetric m.
Proof.
  intros Hr. destruct (reachable_shape m Hr) as [_ [Hw|[Hh|[Vs [V [EL I]]]]]].
  - intros x y Hc. apply in_grid_bounds in Hc. simpl in Hc. lia.
  - intros x y Hc. apply in_grid_bounds in Hc. simpl in Hc. lia.
  - apply (Inv_symmetric _ _ _ _ _ _ I).
Qed.

Lemma wall_symmetry_witness :
  exists m, generate in_order 4 (maze_2x2, O) = Some (Ok (m, 4%nat)) /\ symmetric m.
Proof.
  eexists. split; [vm_compute; reflexivity|].
  apply wall_symmetry.
  apply (reachable_generate maze_2x2 in_order 4 O _ 4%nat).
  - apply (reachable_init 2 2). reflexivity.
  - intros n l. apply Permutation_refl.
  - vm_compute. reflexivity.
Defined.

(** C7, amended: after [Maze(2, 1).generate()], whatever the shuffles, the
    wall shared by the two cells is open on both of its sides, that is
    [cell_at(0, 0).right] and [cell_at(1, 0).left] are both false, and
    all the outer walls of both cells are present. *)
Theorem generate_2x1 shuffle fuel calls :
  (forall n l, Permutation l (shuffle n l)) -> (2 <= fuel)%nat ->
  exists m' calls',
    generate shuffle fuel (maze_2x1, calls) = Some (Ok (m', calls')) /\
    cell_at m' 0 0 = Ok (mkCell 0 0 true false true true) /\
    cell_at m' 1 0 = Ok (mkCell 1 0 false true true true).
Proof.
  intros Hperm Hfuel.
  assert (Hwf : well_formed maze_2x1) by (repeat constructor).
  pose proof (generate_spans shuffle fuel maze_2x1 calls Hperm
                ltac:(simpl; lia) ltac:(simpl; lia) Hwf) as H.
  destruct (generate shuffle fuel (maze_2x1, calls)) as [[[m' calls']|e]|];
    simpl in H; [|contradiction|lia].
  exists m', calls'. split; [reflexivity|].
  destruct (spans_spanning_tree 2 1 m' ltac:(lia) ltac:(lia) H) as [Ew [Eh [Hcount _]]].
  destruct H as [V [EL [I Hall]]].
  unfold cleared_wall_pairs in Hcount. rewrite Ew, Eh in Hcount.
  change (all_edges 2 1) with [((0, 0), (1, 0))] in Hcount.
  simpl filter in Hcount.
  destruct (passable m' (0, 0) (1, 0)) eqn:Hopen; [clear Hcount|discriminate].
  apply (passable_linked _ _ _ _ _ _ I) in Hopen.
  assert (H00 : in_grid 2 1 (0, 0) = true) by reflexivity.
  assert (H10 : in_grid 2 1 (1, 0) = true) by reflexivity.
  rewrite (cell_at_inside _ _ _ _ _ _ I 0 0 H00).
  rewrite (cell_at_inside _ _ _ _ _ _ I 1 0 H10).
  pose proof (proj2 (open_wall _ _ _ _ _ _ I (0, 0) 3 H00 ltac:(lia)) Hopen) as R.
  pose proof (proj2 (open_wall_back _ _ _ _ _ _ I (0, 0) 3 H10 ltac:(lia)) Hopen) as L.
  simpl nb in L. change (opp 3) with 1 in L.
  rewrite R, L.
  rewrite (boundary_wall _ _ _ _ _ _ (0, 0) 0 I H00) by (reflexivity || lia).
  rewrite (boundary_wall _ _ _ _ _ _ (0, 0) 1 I H00) by (reflexivity || lia).
  rewrite (boundary_wall _ _ _ _ _ _ (0, 0) 2 I H00) by (reflexivity || lia).
  rewrite (boundary_wall _ _ _ _ _ _ (1, 0) 0 I H10) by (reflexivity || lia).
  rewrite (boundary_wall _ _ _ _ _ _ (1, 0) 2 I H10) by (reflexivity || lia).
  rewrite (boundary_wall _ _ _ _ _ _ (1, 0) 3 I H10) by (reflexivity || lia).
  split; reflexivity.
Qed.

Lemma generate_2x1_witness :
  exists m' calls',
    generate in_order 2 (maze_2x1, O) = Some (Ok (m', calls')) /\
    cell_at m' 0 0 = Ok (mkCell 0 0 true false true true) /\
    cell_at m' 1 0 = Ok (mkCell 1 0 false true true true).
Proof.
  apply (generate_2x1 in_order 2 O).
  - intros n l. apply Permutation_refl.
  - lia.
Defined.

(** With the shuffle that keeps the order, [Maze(2, 1).generate()] leaves
    both [cell_at(0, 0).right] and [cell_at(1, 0).left] false: it is not
    exactly one of the two that is false. *)
Lemma generate_2x1_counterexample :
  exists m' c0 c1,
    generate in_order 2 (maze_2x1, O) = Some (Ok (m', 2%nat)) /\
    cell_at m' 0 0 = Ok c0 /\ cell_at m' 1 0 = Ok c1 /\
    right c0 = false /\ left c1 = false /\
    ~ exactly_one_false (right c0) (left c1).
Proof.
  eexists. eexists. eexists.
  split; [vm_compute; reflexivity|].
  split; [vm_compute; reflexivity|].
  split; [vm_compute; reflexivity|].
  split; [reflexivity|]. split; [reflexivity|].
  unfold exactly_one_false. simpl. discriminate.
Qed.

(** * Cell queries and construction *)

Lemma index_mod n i :
  - Z.of_nat n <= i < Z.of_nat n ->
  Np.index n i = Ok (Z.to_nat (i mod Z.of_nat n)).
Proof.
  intros H. destruct (Z.ltb_spec i 0).
  - rewrite index_wraps by lia. f_equal. f_equal.
    rewrite <- (Z.mod_small (i + Z.of_nat n) (Z.of_nat n)) by lia.
    rewrite <- (Z_mod_plus_full i 1 (Z.of_nat n)). f_equal. lia.
  - rewrite index_inside by lia. rewrite Z.mod_small by lia. reflexivity.
Qed.

Lemma cell_at_outside m x y :
  well_formed m ->
  x < - width m \/ width m <= x \/ y < - height m \/ height m <= y ->
  cell_at m x y = Raise IndexError.
Proof.
  intros [Hg _] Hout. unfold cell_at, Np.get.
  pose proof Hg as [Hl HF].
  destruct (Z.ltb_spec y (- height m)); [rewrite index_outside by lia; reflexivity|].
  destruct (Z.leb_spec (height m) y); [rewrite index_outside by lia; reflexivity|].
  rewrite index_mod by lia. simpl bind.
  rewrite index_outside; [reflexivity|].
  rewrite (shape_row _ _ _ Hg).
  - lia.
  - pose proof (Z.mod_pos_bound y (Z.of_nat (length (grid m)))). lia.
Qed.

Lemma cell_at_wrapped m x y :
  well_formed m ->
  - width m <= x < width m -> - height m <= y < height m ->
  let cell := cellv m (x mod width m, y mod height m) in
  cell_at m x y = Ok (mkCell x y (flag cell 2) (flag cell 8) (flag cell 1) (flag cell 4)).
Proof.
  intros [Hg _] Hx Hy. pose proof Hg as [Hl HF]. simpl.
  unfold cell_at, Np.get.
  rewrite index_mod by lia. simpl bind.
  assert (Hr : (Z.to_nat (y mod Z.of_nat (length (grid m))) < length (grid m))%nat).
  { pose proof (Z.mod_pos_bound y (Z.of_nat (length (grid m)))). lia. }
  assert (Hrow := shape_row _ _ _ Hg _ Hr).
  rewrite index_mod by lia. simpl bind.
  unfold cellv, get2. simpl fst. simpl snd. rewrite Hrow, Hl. reflexivity.
Qed.

(** C5, amended: [cell_at(x, y)] fails with a range error exactly when [x]
    is outside [[-width, width)] or [y] is outside [[-height, height)]; an
    index below zero inside these bounds is accepted. *)
Theorem cell_at_out_of_range m x y :
  well_formed m ->
  (cell_at m x y = Raise IndexError <->
   x < - width m \/ width m <= x \/ y < - height m \/ height m <= y).
Proof.
  intros Hwf. split.
  - intros Hraise.
    destruct (Z.ltb_spec x (- width m)); [tauto|].
    destruct (Z.leb_spec (width m) x); [tauto|].
    destruct (Z.ltb_spec y (- height m)); [tauto|].
    destruct (Z.leb_spec (height m) y); [tauto|].
    rewrite (cell_at_wrapped m x y Hwf) in Hraise by lia. discriminate.
  - apply cell_at_outside. exact Hwf.
Qed.

Lemma cell_at_out_of_range_witness :
  cell_at maze_2x2 (-3) 0 = Raise IndexError <->
  -3 < - width maze_2x2 \/ width maze_2x2 <= -3 \/
  0 < - height maze_2x2 \/ height maze_2x2 <= 0.
Proof.
  apply (cell_at_out_of_range maze_2x2 (-3) 0). repeat constructor.
Defined.

(** An index below zero is no error: [cell_at(-1, 0)] on [Maze(2, 2)]
    returns a cell. *)
Lemma cell_at_counterexample :
  - 1 < 0 /\ cell_at maze_2x2 (-1) 0 = Ok (mkCell (-1) 0 true true true true).
Proof.
  split; [lia|reflexivity].
Qed.

(** C10: for a negative index that numpy accepts, [cell_at] raises
    nothing; the cell it returns carries the arguments as they were given,
    and its flags are decoded from the mask stored at
    [(x mod width, y mod height)]. *)
Theorem cell_at_negative_wraps m x y :
  well_formed m ->
  - width m <= x < width m -> - height m <= y < height m ->
  let cell := cellv m (x mod width m, y mod height m) in
  cell_at m x y = Ok (mkCell x y (flag cell 2) (flag cell 8) (flag cell 1) (flag cell 4)).
Proof.
  intros Hwf Hx Hy. apply cell_at_wrapped; assumption.
Qed.

Lemma cell_at_negative_wraps_witness :
  cell_at (mkMaze [[7; 13]] [[true; true]] 2 1) (-1) 0
  = Ok (mkCell (-1) 0 false true true true).
Proof.
  apply (cell_at_negative_wraps (mkMaze [[7; 13]] [[true; true]] 2 1) (-1) 0).
  - repeat constructor.
  - simpl. lia.
  - simpl. lia.
Defined.

(** C9, amended: constructing a maze with zero width or zero height does
    not fail; the constructor returns a maze whose grid has [height] rows
    of [width] masks, so a maze without any cell. *)
Theorem Maze_init_degenerate w h :
  0 <= w -> 0 <= h -> w = 0 \/ h = 0 ->
  Maze_init w h
  = Ok (mkMaze (repeat (repeat 15 (Z.to_nat w)) (Z.to_nat h))
               (repeat (repeat false (Z.to_nat w)) (Z.to_nat h)) w h)
  /\ all_cells w h = [].
Proof.
  intros Hw Hh Hz. split.
  - unfold Maze_init, Np.full.
    destruct (Z.ltb_spec h 0); [lia|]. destruct (Z.ltb_spec w 0); [lia|].
    reflexivity.
  - assert (length (all_cells w h) = O) as Hlen.
    { rewrite all_cells_length. destruct Hz; subst; simpl; lia. }
    destruct (all_cells w h); [reflexivity|discriminate].
Qed.

Lemma Maze_init_degenerate_witness :
  Maze_init 0 3 = Ok (mkMaze [[]; []; []] [[]; []; []] 0 3) /\ all_cells 0 3 = [].
Proof.
  apply (Maze_init_degenerate 0 3); lia.
Defined.

(** [Maze(0, 0)] is built without an error. *)
Lemma Maze_init_counterexample : Maze_init 0 0 = Ok (mkMaze [] [] 0 0).
Proof.
  reflexivity.
Qed.

(** * Ray casting *)

(** Once an increment is infinite the crossing computed from it is not
    finite, whatever the offset it is multiplied by. *)
Lemma infinite_step x q :
  Float.is_finite (Float.add (Fin x) (Float.mul PInf (Fin q))) = false.
Proof.
  unfold Float.mul, Float.scale_inf. destruct (Qcompare q 0); reflexivity.
Qed.

Lemma sign_of_zero d : (d == 0)%Q -> sign_of d = -1.
Proof.
  intros H. unfold sign_of.
  replace (Qle_bool d 0) with true; [reflexivity|].
  symmetry. apply Qle_bool_iff. rewrite H. apply Qle_refl.
Qed.

Lemma increment_zero a b : (b == 0)%Q -> increment a b = PInf.
Proof.
  intros H. unfold increment.
  replace (Qeq_bool b 0) with true; [reflexivity|].
  symmetry. apply Qeq_bool_iff. exact H.
Qed.

Lemma first_h_infinite x y r : x_inc r = PInf -> first_h x y r = infinite_crossing r.
Proof.
  intros H. unfold first_h, all_finite. rewrite H.
  destruct (y_sign r >? 0); cbn [fst snd]; rewrite infinite_step; reflexivity.
Qed.

Lemma first_v_infinite x y r : y_inc r = PInf -> first_v x y r = infinite_crossing r.
Proof.
  intros H. unfold first_v, all_finite. rewrite H.
  destruct (x_sign r >? 0); cbn [fst snd]; rewrite infinite_step;
    rewrite andb_false_r; reflexivity.
Qed.

(** C8, amended: for every maze and every start point, [ray_cast] with the
    zero direction does not loop; it fails on its first round with the
    overflow error that converting an infinite crossing coordinate to a cell
    index raises. *)
Theorem ray_cast_zero_direction fuel x y dx dy maze :
  (dx == 0)%Q -> (dy == 0)%Q ->
  ray_cast (S fuel) x y dx dy maze = Some (Raise OverflowError).
Proof.
  intros Hx Hy. unfold ray_cast.
  assert (Er : ray_of dx dy = mkRay (-1) (-1) PInf PInf).
  { unfold ray_of.
    rewrite (sign_of_zero dx Hx), (sign_of_zero dy Hy).
    rewrite (increment_zero dx dy Hy), (increment_zero dy dx Hx). reflexivity. }
  rewrite Er.
  rewrite first_h_infinite, first_v_infinite by reflexivity.
  reflexivity.
Qed.

Lemma ray_cast_zero_direction_witness :
  ray_cast 1 (1 # 2) (1 # 2) 0 0 maze_1x1 = Some (Raise OverflowError).
Proof.
  apply (ray_cast_zero_direction O (1 # 2) (1 # 2) 0 0 maze_1x1); reflexivity.
Defined.

(** The error of a zero direction is not the one for an invalid argument. *)
Lemma ray_cast_zero_direction_counterexample :
  exists e,
    ray_cast 1 (1 # 2) (1 # 2) 0 0 maze_1x1 = Some (Raise e) /\ e <> ValueError.
Proof.
  exists OverflowError. split; [reflexivity|discriminate].
Qed.

(** C6: on a fresh [Maze(1, 1)] the ray from [(0.5, 0.5)] along [(1, 0)]
    ends at [(1.0, 0.5)]; and in any round of the loop, when a coordinate of
    the chosen crossing is at least [maze.width], the loop returns that
    crossing. *)
Theorem ray_cast_boundary :
  (forall fuel,
     ray_cast (S fuel) (1 # 2) (1 # 2) 1 0 maze_1x1 = Some (Ok (Fin 1, Fin (1 # 2))))
  /\
  (forall fuel maze r next_h next_v,
     beyond maze (chosen r next_h next_v) = true ->
     ray_loop (S fuel) maze r next_h next_v = Some (Ok (chosen r next_h next_v))).
Proof.
  split.
  - intros fuel. reflexivity.
  - intros fuel maze r next_h next_v. unfold chosen. simpl ray_loop.
    destruct (before r next_h next_v); intros H; rewrite H; reflexivity.
Qed.

Lemma ray_cast_boundary_witness :
  ray_loop 1 maze_2x2 (ray_of 0 1) (Fin (1 # 2), Fin 2) (NInf, PInf)
  = Some (Ok (Fin (1 # 2), Fin 2)).
Proof.
  apply (proj2 ray_cast_boundary O maze_2x2 (ray_of 0 1) (Fin (1 # 2), Fin 2) (NInf, PInf)).
  reflexivity.
Defined.

(** C3: in [Maze(2, 1)], fresh or generated, the ray from [(0.5, 0.5)]
    straight down does not end on a grid line: its crossing at [y = 1] is
    compared with the width, [2], so the loop asks for the cell [(0, 1)]
    below the grid and [cell_at] raises. *)
Theorem ray_cast_below_the_grid fuel :
  ray_cast (S fuel) (1 # 2) (1 # 2) 0 1 maze_2x1 = Some (Raise IndexError) /\
  ray_cast (S fuel) (1 # 2) (1 # 2) 0 1 (mkMaze [[7; 13]] [[true; true]] 2 1)
  = Some (Raise IndexError).
Proof.
  split; reflexivity.
Qed.

Lemma Qceiling_between y h :
  (inject_Z (h - 1) < y)%Q -> (y < inject_Z h)%Q -> Qceiling y = h.
Proof.
  intros Hlo Hhi.
  pose proof (Qle_ceiling y) as Hc. pose proof (Qceiling_lt y) as Hc'.
  assert (H1 : (inject_Z (h - 1) < inject_Z (Qceiling y))%Q) by lra.
  assert (H2 : (inject_Z (Qceiling y - 1) < inject_Z h)%Q) by lra.
  rewrite <- Zlt_Qlt in H1, H2. lia.
Qed.

Lemma round_integer z : Float.round_half_even (inject_Z z) = z.
Proof.
  unfold Float.round_half_even. rewrite Qfloor_Z.
  destruct (Qcompare_spec (inject_Z z - inject_Z z) (1 # 2)) as [E|E|E].
  - exfalso. lra.
  - reflexivity.
  - exfalso. lra.
Qed.

(** The same failure in every maze that is wider than high: a ray cast
    straight down from the bottom row reaches the bottom boundary, which is
    below [maze.width], and asks for a cell of the row under the grid. *)
Lemma ray_cast_down_wide_maze fuel maze x y :
  well_formed maze -> height maze < width maze ->
  (0 <= x)%Q -> (x < inject_Z (width maze))%Q ->
  (inject_Z (height maze - 1) < y)%Q -> (y < inject_Z (height maze))%Q ->
  ray_cast (S fuel) x y 0 1 maze = Some (Raise IndexError).
Proof.
  intros Hwf Hhw Hx0 Hx1 Hy0 Hy1. unfold ray_cast.
  change (ray_of 0 1) with (mkRay (-1) 1 (Fin 0) PInf).
  rewrite first_v_infinite by reflexivity.
  change (infinite_crossing (mkRay (-1) 1 (Fin 0) PInf)) with (NInf, PInf).
  unfold first_h. cbn [x_sign y_sign x_inc y_inc].
  change (1 >? 0) with true. cbv iota.
  rewrite (Qceiling_between y (height maze) Hy0 Hy1).
  set (X := Qred (x + Qred (0 * Qred (1 - mod1 y)))).
  change (Float.add (Fin x) (Float.mul (Fin 0) (Fin (Qred (1 - mod1 y))))) with (Fin X).
  assert (EX : (X == x)%Q).
  { unfold X. rewrite !Qred_correct. ring. }
  change (all_finite (Fin X, Float.of_Z (height maze))) with true. cbv iota.
  cbn [ray_loop].
  change (before (mkRay (-1) 1 (Fin 0) PInf) (Fin X, Float.of_Z (height maze)) (NInf, PInf))
    with true. cbv iota.
  assert (Ebeyond : beyond maze (Fin X, Float.of_Z (height maze)) = false).
  { unfold beyond, Float.ge, Float.le, Float.of_Z. cbn [fst snd].
    apply orb_false_iff. split.
    - destruct (Qle_bool (inject_Z (width maze)) X) eqn:E; [|reflexivity].
      apply Qle_bool_iff in E. rewrite EX in E. lra.
    - destruct (Qle_bool (inject_Z (width maze)) (inject_Z (height maze))) eqn:E;
        [|reflexivity].
      apply Qle_bool_iff in E. rewrite <- Zle_Qle in E. lia. }
  rewrite Ebeyond. cbn [fst snd Float.floor Float.round Float.of_Z bind].
  rewrite round_integer.
  rewrite (cell_at_outside maze (Qfloor X) (height maze) Hwf) by lia.
  reflexivity.
Qed.

(** * Collisions *)

Lemma Qle_bool_false a b : Qle_bool a b = false -> (b < a)%Q.
Proof.
  intros H. apply Qnot_le_lt. intros Hle. apply Qle_bool_iff in Hle. congruence.
Qed.

Lemma Qlt_bool_true a b : Qlt_bool a b = true -> (a < b)%Q.
Proof.
  unfold Qlt_bool. intros H. apply negb_true_iff in H. apply Qle_bool_false. exact H.
Qed.

Lemma Qlt_bool_false a b : Qlt_bool a b = false -> (b <= a)%Q.
Proof.
  unfold Qlt_bool. intros H. apply negb_false_iff in H. apply Qle_bool_iff. exact H.
Qed.

(** A centre in the unit interval is in cell 0, or in cell 1 when it sits
    on the far edge. *)
Lemma truncate_unit q : (0 <= q <= 1)%Q -> truncate q = 0 \/ truncate q = 1.
Proof.
  intros [H0 H1]. unfold truncate.
  replace (Qle_bool 0 q) with true by (symmetry; apply Qle_bool_iff; exact H0).
  pose proof (Qfloor_le q) as Hlo. pose proof (Qlt_floor q) as Hhi.
  assert (Hle : (inject_Z (Qfloor q) <= inject_Z 1)%Q)
    by (change (inject_Z 1) with 1%Q; lra).
  assert (Hlt : (inject_Z 0 < inject_Z (Qfloor q + 1))%Q)
    by (change (inject_Z 0) with 0%Q; lra).
  rewrite <- Zle_Qle in Hle. rewrite <- Zlt_Qlt in Hlt. lia.
Qed.

Lemma clamp_x_walled p :
  (Player.width p <= 1)%Q ->
  let p' := clamp_x walled p in
  (0 <= Player.x p' /\ Player.x p' + Player.width p' <= 1)%Q /\
  Player.y p' = Player.y p /\ Player.width p' = Player.width p /\
  Player.height p' = Player.height p.
Proof.
  intros Hw. unfold clamp_x, walled. cbn [left right cell_x andb].
  change (inject_Z 0) with 0%Q.
  destruct (Qlt_bool (Player.x p) 0) eqn:Hl; simpl.
  - repeat split; lra.
  - apply Qlt_bool_false in Hl.
    destruct (Qle_bool (0 + 1) (Player.x p + Player.width p)) eqn:Hr; simpl.
    + repeat split; lra.
    + apply Qle_bool_false in Hr. repeat split; lra.
Qed.

Lemma clamp_y_walled p :
  (Player.height p <= 1)%Q ->
  let p' := clamp_y walled p in
  (0 <= Player.y p' /\ Player.y p' + Player.height p' <= 1)%Q /\
  Player.x p' = Player.x p /\ Player.width p' = Player.width p /\
  Player.height p' = Player.height p.
Proof.
  intros Hh. unfold clamp_y, walled. cbn [top bottom cell_y andb].
  change (inject_Z 0) with 0%Q.
  destruct (Qlt_bool (Player.y p) 0) eqn:Hl; simpl.
  - repeat split; lra.
  - apply Qlt_bool_false in Hl.
    destruct (Qle_bool (0 + 1) (Player.y p + Player.height p)) eqn:Hr; simpl.
    + repeat split; lra.
    + apply Qle_bool_false in Hr. repeat split; lra.
Qed.

(** C4: in a one-cell maze with its four walls, a player whose rectangle
    lies in the unit square lies in the unit square after [Game.update],
    whatever the time step and the velocity. *)
Theorem update_stays_in_cell dt g :
  width (maze g) = 1 -> height (maze g) = 1 -> grid (maze g) = [[15]] ->
  (0 <= Player.width (player g) <= 1)%Q ->
  (0 <= Player.height (player g) <= 1)%Q ->
  in_unit_square (player g) ->
  in_unit_square (player (snd (Game_update dt g))).
Proof.
  intros _ _ Hgrid [Hw0 Hw] [Hh0 Hh] Hin. pose proof Hin as [Hx0 [Hx1 [Hy0 Hy1]]].
  unfold Game_update, current_cell, Player.center. simpl fst. simpl snd.
  assert (Hcx : truncate (Player.x (player g) + Player.width (player g) / 2) = 0
                \/ truncate (Player.x (player g) + Player.width (player g) / 2) = 1).
  { apply truncate_unit. unfold Qdiv. change (/ 2)%Q with (1 # 2)%Q. split; lra. }
  assert (Hcy : truncate (Player.y (player g) + Player.height (player g) / 2) = 0
                \/ truncate (Player.y (player g) + Player.height (player g) / 2) = 1).
  { apply truncate_unit. unfold Qdiv. change (/ 2)%Q with (1 # 2)%Q. split; lra. }
  unfold cell_at. rewrite Hgrid.
  destruct Hcx as [-> | ->]; destruct Hcy as [-> | ->]; simpl; try exact Hin.
  change (in_unit_square (clamp_y walled (clamp_x walled (Player.update dt (player g))))).
  set (p1 := Player.update dt (player g)).
  assert (Hw1 : (Player.width p1 <= 1)%Q) by (simpl; lra).
  destruct (clamp_x_walled p1 Hw1) as [[Ha Hb] [_ [_ Ehx]]].
  assert (Hh2 : (Player.height (clamp_x walled p1) <= 1)%Q) by (rewrite Ehx; simpl; lra).
  destruct (clamp_y_walled (clamp_x walled p1) Hh2) as [[Hc Hd] [Ex [Ew _]]].
  unfold in_unit_square. rewrite Ex, Ew. repeat split; assumption.
Qed.

Lemma update_stays_in_cell_witness :
  in_unit_square
    (player (snd (Game_update 1
       (mkGame maze_1x1 (Player.mk (1 # 4) (1 # 4) 5 (- (5)) (1 # 2) (1 # 2)) 5)))).
Proof.
  apply update_stays_in_cell; try reflexivity;
    unfold in_unit_square; simpl; repeat split; lra.
Defined.

(** * More on the generated maze *)

(** [generate] returns, and what it returns spans the grid. *)
Lemma generate_total shuffle fuel m calls :
  (forall n l, Permutation l (shuffle n l)) ->
  1 <= width m -> 1 <= height m -> well_formed m ->
  (Z.to_nat (width m * height m) <= fuel)%nat ->
  exists m' calls',
    generate shuffle fuel (m, calls) = Some (Ok (m', calls')) /\
    spans (width m) (height m) m'.
Proof.
  intros Hperm Hw Hh Hwf Hfuel.
  pose proof (generate_spans shuffle fuel m calls Hperm Hw Hh Hwf) as H.
  destruct (generate shuffle fuel (m, calls)) as [[[m' calls']|e]|]; simpl in H.
  - exists m', calls'. split; [reflexivity|exact H].
  - contradiction.
  - rewrite all_cells_length in H. rewrite Z2Nat.inj_mul in Hfuel by lia. lia.
Qed.

Lemma reachable_Inv m c :
  reachable m -> in_grid (width m) (height m) c = true ->
  exists Vs V EL, Inv (width m) (height m) m Vs V EL.
Proof.
  intros Hr Hc. apply in_grid_bounds in Hc.
  destruct (reachable_shape m Hr) as [_ [H|[H|H]]]; [lia|lia|exact H].
Qed.

(** In a maze as built or as generated, a cell on the edge of the grid has
    a wall on each side that faces the outside. *)
Theorem outer_walls m x y :
  reachable m -> in_grid (width m) (height m) (x, y) = true ->
  exists c,
    cell_at m x y = Ok c /\
    (x = 0 -> left c = true) /\ (x = width m - 1 -> right c = true) /\
    (y = 0 -> top c = true) /\ (y = height m - 1 -> bottom c = true).
Proof.
  intros Hr Hc. destruct (reachable_Inv m (x, y) Hr Hc) as [Vs [V [EL I]]].
  eexists. split; [apply (cell_at_inside _ _ _ _ _ _ I); exact Hc|].
  cbn [left right top bottom]. apply in_grid_bounds in Hc as Hb. simpl in Hb.
  assert (Hout : forall d, 0 <= d < 4 -> ~ (0 <= fst (nb (x, y) d) < width m /\
                   0 <= snd (nb (x, y) d) < height m) ->
                 Z.testbit (cellv m (x, y)) d = true).
  { intros d Hd Hn. apply (boundary_wall _ _ _ _ _ _ (x, y) d I Hc Hd).
    apply not_true_is_false. intros H. apply in_grid_bounds in H. tauto. }
  repeat split; intros E; apply Hout; simpl; lia.
Qed.

Lemma outer_walls_witness :
  exists c,
    cell_at maze_2x2 1 0 = Ok c /\
    (1 = 0 -> left c = true) /\ (1 = width maze_2x2 - 1 -> right c = true) /\
    (0 = 0 -> top c = true) /\ (0 = height maze_2x2 - 1 -> bottom c = true).
Proof.
  apply (outer_walls maze_2x2 1 0).
  - apply (reachable_init 2 2). reflexivity.
  - reflexivity.
Defined.

(** A maze as the constructor leaves it has its four walls around every
    cell. *)
Theorem fresh_maze_all_walls w h m x y :
  Maze_init w h = Ok m -> in_grid w h (x, y) = true ->
  cell_at m x y = Ok (mkCell x y true true true true).
Proof.
  intros Hinit Hc.
  destruct (init_spec w h m Hinit) as [Hw [Hh [Ew [Eh [Hwf [Hmask _]]]]]].
  apply in_grid_bounds in Hc as Hb. simpl in Hb.
  rewrite (cell_at_wrapped m x y Hwf) by lia.
  rewrite Ew, Eh. rewrite !Z.mod_small by lia. rewrite (Hmask (x, y) Hc).
  reflexivity.
Qed.

Lemma fresh_maze_all_walls_witness :
  cell_at maze_2x2 1 1 = Ok (mkCell 1 1 true true true true).
Proof.
  apply (fresh_maze_all_walls 2 2); reflexivity.
Defined.

(** On a maze without cells [generate] fails with a range error, at the
    first line of [_generate]. *)
Theorem generate_without_cells shuffle fuel w h m calls :
  Maze_init w h = Ok m -> w = 0 \/ h = 0 ->
  generate shuffle (S fuel) (m, calls) = Some (Raise IndexError).
Proof.
  intros Hinit Hz.
  destruct (init_spec w h m Hinit) as [Hw [Hh [Ew [Eh [Hwf _]]]]].
  apply generate_empty; [exact Hwf|]. lia.
Qed.

Lemma generate_without_cells_witness :
  generate in_order 1 (mkMaze [[]; []; []] [[]; []; []] 0 3, O)
  = Some (Raise IndexError).
Proof.
  apply (generate_without_cells in_order O 0 3); [reflexivity|lia].
Defined.

(** ** Regeneration *)

Lemma map_const_repeat {A B} (v : B) (l : list A) :
  map (fun _ => v) l = repeat v (length l).
Proof.
  induction l as [|a l IH]; simpl; [reflexivity|]. rewrite IH. reflexivity.
Qed.

Lemma fill_is_full {A} (a : list (list A)) h w (v : A) :
  shape a h w -> Np.fill a v = repeat (repeat v (Z.to_nat w)) (Z.to_nat h).
Proof.
  intros [Hl HF]. unfold Np.fill. subst h. rewrite Nat2Z.id.
  induction HF as [|r a Hr HF IH]; simpl; [reflexivity|].
  rewrite IH, map_const_repeat. subst w. rewrite Nat2Z.id. reflexivity.
Qed.

(** [generate] starts from scratch: what it returns depends on the
    dimensions of the maze and on the shuffles, not on the walls and marks
    an earlier run has left. *)
Theorem generate_forgets shuffle fuel m1 m2 calls :
  well_formed m1 -> well_formed m2 ->
  width m1 = width m2 -> height m1 = height m2 ->
  generate shuffle fuel (m1, calls) = generate shuffle fuel (m2, calls).
Proof.
  intros [Hg1 Hv1] [Hg2 Hv2] Ew Eh. unfold generate. simpl fst. simpl snd.
  rewrite (fill_is_full _ _ _ _ Hg1), (fill_is_full _ _ _ _ Hv1).
  rewrite (fill_is_full _ _ _ _ Hg2), (fill_is_full _ _ _ _ Hv2).
  rewrite Ew, Eh. reflexivity.
Qed.

Lemma generate_forgets_witness :
  generate in_order 2 (mkMaze [[7; 13]] [[true; true]] 2 1, O)
  = generate in_order 2 (maze_2x1, O).
Proof.
  apply generate_forgets; try reflexivity; repeat constructor.
Defined.

(** ** Every cell is visited, once *)

(** After [generate] every cell of the grid is marked as visited. *)
Theorem generate_visits_all shuffle fuel m calls x y :
  (forall n l, Permutation l (shuffle n l)) ->
  1 <= width m -> 1 <= height m -> well_formed m ->
  (Z.to_nat (width m * height m) <= fuel)%nat ->
  in_grid (width m) (height m) (x, y) = true ->
  exists m' calls',
    generate shuffle fuel (m, calls) = Some (Ok (m', calls')) /\
    Np.get false (_visited m') y x = Ok true.
Proof.
  intros Hperm Hw Hh Hwf Hfuel Hc.
  destruct (generate_total shuffle fuel m calls Hperm Hw Hh Hwf Hfuel)
    as [m' [calls' [Hgen [V [EL [I Hall]]]]]].
  exists m', calls'. split; [exact Hgen|].
  rewrite (get_inside _ _ _ (inv_visited _ _ _ _ _ _ I)) by exact Hc.
  f_equal. apply (inv_seen _ _ _ _ _ _ I (x, y) Hc). apply Hall. exact Hc.
Qed.

Lemma generate_visits_all_witness :
  exists m' calls',
    generate in_order 4 (maze_2x2, O) = Some (Ok (m', calls')) /\
    Np.get false (_visited m') 1 1 = Ok true.
Proof.
  apply (generate_visits_all in_order 4 maze_2x2 O 1 1).
  - intros n l. apply Permutation_refl.
  - simpl. lia.
  - simpl. lia.
  - repeat constructor.
  - simpl. lia.
  - reflexivity.
Defined.

Lemma count_upd_row (row : list bool) n :
  (n < length row)%nat -> nth n row false = false ->
  length (filter id (Np.upd row n true)) = S (length (filter id row)).
Proof.
  revert n. induction row as [|b row IH]; intros [|n] Hn Hb; simpl in *; try lia.
  - subst b. reflexivity.
  - destruct b; simpl; rewrite IH by (assumption || lia); reflexivity.
Qed.

Lemma count_upd (a : list (list bool)) r row' :
  (r < length a)%nat ->
  (length (filter id (concat (Np.upd a r row'))) + length (filter id (nth r a [])))%nat
  = (length (filter id (concat a)) + length (filter id row'))%nat.
Proof.
  revert r. induction a as [|row a IH]; intros [|r] Hr; simpl in *; try lia.
  - rewrite !filter_app, !length_app. lia.
  - rewrite !filter_app, !length_app. specialize (IH r ltac:(lia)). lia.
Qed.

Lemma marked_set2 m c :
  shape (_visited m) (height m) (width m) ->
  in_grid (width m) (height m) c = true -> seen m c = false ->
  marked (set_visited m (set2 (_visited m) c true)) = S (marked m).
Proof.
  intros Hs Hc Hseen. unfold marked, set2. simpl.
  destruct (shape_row_of _ _ _ Hs c Hc) as [H1 H2].
  pose proof (count_upd (_visited m) (Z.to_nat (snd c))
                (Np.upd (nth (Z.to_nat (snd c)) (_visited m) []) (Z.to_nat (fst c)) true) H1) as E.
  rewrite count_upd_row in E by assumption. lia.
Qed.

Section Counting.

Variable shuffle : shuffler.

Lemma accounted_refl s :
  shape (_visited (fst s)) (height (fst s)) (width (fst s)) -> accounted s s.
Proof.
  intros Hs. split; [reflexivity|]. split; [reflexivity|]. split; [exact Hs|lia].
Qed.

Lemma loop_accounted fuel x y
  (IH : forall i j s s',
      shape (_visited (fst s)) (height (fst s)) (width (fst s)) ->
      in_grid (width (fst s)) (height (fst s)) (i, j) = true ->
      seen (fst s) (i, j) = false ->
      _generate shuffle fuel i j s = Some (Ok s') -> accounted s s') :
  forall l s s',
    shape (_visited (fst s)) (height (fst s)) (width (fst s)) ->
    for_each (visit_neighbour (_generate shuffle fuel) x y) l s = Some (Ok s') ->
    accounted s s'.
Proof.
  induction l as [|item l IHl]; intros s s' Hs Hrun; simpl in Hrun.
  - inversion Hrun; subst. apply accounted_refl. exact Hs.
  - destruct (visit_neighbour (_generate shuffle fuel) x y item s)
      as [[s1|e]|] eqn:Hbody; try discriminate.
    assert (H1 : accounted s s1).
    { unfold visit_neighbour in Hbody. destruct item as [w0 [dx dy]].
      rewrite bounds_test in Hbody.
      destruct (in_grid (width (fst s)) (height (fst s)) (x + dx, y + dy)) eqn:Hin;
        simpl negb in Hbody; cbv iota in Hbody.
      2:{ inversion Hbody; subst. apply accounted_refl. exact Hs. }
      rewrite (get_inside _ _ _ Hs) in Hbody by exact Hin.
      fold (seen (fst s) (x + dx, y + dy)) in Hbody.
      destruct (seen (fst s) (x + dx, y + dy)) eqn:Hseen.
      { inversion Hbody; subst. apply accounted_refl. exact Hs. }
      destruct (remove_wall (grid (fst s)) w0 x y (x + dx) (y + dy)) as [g|e];
        [|discriminate].
      apply (IH (x + dx) (y + dy) (set_grid (fst s) g, snd s) s1) in Hbody;
        simpl; auto. }
    destruct H1 as [Ew [Eh [Hs1 Hm1]]].
    assert (H2 : accounted s1 s').
    { apply IHl; [rewrite Ew, Eh; exact Hs1|exact Hrun]. }
    destruct H2 as [Ew' [Eh' [Hs' Hm']]].
    rewrite Ew, Eh in *.
    split; [congruence|]. split; [congruence|]. split; [exact Hs'|lia].
Qed.

Lemma generate_accounted : forall fuel i j s s',
  shape (_visited (fst s)) (height (fst s)) (width (fst s)) ->
  in_grid (width (fst s)) (height (fst s)) (i, j) = true ->
  seen (fst s) (i, j) = false ->
  _generate shuffle fuel i j s = Some (Ok s') -> accounted s s'.
Proof.
  induction fuel as [|fuel IH]; intros i j s s' Hs Hin Hseen Hrun;
    simpl in Hrun; [discriminate|].
  rewrite (set_inside _ _ _ Hs) in Hrun by exact Hin.
  apply (loop_accounted fuel i j IH) in Hrun.
  - destruct Hrun as [Ew [Eh [Hs' Hm]]]. simpl in Ew, Eh, Hs', Hm.
    rewrite (marked_set2 (fst s) (i, j) Hs Hin Hseen) in Hm.
    split; [exact Ew|]. split; [exact Eh|]. split; [exact Hs'|]. lia.
  - simpl. apply set2_shape; assumption.
Qed.

End Counting.

Lemma marked_none (v : list (list bool)) h w :
  shape v h w -> length (filter id (concat (Np.fill v false))) = O.
Proof.
  intros [_ HF]. unfold Np.fill. clear HF.
  induction v as [|r v IH]; simpl; [reflexivity|].
  rewrite filter_app, length_app, IH.
  induction r; simpl; auto.
Qed.

Lemma marked_all (v : list (list bool)) h w :
  shape v h w ->
  (forall c, in_grid w h c = true -> get2 false v c = true) ->
  length (filter id (concat v)) = (Z.to_nat w * Z.to_nat h)%nat.
Proof.
  intros [Hl HF] Hall.
  assert (Hrows : forall r : nat, (r < length v)%nat ->
            nth r v [] = repeat true (Z.to_nat w)).
  { intros r Hr. apply (nth_ext _ _ false true).
    - rewrite repeat_length. rewrite Forall_forall in HF.
      specialize (HF (nth r v []) (nth_In _ _ Hr)). lia.
    - intros n Hn. rewrite nth_repeat_lt.
      + specialize (Hall (Z.of_nat n, Z.of_nat r)). unfold get2 in Hall.
        simpl in Hall. rewrite !Nat2Z.id in Hall. apply Hall.
        apply in_grid_bounds. simpl. rewrite Forall_forall in HF.
        specialize (HF (nth r v []) (nth_In _ _ Hr)). lia.
      + rewrite Forall_forall in HF.
        specialize (HF (nth r v []) (nth_In _ _ Hr)). lia. }
  assert (Ev : v = repeat (repeat true (Z.to_nat w)) (Z.to_nat h)).
  { apply (nth_ext _ _ [] []).
    - rewrite repeat_length. lia.
    - intros r Hr. rewrite (Hrows r Hr). rewrite nth_repeat_lt by lia. reflexivity. }
  rewrite Ev. clear. induction (Z.to_nat h) as [|n IH]; simpl; [lia|].
  rewrite filter_app, length_app, IH.
  assert (forall k, length (filter id (repeat true k)) = k) as ->.
  { induction k; simpl; auto. }
  lia.
Qed.

(** [generate] enters every cell exactly once: it draws as many shuffles
    as the maze has cells. *)
Theorem generate_shuffles_once_per_cell shuffle fuel m calls :
  (forall n l, Permutation l (shuffle n l)) ->
  1 <= width m -> 1 <= height m -> well_formed m ->
  (Z.to_nat (width m * height m) <= fuel)%nat ->
  exists m',
    generate shuffle fuel (m, calls)
    = Some (Ok (m', (calls + Z.to_nat (width m * height m))%nat)).
Proof.
  intros Hperm Hw Hh Hwf Hfuel.
  destruct (generate_total shuffle fuel m calls Hperm Hw Hh Hwf Hfuel)
    as [m' [calls' [Hgen [V [EL [I Hall]]]]]].
  exists m'. rewrite Hgen. do 3 f_equal.
  unfold generate in Hgen. simpl fst in Hgen. simpl snd in Hgen.
  destruct Hwf as [Hg Hv].
  apply generate_accounted in Hgen; simpl.
  - destruct Hgen as [_ [_ [_ Hm]]]. simpl in Hm. unfold marked in Hm. simpl in Hm.
    rewrite (marked_none _ _ _ Hv) in Hm.
    rewrite (marked_all _ _ _ (inv_visited _ _ _ _ _ _ I)) in Hm.
    + rewrite Z2Nat.inj_mul by lia. lia.
    + intros c Hc. apply (inv_seen _ _ _ _ _ _ I c Hc). apply Hall. exact Hc.
  - apply fill_shape. exact Hv.
  - apply in_grid_bounds. simpl. lia.
  - unfold seen. simpl. apply (fill_get2 _ _ _ _ _ _ Hv).
    apply in_grid_bounds. simpl. lia.
Qed.

Lemma generate_shuffles_once_per_cell_witness :
  exists m', generate in_order 4 (maze_2x2, O) = Some (Ok (m', (0 + Z.to_nat (2 * 2))%nat)).
Proof.
  apply (generate_shuffles_once_per_cell in_order 4 maze_2x2 O).
  - intros n l. apply Permutation_refl.
  - simpl. lia.
  - simpl. lia.
  - repeat constructor.
  - simpl. lia.
Defined.

(** ** Iterating over a maze *)

Lemma map_result_ok {A B} (f : A -> result B) (g : A -> B) (l : list A) :
  (forall a, In a l -> f a = Ok (g a)) -> map_result f l = Ok (map g l).
Proof.
  induction l as [|a l IH]; intros H; simpl; [reflexivity|].
  rewrite (H a) by (left; reflexivity). simpl.
  rewrite IH by (intros b Hb; apply H; right; exact Hb). reflexivity.
Qed.

Lemma cell_at_cell_of m x y :
  well_formed m -> in_grid (width m) (height m) (x, y) = true ->
  cell_at m x y = Ok (cell_of m (x, y)).
Proof.
  intros Hwf Hc. apply in_grid_bounds in Hc. simpl in Hc.
  rewrite (cell_at_wrapped m x y Hwf) by lia.
  rewrite !Z.mod_small by lia. reflexivity.
Qed.

Lemma Maze_iter_rows m :
  well_formed m ->
  Maze_iter m
  = Ok (map (fun y => map (fun x => cell_of m (x, y)) (range (width m)))
            (range (height m))).
Proof.
  intros Hwf. unfold Maze_iter. apply map_result_ok. intros y Hy.
  apply map_result_ok. intros x Hx. apply cell_at_cell_of; [exact Hwf|].
  apply in_range in Hx, Hy. apply in_grid_bounds. simpl. lia.
Qed.

Lemma rows_concat m w h :
  concat (map (fun y => map (fun x => cell_of m (x, y)) (range w)) (range h))
  = map (cell_of m) (all_cells w h).
Proof.
  unfold all_cells. induction (range h) as [|y l IH]; simpl; [reflexivity|].
  rewrite IH, map_app, map_map. reflexivity.
Qed.




(** ** The walls that are shown *)

Lemma wall_characters_app a b :
  wall_characters (a ++ b) = (wall_characters a + wall_characters b)%nat.
Proof.
  unfold wall_characters. rewrite !count_occ_app. lia.
Qed.

Lemma wall_characters_cell c : wall_characters (cell_as_ascii c) = walls_shown c.
Proof.
  unfold wall_characters, cell_as_ascii, walls_shown.
  destruct (bottom c); destruct (right c); reflexivity.
Qed.

Lemma wall_characters_row row :
  wall_characters (flat_map cell_as_ascii row ++ [newline])
  = list_sum (map walls_shown row).
Proof.
  rewrite wall_characters_app. change (wall_characters [newline]) with O.
  induction row as [|c row IH]; simpl; [reflexivity|].
  change (wall_characters (cell_as_ascii c ++ flat_map cell_as_ascii row) + 0
          = walls_shown c + list_sum (map walls_shown row))%nat.
  rewrite wall_characters_app, wall_characters_cell. lia.
Qed.

Lemma wall_characters_rows rows :
  wall_characters (flat_map (fun row => flat_map cell_as_ascii row ++ [newline]) rows)
  = list_sum (map walls_shown (concat rows)).
Proof.
  induction rows as [|row rows IH]; simpl; [reflexivity|].
  rewrite wall_characters_app, wall_characters_row, IH.
  rewrite map_app, list_sum_app. reflexivity.
Qed.

Lemma draw_cell_length c : length (draw_cell c) = walls_shown c.
Proof.
  unfold draw_cell, walls_shown. destruct (bottom c); destruct (right c); reflexivity.
Qed.

Lemma draw_rows_length rows :
  length (flat_map (flat_map draw_cell) rows)
  = list_sum (map walls_shown (concat rows)).
Proof.
  induction rows as [|row rows IH]; simpl; [reflexivity|].
  rewrite length_app, IH, map_app, list_sum_app. f_equal.
  induction row as [|c row IHr]; simpl; [reflexivity|].
  rewrite length_app, draw_cell_length, IHr. reflexivity.
Qed.

Section Shown.

Variables (w h : Z) (m : Maze) (Vs V : list (Z * Z)) (EL : list ((Z * Z) * (Z * Z))).
Hypothesis I : Inv w h m Vs V EL.

Lemma cell_of_flags c :
  in_grid w h c = true ->
  bottom (cell_of m c) = Z.testbit (cellv m c) 2 /\
  right (cell_of m c) = Z.testbit (cellv m c) 3.
Proof.
  intros Hc. unfold cell_of. simpl.
  destruct (flags_are_bits _ (inv_range _ _ _ _ _ _ I _ Hc)) as [_ [_ [E4 E8]]].
  split; assumption.
Qed.

(** Across one side of a cell: the wall is shown, or the pair that
    crosses it is an open pair of [all_edges]. *)
Lemma side_shown_or_open c d :
  in_grid w h c = true -> 0 <= d < 4 ->
  (Nat.b2n (Z.testbit (cellv m c) d)
   + length (filter (fun e => passable m (fst e) (snd e))
                    (if in_grid w h (nb c d) then [(c, nb c d)] else [])))%nat
  = 1%nat.
Proof.
  intros Hc Hd. destruct (in_grid w h (nb c d)) eqn:Hn.
  - simpl filter. rewrite (passable_nb _ _ _ _ _ _ I c d Hc Hn Hd).
    pose proof (open_wall _ _ _ _ _ _ I c d Hc Hd) as H1.
    pose proof (open_wall_back _ _ _ _ _ _ I c d Hn Hd) as H2.
    destruct (Z.testbit (cellv m c) d); destruct (Z.testbit (cellv m (nb c d)) (opp d));
      simpl; try reflexivity; exfalso; destruct H1 as [A B]; destruct H2 as [C D];
      first [discriminate (B (C eq_refl)) | discriminate (D (A eq_refl))].
  - rewrite (boundary_wall _ _ _ _ _ _ c d I Hc Hd Hn). reflexivity.
Qed.

Lemma cell_shown_or_open c :
  in_grid w h c = true ->
  (walls_shown (cell_of m c)
   + length (filter (fun e => passable m (fst e) (snd e)) (edges_at w h c)))%nat
  = 2%nat.
Proof.
  intros Hc. unfold walls_shown, edges_at.
  destruct (cell_of_flags c Hc) as [-> ->].
  rewrite filter_app, length_app.
  pose proof (side_shown_or_open c 3 Hc ltac:(lia)) as H3.
  pose proof (side_shown_or_open c 2 Hc ltac:(lia)) as H2.
  apply in_grid_bounds in Hc as Hb.
  assert (E3 : in_grid w h (nb c 3) = (fst c + 1 <? w)).
  { unfold in_grid. simpl.
    destruct (Z.leb_spec 0 (fst c + 1)); destruct (Z.ltb_spec (fst c + 1) w);
      destruct (Z.leb_spec 0 (snd c)); destruct (Z.ltb_spec (snd c) h);
      simpl; try reflexivity; lia. }
  assert (E2 : in_grid w h (nb c 2) = (snd c + 1 <? h)).
  { unfold in_grid. simpl.
    destruct (Z.leb_spec 0 (fst c)); destruct (Z.ltb_spec (fst c) w);
      destruct (Z.leb_spec 0 (snd c + 1)); destruct (Z.ltb_spec (snd c + 1) h);
      simpl; try reflexivity; lia. }
  rewrite E3 in H3. rewrite E2 in H2. simpl nb in H2, H3. lia.
Qed.

Lemma shown_and_open (cells : list (Z * Z)) :
  (forall c, In c cells -> in_grid w h c = true) ->
  (list_sum (map walls_shown (map (cell_of m) cells))
   + length (filter (fun e => passable m (fst e) (snd e))
                    (flat_map (edges_at w h) cells)))%nat
  = (2 * length cells)%nat.
Proof.
  induction cells as [|c cells IH]; intros Hin; simpl; [reflexivity|].
  rewrite filter_app, length_app.
  pose proof (cell_shown_or_open c (Hin c (or_introl eq_refl))).
  specialize (IH (fun c' Hc' => Hin c' (or_intror Hc'))). lia.
Qed.

End Shown.

(** In a maze that spans its grid the walls shown, the bottom and the
    right one of each cell, are one more than the cells. *)
Lemma spans_walls_shown w h m :
  1 <= w -> 1 <= h -> spans w h m ->
  list_sum (map walls_shown (map (cell_of m) (all_cells w h)))
  = Z.to_nat (w * h + 1).
Proof.
  intros Hw Hh Hs.
  destruct (spans_spanning_tree w h m Hw Hh Hs) as [Ew [Eh [Hcount _]]].
  destruct Hs as [V [EL [I _]]].
  pose proof (shown_and_open w h m V V EL I (all_cells w h)
                (fun c Hc => proj1 (in_all_cells w h c) Hc)) as H.
  unfold cleared_wall_pairs in Hcount. rewrite Ew, Eh in Hcount.
  change (flat_map (edges_at w h) (all_cells w h)) with (all_edges w h) in H.
  rewrite all_cells_length in H. nia.
Qed.

(** The picture of a generated maze holds [width * height + 1] wall
    characters. *)
Theorem maze_as_ascii_walls shuffle fuel m calls :
  (forall n l, Permutation l (shuffle n l)) ->
  1 <= width m -> 1 <= height m -> well_formed m ->
  (Z.to_nat (width m * height m) <= fuel)%nat ->
  exists m' calls' s,
    generate shuffle fuel (m, calls) = Some (Ok (m', calls')) /\
    maze_as_ascii m' = Ok s /\
    Z.of_nat (wall_characters s) = width m * height m + 1.
Proof.
  intros Hperm Hw Hh Hwf Hfuel.
  destruct (generate_total shuffle fuel m calls Hperm Hw Hh Hwf Hfuel)
    as [m' [calls' [Hgen Hs]]].
  exists m', calls'. eexists. split; [exact Hgen|].
  pose proof Hs as [V [EL [I _]]].
  unfold maze_as_ascii. rewrite (Maze_iter_rows m' (Inv_well_formed _ _ _ _ _ _ I)).
  simpl bind. split; [reflexivity|].
  rewrite wall_characters_rows, rows_concat.
  rewrite (inv_width _ _ _ _ _ _ I), (inv_height _ _ _ _ _ _ I).
  rewrite (spans_walls_shown _ _ m' Hw Hh Hs). lia.
Qed.

Lemma maze_as_ascii_walls_witness :
  exists m' calls' s,
    generate in_order 4 (maze_2x2, O) = Some (Ok (m', calls')) /\
    maze_as_ascii m' = Ok s /\
    Z.of_nat (wall_characters s) = width maze_2x2 * height maze_2x2 + 1.
Proof.
  apply (maze_as_ascii_walls in_order 4 maze_2x2 O).
  - intros n l. apply Permutation_refl.
  - simpl. lia.
  - simpl. lia.
  - repeat constructor.
  - simpl. lia.
Defined.

(** [draw_maze] draws [width * height + 1] lines for a generated maze,
    and none of them lies on the top or on the left border of the grid:
    these two borders are never drawn. *)
Theorem draw_maze_lines shuffle fuel m calls :
  (forall n l, Permutation l (shuffle n l)) ->
  1 <= width m -> 1 <= height m -> well_formed m ->
  (Z.to_nat (width m * height m) <= fuel)%nat ->
  exists m' calls' lines,
    generate shuffle fuel (m, calls) = Some (Ok (m', calls')) /\
    draw_maze m' = Ok lines /\
    Z.of_nat (length lines) = width m * height m + 1 /\
    forall l, In l lines ->
      ~ (line_x1 l = 0 /\ line_x2 l = 0) /\ ~ (line_y1 l = 0 /\ line_y2 l = 0).
Proof.
  intros Hperm Hw Hh Hwf Hfuel.
  destruct (generate_total shuffle fuel m calls Hperm Hw Hh Hwf Hfuel)
    as [m' [calls' [Hgen Hs]]].
  exists m', calls'. eexists. split; [exact Hgen|].
  pose proof Hs as [V [EL [I _]]].
  unfold draw_maze. rewrite (Maze_iter_rows m' (Inv_well_formed _ _ _ _ _ _ I)).
  simpl bind. split; [reflexivity|].
  rewrite (inv_width _ _ _ _ _ _ I), (inv_height _ _ _ _ _ _ I). split.
  - rewrite draw_rows_length, rows_concat.
    rewrite (spans_walls_shown _ _ m' Hw Hh Hs). lia.
  - intros l Hl. apply in_flat_map in Hl. destruct Hl as [row [Hrow Hl]].
    apply in_map_iff in Hrow. destruct Hrow as [y [<- Hy]].
    apply in_flat_map in Hl. destruct Hl as [c [Hc Hl]].
    apply in_map_iff in Hc. destruct Hc as [x [<- Hx]].
    apply in_range in Hx, Hy. unfold draw_cell in Hl. apply in_app_or in Hl.
    destruct Hl as [Hl|Hl];
      [destruct (bottom (cell_of m' (x, y)))|destruct (right (cell_of m' (x, y)))];
      simpl in Hl; try tauto; destruct Hl as [<-|[]]; simpl; lia.
Qed.

Lemma draw_maze_lines_witness :
  exists m' calls' lines,
    generate in_order 4 (maze_2x2, O) = Some (Ok (m', calls')) /\
    draw_maze m' = Ok lines /\
    Z.of_nat (length lines) = width maze_2x2 * height maze_2x2 + 1 /\
    forall l, In l lines ->
      ~ (line_x1 l = 0 /\ line_x2 l = 0) /\ ~ (line_y1 l = 0 /\ line_y2 l = 0).
Proof.
  apply (draw_maze_lines in_order 4 maze_2x2 O).
  - intros n l. apply Permutation_refl.
  - simpl. lia.
  - simpl. lia.
  - repeat constructor.
  - simpl. lia.
Defined.

(** ** No cell is walled in *)

Lemma passable_opens m a b ca :
  passable m a b = true -> cell_at m (fst a) (snd a) = Ok ca ->
  walls ca <> [true; true; true; true].
Proof.
  unfold passable, walls. intros H Hca. rewrite Hca in H.
  apply andb_true_iff in H. destruct H as [_ H].
  destruct (cell_at m (fst b) (snd b)) as [cb|e]; [|discriminate].
  intros E. injection E as El Et Er Eb. rewrite El, Et, Er, Eb in H.
  cbn [negb] in H.
  repeat (rewrite ?andb_false_r in H; cbn [andb orb] in H).
  discriminate.
Qed.

(** In a generated maze of two cells or more, every cell has a side
    without a wall. *)
Theorem no_cell_walled_in shuffle fuel m calls x y :
  (forall n l, Permutation l (shuffle n l)) ->
  1 <= width m -> 1 <= height m -> 2 <= width m * height m -> well_formed m ->
  (Z.to_nat (width m * height m) <= fuel)%nat ->
  in_grid (width m) (height m) (x, y) = true ->
  exists m' calls' c,
    generate shuffle fuel (m, calls) = Some (Ok (m', calls')) /\
    cell_at m' x y = Ok c /\ walls c <> [true; true; true; true].
Proof.
  intros Hperm Hw Hh Hcells Hwf Hfuel Hc.
  destruct (generate_total shuffle fuel m calls Hperm Hw Hh Hwf Hfuel)
    as [m' [calls' [Hgen Hs]]].
  destruct (spans_spanning_tree _ _ m' Hw Hh Hs) as [Ew [Eh [_ Hpath]]].
  destruct Hs as [V [EL [I _]]].
  exists m', calls'. eexists. split; [exact Hgen|].
  split; [apply (cell_at_inside _ _ _ _ _ _ I); exact Hc|].
  apply in_grid_bounds in Hc as Hb. simpl in Hb.
  set (b := if 2 <=? width m
            then (if x =? 0 then 1 else 0, y)
            else (x, if y =? 0 then 1 else 0)).
  assert (Hbg : in_grid (width m) (height m) b = true /\ b <> (x, y)).
  { unfold b. destruct (Z.leb_spec 2 (width m)).
    - destruct (Z.eqb_spec x 0); split; try (apply in_grid_bounds; simpl; lia);
        intros E; inversion E; lia.
    - assert (2 <= height m) by nia.
      destruct (Z.eqb_spec y 0); split; try (apply in_grid_bounds; simpl; lia);
        intros E; inversion E; lia. }
  destruct Hbg as [Hbg Hne].
  rewrite <- Ew, <- Eh in Hc, Hbg.
  destruct (Hpath (x, y) b Hc Hbg) as [p [[Hwalk _] _]].
  destruct p as [|c p]; simpl in Hwalk; [congruence|].
  destruct Hwalk as [Hopen _].
  apply (passable_opens m' (x, y) c); [exact Hopen|].
  rewrite Ew, Eh in Hc. apply (cell_at_inside _ _ _ _ _ _ I). exact Hc.
Qed.

Lemma no_cell_walled_in_witness :
  exists m' calls' c,
    generate in_order 4 (maze_2x2, O) = Some (Ok (m', calls')) /\
    cell_at m' 1 1 = Ok c /\ walls c <> [true; true; true; true].
Proof.
  apply (no_cell_walled_in in_order 4 maze_2x2 O 1 1).
  - intros n l. apply Permutation_refl.
  - simpl. lia.
  - simpl. lia.
  - simpl. lia.
  - repeat constructor.
  - simpl. lia.
  - reflexivity.
Defined.

(** The sample of a generated maze is one. *)
Lemma generated_2x2_reachable : reachable generated_2x2.
Proof.
  apply (reachable_generate maze_2x2 in_order 8 0%nat generated_2x2 4%nat).
  - apply (reachable_init 2 2). reflexivity.
  - intros n l. apply Permutation_refl.
  - vm_compute. reflexivity.
Qed.

(** * More on the game *)

(** The three ways [Game.update] treats the horizontal axis: push the
    player back to the left edge, push it back to the right edge, or leave
    it where [Player.update] has put it. *)
Lemma clamp_x_cases c p :
  (left c = true /\ (Player.x p < inject_Z (cell_x c))%Q /\
   clamp_x c p = Player.set_x p (inject_Z (cell_x c)))
  \/ ((left c = false \/ (inject_Z (cell_x c) <= Player.x p)%Q) /\
      right c = true /\
      (inject_Z (cell_x c) + 1 <= Player.x p + Player.width p)%Q /\
      clamp_x c p = Player.set_x p (inject_Z (cell_x c) + 1 - Player.width p)%Q)
  \/ ((left c = false \/ (inject_Z (cell_x c) <= Player.x p)%Q) /\
      (right c = false \/ (Player.x p + Player.width p < inject_Z (cell_x c) + 1)%Q) /\
      clamp_x c p = p).
Proof.
  unfold clamp_x.
  assert (HL : left c = false \/ (inject_Z (cell_x c) <= Player.x p)%Q
               \/ (left c = true /\ (Player.x p < inject_Z (cell_x c))%Q)).
  { destruct (left c); [|tauto].
    destruct (Qlt_bool (Player.x p) (inject_Z (cell_x c))) eqn:E.
    - right. right. split; [reflexivity|apply Qlt_bool_true; exact E].
    - right. left. apply Qlt_bool_false. exact E. }
  destruct (left c && Qlt_bool (Player.x p) (inject_Z (cell_x c))) eqn:E1.
  - apply andb_true_iff in E1. destruct E1 as [El Ex]. left.
    split; [exact El|]. split; [apply Qlt_bool_true; exact Ex|reflexivity].
  - assert (HL' : left c = false \/ (inject_Z (cell_x c) <= Player.x p)%Q).
    { apply andb_false_iff in E1. destruct E1 as [E1|E1]; [tauto|].
      right. apply Qlt_bool_false. exact E1. }
    right.
    destruct (right c && Qle_bool (inject_Z (cell_x c) + 1) (Player.x p + Player.width p))
      eqn:E2.
    + apply andb_true_iff in E2. destruct E2 as [Er Ex]. left.
      split; [exact HL'|]. split; [exact Er|]. split; [|reflexivity].
      apply Qle_bool_iff. exact Ex.
    + right. split; [exact HL'|]. split; [|reflexivity].
      apply andb_false_iff in E2. destruct E2 as [E2|E2]; [tauto|].
      right. apply Qle_bool_false. exact E2.
Qed.

Lemma clamp_y_cases c p :
  (top c = true /\ (Player.y p < inject_Z (cell_y c))%Q /\
   clamp_y c p = Player.set_y p (inject_Z (cell_y c)))
  \/ ((top c = false \/ (inject_Z (cell_y c) <= Player.y p)%Q) /\
      bottom c = true /\
      (inject_Z (cell_y c) + 1 <= Player.y p + Player.height p)%Q /\
      clamp_y c p = Player.set_y p (inject_Z (cell_y c) + 1 - Player.height p)%Q)
  \/ ((top c = false \/ (inject_Z (cell_y c) <= Player.y p)%Q) /\
      (bottom c = false \/ (Player.y p + Player.height p < inject_Z (cell_y c) + 1)%Q) /\
      clamp_y c p = p).
Proof.
  unfold clamp_y.
  destruct (top c && Qlt_bool (Player.y p) (inject_Z (cell_y c))) eqn:E1.
  - apply andb_true_iff in E1. destruct E1 as [El Ex]. left.
    split; [exact El|]. split; [apply Qlt_bool_true; exact Ex|reflexivity].
  - assert (HL' : top c = false \/ (inject_Z (cell_y c) <= Player.y p)%Q).
    { apply andb_false_iff in E1. destruct E1 as [E1|E1]; [tauto|].
      right. apply Qlt_bool_false. exact E1. }
    right.
    destruct (bottom c && Qle_bool (inject_Z (cell_y c) + 1) (Player.y p + Player.height p))
      eqn:E2.
    + apply andb_true_iff in E2. destruct E2 as [Er Ex]. left.
      split; [exact HL'|]. split; [exact Er|]. split; [|reflexivity].
      apply Qle_bool_iff. exact Ex.
    + right. split; [exact HL'|]. split; [|reflexivity].
      apply andb_false_iff in E2. destruct E2 as [E2|E2]; [tauto|].
      right. apply Qle_bool_false. exact E2.
Qed.

(** What [Game.update] does when [current_cell] returns. *)
Lemma update_unfold dt g c :
  current_cell g = Ok c ->
  Game_update dt g
  = (Ok tt, mkGame (maze g) (clamp_y c (clamp_x c (Player.update dt (player g))))
                   (player_move_speed g)).
Proof.
  intros H. unfold Game_update. rewrite H. reflexivity.
Qed.


(** The sides of the player after [Game.update], against the walls of the
    cell it was in. *)
Lemma walls_hold dt g c :
  current_cell g = Ok c ->
  (Player.width (player g) <= 1)%Q -> (Player.height (player g) <= 1)%Q ->
  (left c = true ->
   inject_Z (cell_x c) <= Player.x (player (snd (Game_update dt g))))%Q /\
  (right c = true ->
   Player.x (player (snd (Game_update dt g)))
   + Player.width (player (snd (Game_update dt g))) <= inject_Z (cell_x c) + 1)%Q /\
  (top c = true ->
   inject_Z (cell_y c) <= Player.y (player (snd (Game_update dt g))))%Q /\
  (bottom c = true ->
   Player.y (player (snd (Game_update dt g)))
   + Player.height (player (snd (Game_update dt g))) <= inject_Z (cell_y c) + 1)%Q.
Proof.
  intros Hc Hw Hh. rewrite (update_unfold dt g c Hc). cbn [snd player].
  set (p1 := Player.update dt (player g)).
  assert (Hw1 : (Player.width p1 <= 1)%Q) by exact Hw.
  assert (Hh1 : (Player.height p1 <= 1)%Q) by exact Hh.
  clearbody p1.
  destruct (clamp_x_cases c p1) as [[L [X E]]|[[L [R [X E]]]|[L [R E]]]];
    rewrite E; clear E;
    match goal with
    | |- context [clamp_y c ?q] =>
      destruct (clamp_y_cases c q) as [[T [Y E]]|[[T [B [Y E]]]|[T [B E]]]];
        rewrite E; clear E
    end;
    simpl in *; repeat split; intros F;
      repeat match goal with
             | H : _ \/ _ |- _ => destruct H
             end;
      try congruence; lra.
Qed.

(** A player no wider and no higher than a cell is never left beyond a
    wall of the cell it was in: after [Game.update] it is on the inner side
    of every wall that cell has. *)
Theorem update_respects_walls dt g c :
  current_cell g = Ok c ->
  (Player.width (player g) <= 1)%Q -> (Player.height (player g) <= 1)%Q ->
  let p' := player (snd (Game_update dt g)) in
  (left c = true -> inject_Z (cell_x c) <= Player.x p')%Q /\
  (right c = true -> Player.x p' + Player.width p' <= inject_Z (cell_x c) + 1)%Q /\
  (top c = true -> inject_Z (cell_y c) <= Player.y p')%Q /\
  (bottom c = true -> Player.y p' + Player.height p' <= inject_Z (cell_y c) + 1)%Q.
Proof.
  intros Hc Hw Hh p'. subst p'. apply walls_hold; assumption.
Qed.

Lemma update_respects_walls_witness :
  let g := mkGame maze_1x1 (Player.mk (1 # 4) (1 # 4) 5 (- (5)) (1 # 2) (1 # 2)) 5 in
  let p' := player (snd (Game_update 1 g)) in
  (left walled = true -> inject_Z (cell_x walled) <= Player.x p')%Q /\
  (right walled = true -> Player.x p' + Player.width p' <= inject_Z (cell_x walled) + 1)%Q /\
  (top walled = true -> inject_Z (cell_y walled) <= Player.y p')%Q /\
  (bottom walled = true -> Player.y p' + Player.height p' <= inject_Z (cell_y walled) + 1)%Q.
Proof.
  apply (update_respects_walls 1
           (mkGame maze_1x1 (Player.mk (1 # 4) (1 # 4) 5 (- (5)) (1 # 2) (1 # 2)) 5)
           walled).
  - reflexivity.
  - simpl. lra.
  - simpl. lra.
Defined.

(** ** The cell of the player *)

Lemma Qfloor_unique z q :
  (inject_Z z <= q < inject_Z z + 1)%Q -> Qfloor q = z.
Proof.
  intros [H1 H2].
  assert (A : (inject_Z (Qfloor q) <= q)%Q) by apply Qfloor_le.
  assert (B : (q < inject_Z (Qfloor q + 1))%Q) by apply Qlt_floor.
  rewrite inject_Z_plus in B. change (inject_Z 1) with 1%Q in B.
  assert (C : (inject_Z z < inject_Z (Qfloor q) + 1)%Q) by lra.
  assert (D : (inject_Z (Qfloor q) < inject_Z z + 1)%Q) by lra.
  change 1%Q with (inject_Z 1) in C, D.
  rewrite <- inject_Z_plus in C, D.
  rewrite <- Zlt_Qlt in C, D. lia.
Qed.

Lemma truncate_floor q : (0 <= q)%Q -> truncate q = Qfloor q.
Proof.
  intros H. unfold truncate.
  destruct (Qle_bool 0 q) eqn:E; [reflexivity|].
  apply Qle_bool_false in E. lra.
Qed.

Lemma floor_bounds q :
  (inject_Z (Qfloor q) <= q < inject_Z (Qfloor q) + 1)%Q.
Proof.
  split; [apply Qfloor_le|].
  assert (B : (q < inject_Z (Qfloor q + 1))%Q) by apply Qlt_floor.
  rewrite inject_Z_plus in B. exact B.
Qed.

Lemma floor_in_range q w :
  (0 <= q < inject_Z w)%Q -> 0 <= Qfloor q < w.
Proof.
  intros [H1 H2]. destruct (floor_bounds q) as [A B]. split.
  - assert (C : (inject_Z (-1) < inject_Z (Qfloor q))%Q).
    { change (inject_Z (-1)) with (- (1))%Q. lra. }
    rewrite <- Zlt_Qlt in C. lia.
  - assert (C : (inject_Z (Qfloor q) < inject_Z w)%Q) by lra.
    rewrite <- Zlt_Qlt in C. exact C.
Qed.


(** In a maze as built or as generated, a side of a cell without a wall
    has a cell of the grid behind it. *)
Lemma open_side_inside m x y :
  reachable m -> in_grid (width m) (height m) (x, y) = true ->
  exists c,
    cell_at m x y = Ok c /\ cell_x c = x /\ cell_y c = y /\
    (left c = false -> 1 <= x) /\ (right c = false -> x + 2 <= width m) /\
    (top c = false -> 1 <= y) /\ (bottom c = false -> y + 2 <= height m).
Proof.
  intros Hr Hc. destruct (reachable_Inv m (x, y) Hr Hc) as [Vs [V [EL I]]].
  eexists. split; [apply (cell_at_inside _ _ _ _ _ _ I); exact Hc|].
  cbn [left right top bottom cell_x cell_y].
  apply in_grid_bounds in Hc as Hb. simpl in Hb.
  assert (Hin : forall d, 0 <= d < 4 -> Z.testbit (cellv m (x, y)) d = false ->
                 0 <= fst (nb (x, y) d) < width m /\
                 0 <= snd (nb (x, y) d) < height m).
  { intros d Hd Hf. apply in_grid_bounds.
    destruct (in_grid (width m) (height m) (nb (x, y) d)) eqn:Hn; [reflexivity|].
    rewrite (boundary_wall _ _ _ _ _ _ (x, y) d I Hc Hd Hn) in Hf. discriminate. }
  split; [reflexivity|]. split; [reflexivity|].
  repeat split; intros E; apply Hin in E; simpl in E; lia.
Qed.



(** ** Walls are not crossed *)





(** ** A new game *)

(** [Game.__init__] puts the player at rest strictly inside the cell whose
    indices were drawn, and [current_cell] finds that cell. *)
Theorem Game_init_places_player m speed draw_x draw_y :
  well_formed m ->
  0 <= draw_x <= width m - 1 -> 0 <= draw_y <= height m - 1 ->
  exists g c,
    Game_init m speed draw_x draw_y = Ok g /\
    current_cell g = Ok c /\ cell_at m draw_x draw_y = Ok c /\
    Player.x_velocity (player g) = 0%Q /\ Player.y_velocity (player g) = 0%Q /\
    (inject_Z (cell_x c) < Player.x (player g) /\
     Player.x (player g) + Player.width (player g) < inject_Z (cell_x c) + 1 /\
     inject_Z (cell_y c) < Player.y (player g) /\
     Player.y (player g) + Player.height (player g) < inject_Z (cell_y c) + 1)%Q.
Proof.
  intros Hwf Hx Hy. unfold Game_init, randint.
  destruct (Z.ltb_spec (width m - 1) 0) as [H|_]; [lia|].
  destruct (Z.ltb_spec (height m - 1) 0) as [H|_]; [lia|].
  cbn [bind]. eexists. exists (cell_of m (draw_x, draw_y)).
  split; [reflexivity|].
  assert (Hg : in_grid (width m) (height m) (draw_x, draw_y) = true).
  { apply in_grid_bounds. cbn [fst snd]. lia. }
  assert (Tx : truncate (inject_Z draw_x + (1 # 4) + (1 # 2) / 2) = draw_x).
  { assert (A : (0 <= inject_Z draw_x)%Q).
    { change 0%Q with (inject_Z 0). rewrite <- Zle_Qle. lia. }
    unfold Qdiv. change (/ 2)%Q with (1 # 2)%Q.
    rewrite truncate_floor by lra. apply Qfloor_unique. split; lra. }
  assert (Ty : truncate (inject_Z draw_y + (1 # 4) + (1 # 2) / 2) = draw_y).
  { assert (A : (0 <= inject_Z draw_y)%Q).
    { change 0%Q with (inject_Z 0). rewrite <- Zle_Qle. lia. }
    unfold Qdiv. change (/ 2)%Q with (1 # 2)%Q.
    rewrite truncate_floor by lra. apply Qfloor_unique. split; lra. }
  split.
  { unfold current_cell, Player.center, Player_init. cbn [player maze fst snd
      Player.x Player.y Player.width Player.height].
    rewrite Tx, Ty. apply cell_at_cell_of; assumption. }
  split; [apply cell_at_cell_of; assumption|].
  cbn [player Player_init Player.x Player.y Player.width Player.height
       Player.x_velocity Player.y_velocity cell_of cell_x cell_y fst snd].
  split; [reflexivity|]. split; [reflexivity|].
  repeat split; lra.
Qed.

Lemma Game_init_places_player_witness :
  exists g c,
    Game_init generated_2x2 5 1 0 = Ok g /\
    current_cell g = Ok c /\ cell_at generated_2x2 1 0 = Ok c /\
    Player.x_velocity (player g) = 0%Q /\ Player.y_velocity (player g) = 0%Q /\
    (inject_Z (cell_x c) < Player.x (player g) /\
     Player.x (player g) + Player.width (player g) < inject_Z (cell_x c) + 1 /\
     inject_Z (cell_y c) < Player.y (player g) /\
     Player.y (player g) + Player.height (player g) < inject_Z (cell_y c) + 1)%Q.
Proof.
  apply (Game_init_places_player generated_2x2 5 1 0).
  - split; split; [reflexivity|repeat constructor|reflexivity|repeat constructor].
  - simpl. lia.
  - simpl. lia.
Defined.

(** A game cannot be made for a maze without cells: [randint] is asked
    for a number of an empty range and raises [ValueError]. *)
Theorem Game_init_without_cells m speed draw_x draw_y :
  width m < 1 \/ height m < 1 ->
  Game_init m speed draw_x draw_y = Raise ValueError.
Proof.
  intros H. unfold Game_init, randint.
  destruct (Z.ltb_spec (width m - 1) 0) as [_|Hw]; [reflexivity|].
  destruct (Z.ltb_spec (height m - 1) 0) as [_|Hh]; [reflexivity|].
  lia.
Qed.

Lemma Game_init_without_cells_witness :
  Game_init (mkMaze [[]; []] [[]; []] 0 2) 5 0 0 = Raise ValueError.
Proof.
  apply Game_init_without_cells. left. simpl. lia.
Defined.

(** ** Frames *)







(** * Breadcrumbs *)

Lemma lookup_app c d k v :
  lookup c (d ++ [(k, v)]) =
  match lookup c d with
  | Some n => Some n
  | None => if Cell_eq_dec c k then Some v else None
  end.
Proof.
  induction d as [|[k' v'] d IH]; simpl.
  - reflexivity.
  - destruct (Cell_eq_dec c k'); [reflexivity|exact IH].
Qed.

Lemma numbered_empty : numbered [].
Proof.
  repeat split.
  - intros c n H. discriminate H.
  - intros n H. simpl in H. lia.
  - intros c1 c2 n H. discriminate H.
Qed.

(** Line 386 of [vision_tools.py]: a new cell gets the size of the
    dictionary as its number. *)
Lemma numbered_add d cell :
  numbered d -> lookup cell d = None -> numbered (d ++ [(cell, length d)]).
Proof.
  intros [H1 [H2 H3]] Hn. repeat split.
  - intros c n H. rewrite lookup_app in H. rewrite length_app. simpl.
    destruct (lookup c d) eqn:E.
    + injection H as <-. apply H1 in E. lia.
    + destruct (Cell_eq_dec c cell); [|discriminate]. injection H as <-. lia.
  - intros n H. rewrite length_app in H. simpl in H.
    destruct (Nat.eq_dec n (length d)) as [->|Hne].
    + exists cell. rewrite lookup_app, Hn.
      destruct (Cell_eq_dec cell cell); [reflexivity|congruence].
    + destruct (H2 n ltac:(lia)) as [c Hc]. exists c.
      rewrite lookup_app, Hc. reflexivity.
  - intros c1 c2 n A B. rewrite lookup_app in A, B.
    destruct (lookup c1 d) eqn:E1; destruct (lookup c2 d) eqn:E2.
    + injection A as <-. injection B as <-. exact (H3 _ _ _ E1 E2).
    + injection A as <-. destruct (Cell_eq_dec c2 cell); [|discriminate].
      injection B as B. apply H1 in E1. lia.
    + injection B as <-. destruct (Cell_eq_dec c1 cell); [|discriminate].
      injection A as A. apply H1 in E2. lia.
    + destruct (Cell_eq_dec c1 cell); [|discriminate].
      destruct (Cell_eq_dec c2 cell); [|discriminate]. congruence.
Qed.

(** What a call does to the dictionary: nothing, or one new cell at the
    end, with the size of the dictionary as its number. *)
Lemma step_dictionary t t' :
  breadcrumb_step t t' ->
  breadcrumbs t' = breadcrumbs t
  \/ exists cell, lookup cell (breadcrumbs t) = None /\
       breadcrumbs t' = breadcrumbs t ++ [(cell, length (breadcrumbs t))].
Proof.
  intros H. destruct H as [key_E symbol g t t' said H|g t t' said H].
  - unfold Breadcrumb_on_key_press in H.
    destruct (negb (symbol =? key_E)).
    + injection H as <- _. left. reflexivity.
    + destruct (current_cell g) as [cell|e]; [|discriminate]. cbn [bind] in H.
      destruct (lookup cell (breadcrumbs t)) eqn:E.
      * injection H as <- _. left. reflexivity.
      * injection H as <- _. right. exists cell. split; [exact E|reflexivity].
  - unfold Breadcrumb_update in H.
    destruct (current_cell g) as [cell|e]; [|discriminate]. cbn [bind] in H.
    destruct (Cell_eq_dec cell (_last_cell t)).
    + injection H as <- _. left. reflexivity.
    + injection H as <- _. left. reflexivity.
Qed.

(** The samples are tools a program can hold. *)
Lemma tool_marked_once_reachable : breadcrumb_reachable tool_marked_once.
Proof.
  apply (tool_step (mkBreadcrumbTool [] cell_00)).
  - apply (tool_new game_at_00). reflexivity.
  - apply (step_key 101 101 game_at_00 _ _ [str 0]). reflexivity.
Qed.

Lemma tool_marked_twice_steps : breadcrumb_steps tool_marked_once tool_marked_twice.
Proof.
  apply (steps_more _ (mkBreadcrumbTool [(cell_00, 0%nat)] cell_01)).
  - apply (step_update game_at_01 _ _ []). reflexivity.
  - apply (steps_more _ tool_marked_twice).
    + apply (step_key 101 101 game_at_01 _ _ [str 1]). reflexivity.
    + apply steps_none.
Qed.

Lemma steps_reachable t t' :
  breadcrumb_steps t t' -> breadcrumb_reachable t -> breadcrumb_reachable t'.
Proof.
  induction 1 as [t|t t' t'' Hs _ IH]; intros H.
  - exact H.
  - apply IH. exact (tool_step t t' H Hs).
Qed.

Lemma tool_marked_twice_reachable : breadcrumb_reachable tool_marked_twice.
Proof.
  exact (steps_reachable _ _ tool_marked_twice_steps tool_marked_once_reachable).
Qed.

Lemma tool_numbered t :
  breadcrumb_reachable t -> numbered (breadcrumbs t).
Proof.
  induction 1 as [g t H|t t' _ IH Hs].
  - unfold BreadcrumbTool_init in H.
    destruct (current_cell g); [|discriminate].
    injection H as <-. exact numbered_empty.
  - destruct (step_dictionary t t' Hs) as [->|[cell [Hn ->]]].
    + exact IH.
    + apply numbered_add; assumption.
Qed.

(** Whatever the keys pressed and the way walked, the markers of a
    [BreadcrumbTool] carry the numbers 0, 1, 2, ... without a gap, and no
    two cells carry the same number. *)
Theorem breadcrumbs_numbered t :
  breadcrumb_reachable t ->
  (forall c n, lookup c (breadcrumbs t) = Some n ->
               (n < length (breadcrumbs t))%nat) /\
  (forall n, (n < length (breadcrumbs t))%nat ->
             exists c, lookup c (breadcrumbs t) = Some n) /\
  (forall c1 c2 n, lookup c1 (breadcrumbs t) = Some n ->
                   lookup c2 (breadcrumbs t) = Some n -> c1 = c2).
Proof.
  intros H. exact (tool_numbered t H).
Qed.

Lemma breadcrumbs_numbered_witness :
  (forall c n, lookup c (breadcrumbs tool_marked_twice) = Some n ->
               (n < length (breadcrumbs tool_marked_twice))%nat) /\
  (forall n, (n < length (breadcrumbs tool_marked_twice))%nat ->
             exists c, lookup c (breadcrumbs tool_marked_twice) = Some n) /\
  (forall c1 c2 n, lookup c1 (breadcrumbs tool_marked_twice) = Some n ->
                   lookup c2 (breadcrumbs tool_marked_twice) = Some n -> c1 = c2).
Proof.
  apply (breadcrumbs_numbered tool_marked_twice).
  exact tool_marked_twice_reachable.
Defined.

(** A marker keeps its number for good. *)
Lemma step_keeps_number t t' c n :
  breadcrumb_step t t' ->
  lookup c (breadcrumbs t) = Some n -> lookup c (breadcrumbs t') = Some n.
Proof.
  intros Hs H. destruct (step_dictionary t t' Hs) as [->|[cell [_ ->]]].
  - exact H.
  - rewrite lookup_app, H. reflexivity.
Qed.

Lemma steps_keep_number t t' c n :
  breadcrumb_steps t t' ->
  lookup c (breadcrumbs t) = Some n -> lookup c (breadcrumbs t') = Some n.
Proof.
  induction 1 as [t|t t' t'' Hs _ IH]; intros H.
  - exact H.
  - apply IH. exact (step_keeps_number t t' c n Hs H).
Qed.

(** Pressing E says one number, which is the number of the cell from then
    on. *)
Lemma press_marks key_E g t t1 said c :
  Breadcrumb_on_key_press key_E key_E g t = Ok (t1, said) ->
  current_cell g = Ok c ->
  exists n, said = [str n] /\ lookup c (breadcrumbs t1) = Some n.
Proof.
  unfold Breadcrumb_on_key_press. rewrite Z.eqb_refl. cbn [negb].
  intros H Hc. rewrite Hc in H. cbn [bind] in H.
  destruct (lookup c (breadcrumbs t)) as [n|] eqn:E.
  - injection H as <- <-. exists n. split; [reflexivity|exact E].
  - injection H as <- <-. exists (length (breadcrumbs t)). split.
    + rewrite length_app. simpl. f_equal. f_equal. lia.
    + cbn [breadcrumbs]. rewrite lookup_app, E.
      destruct (Cell_eq_dec c c); [reflexivity|congruence].
Qed.

(** The promise of the tool: the number said when E was pressed in a cell
    is said again when the player comes back to that cell, whatever was
    pressed and walked in between, and also when E is pressed there again,
    which then changes nothing. *)
Theorem breadcrumb_said_again key_E g t t1 said c t2 g' :
  Breadcrumb_on_key_press key_E key_E g t = Ok (t1, said) ->
  current_cell g = Ok c ->
  breadcrumb_steps t1 t2 ->
  current_cell g' = Ok c ->
  (_last_cell t2 <> c ->
   Breadcrumb_update g' t2 = Ok (mkBreadcrumbTool (breadcrumbs t2) c, said)) /\
  Breadcrumb_on_key_press key_E key_E g' t2 = Ok (t2, said).
Proof.
  intros Hp Hc Hs Hc'.
  destruct (press_marks key_E g t t1 said c Hp Hc) as [n [-> Hn]].
  apply (steps_keep_number t1 t2 c n Hs) in Hn. split.
  - intros Hl. unfold Breadcrumb_update. rewrite Hc'. cbn [bind].
    destruct (Cell_eq_dec c (_last_cell t2)) as [E|_]; [congruence|].
    rewrite Hn. reflexivity.
  - unfold Breadcrumb_on_key_press. rewrite Z.eqb_refl. cbn [negb].
    rewrite Hc'. cbn [bind]. rewrite Hn. reflexivity.
Qed.

Lemma breadcrumb_said_again_witness :
  (_last_cell tool_marked_twice <> cell_00 ->
   Breadcrumb_update game_at_00 tool_marked_twice
   = Ok (mkBreadcrumbTool (breadcrumbs tool_marked_twice) cell_00, [str 0])) /\
  Breadcrumb_on_key_press 101 101 game_at_00 tool_marked_twice
  = Ok (tool_marked_twice, [str 0]).
Proof.
  apply (breadcrumb_said_again 101 game_at_00 (mkBreadcrumbTool [] cell_00)
           tool_marked_once [str 0] cell_00 tool_marked_twice game_at_00).
  - reflexivity.
  - reflexivity.
  - exact tool_marked_twice_steps.
  - reflexivity.
Defined.

(** ** The texts said *)

Lemma to_uint_not_nil n : Nat.to_uint n <> Decimal.Nil.
Proof.
  intros H.
  assert (E : Nat.of_uint (Nat.to_uint n) = Nat.of_uint (Nat.to_uint 0)).
  { rewrite H. reflexivity. }
  rewrite !DecimalNat.Unsigned.of_to in E. subst n. discriminate H.
Qed.

Lemma str_inj n m : str n = str m -> n = m.
Proof.
  unfold str. intros H.
  apply DecimalNat.Unsigned.to_uint_inj.
  assert (E : DecimalString.NilZero.uint_of_string
                (DecimalString.NilZero.string_of_uint (Nat.to_uint n))
              = DecimalString.NilZero.uint_of_string
                  (DecimalString.NilZero.string_of_uint (Nat.to_uint m))).
  { rewrite H. reflexivity. }
  rewrite !DecimalString.NilZero.usu in E by apply to_uint_not_nil.
  injection E as E. exact E.
Qed.

(** Two markers are never said with the same text: the cells of a tool
    that have different markers are told apart by what is said for them. *)
Theorem breadcrumb_texts_differ t c1 c2 n1 n2 :
  breadcrumb_reachable t ->
  lookup c1 (breadcrumbs t) = Some n1 -> lookup c2 (breadcrumbs t) = Some n2 ->
  c1 <> c2 -> String.eqb (str n1) (str n2) = false.
Proof.
  intros Hr H1 H2 Hne. apply String.eqb_neq. intros E.
  apply str_inj in E. subst n2.
  destruct (tool_numbered t Hr) as [_ [_ H3]].
  exact (Hne (H3 _ _ _ H1 H2)).
Qed.

Lemma breadcrumb_texts_differ_witness :
  String.eqb (str 0) (str 1) = false.
Proof.
  apply (breadcrumb_texts_differ tool_marked_twice cell_00 cell_01 0 1).
  - exact tool_marked_twice_reachable.
  - reflexivity.
  - reflexivity.
  - discriminate.
Defined.

(** * Rays along the axes *)

Lemma round_eq a k : (a == inject_Z k)%Q -> Float.round_half_even a = k.
Proof.
  intros H. transitivity (Float.round_half_even (inject_Z k)); [|apply round_integer].
  unfold Float.round_half_even.
  rewrite (Qfloor_comp _ _ H).
  assert (E : (a - inject_Z (Qfloor (inject_Z k))
               == inject_Z k - inject_Z (Qfloor (inject_Z k)))%Q).
  { rewrite H. reflexivity. }
  rewrite (Qcompare_comp _ _ E (1 # 2)%Q (1 # 2)%Q (Qeq_refl _)). reflexivity.
Qed.

Lemma Qle_bool_Z (w k : Z) (a : Q) :
  (a == inject_Z k)%Q -> Qle_bool (inject_Z w) a = (w <=? k).
Proof.
  intros H. destruct (Z.leb_spec w k) as [L|L].
  - apply Qle_bool_iff. rewrite H. rewrite <- Zle_Qle. exact L.
  - destruct (Qle_bool (inject_Z w) a) eqn:E; [|reflexivity].
    apply Qle_bool_iff in E. rewrite H in E. rewrite <- Zle_Qle in E. lia.
Qed.

Lemma Qle_bool_below (w b y : Q) :
  (b == y)%Q -> (y < w)%Q -> Qle_bool w b = false.
Proof.
  intros H L. destruct (Qle_bool w b) eqn:E; [|reflexivity].
  apply Qle_bool_iff in E. rewrite H in E. lra.
Qed.

(** The increment of the coordinate a ray does not move along is zero. *)
Lemma increment_none d : ~ (d == 0)%Q -> exists z, increment 0 d = Fin z /\ (z == 0)%Q.
Proof.
  intros H. unfold increment.
  destruct (Qeq_bool d 0) eqn:E.
  - apply Qeq_bool_iff in E. contradiction.
  - eexists. split; [reflexivity|]. rewrite Qred_correct.
    unfold Qdiv. ring.
Qed.

Lemma sign_of_positive d : (0 < d)%Q -> sign_of d = 1.
Proof.
  intros H. unfold sign_of. destruct (Qle_bool d 0) eqn:E; [|reflexivity].
  apply Qle_bool_iff in E. lra.
Qed.

Lemma sign_of_negative d : (d < 0)%Q -> sign_of d = -1.
Proof.
  intros H. unfold sign_of. destruct (Qle_bool d 0) eqn:E; [reflexivity|].
  apply Qle_bool_false in E. lra.
Qed.

Lemma ray_of_horizontal dx :
  ~ (dx == 0)%Q ->
  exists z, ray_of dx 0 = horizontal_ray (sign_of dx) z /\ (z == 0)%Q.
Proof.
  intros H. destruct (increment_none dx H) as [z [E Hz]].
  exists z. split; [|exact Hz]. unfold ray_of, horizontal_ray. rewrite E.
  reflexivity.
Qed.

Lemma ray_of_vertical dy :
  ~ (dy == 0)%Q ->
  exists z, ray_of 0 dy = vertical_ray (sign_of dy) z /\ (z == 0)%Q.
Proof.
  intros H. destruct (increment_none dy H) as [z [E Hz]].
  exists z. split; [|exact Hz]. unfold ray_of, vertical_ray. rewrite E.
  reflexivity.
Qed.

(** A horizontal ray has no crossing with a horizontal line, so the loop
    takes its second branch in every round; a vertical ray has no crossing
    with a vertical line and the loop takes its first branch. *)
Lemma before_horizontal sx z a b :
  sx = 1 \/ sx = -1 ->
  before (horizontal_ray sx z) (infinite_crossing (horizontal_ray sx z)) (Fin a, Fin b)
  = false.
Proof.
  intros [-> | ->]; reflexivity.
Qed.

Lemma before_vertical sy z a b :
  sy = 1 \/ sy = -1 ->
  before (vertical_ray sy z) (Fin a, Fin b) (infinite_crossing (vertical_ray sy z))
  = true.
Proof.
  intros [-> | ->]; reflexivity.
Qed.

Section March.

Variable m : Maze.
Hypothesis Hwf : well_formed m.

(** *** Along a row *)

Section Row.

Variables (sx : Z) (z y : Q).
Hypothesis Hsx : sx = 1 \/ sx = -1.
Hypothesis Hz : (z == 0)%Q.
Hypothesis Hy : (0 <= y < inject_Z (height m))%Q.
Hypothesis Hyw : (y < inject_Z (width m))%Q.

(** The loop walks from the line [k] over [n] cells without a wall
    on their left and stops at the next line, which is the edge of the
    grid or has a wall. *)
Lemma march_row (n : nat) :
  forall k a b fuel,
    (a == inject_Z k)%Q -> (b == y)%Q ->
    (forall i, 0 <= i < Z.of_nat n ->
               0 <= k + i * sx < width m /\
               left (cell_of m (k + i * sx, Qfloor y)) = false) ->
    (width m <= k + Z.of_nat n * sx \/
     (0 <= k + Z.of_nat n * sx < width m /\
      left (cell_of m (k + Z.of_nat n * sx, Qfloor y)) = true)) ->
    (n < fuel)%nat ->
    ends_at (ray_loop fuel m (horizontal_ray sx z)
               (infinite_crossing (horizontal_ray sx z)) (Fin a, Fin b))
            (inject_Z (k + Z.of_nat n * sx)) y.
Proof.
  pose proof (floor_in_range y (height m) Hy) as Fy.
  induction n as [|n IH]; intros k a b fuel Ha Hb Hfree Hstop Hfuel.
  - destruct fuel as [|fuel]; [lia|]. cbn [ray_loop].
    rewrite (before_horizontal sx z a b Hsx).
    unfold beyond, Float.ge, Float.le, Float.of_Z. cbn [fst snd].
    rewrite (Qle_bool_Z (width m) k a Ha).
    rewrite (Qle_bool_below (inject_Z (width m)) b y Hb Hyw).
    change (Z.of_nat 0 * sx) with 0 in *. rewrite Z.add_0_r in *.
    destruct Hstop as [Hout|[Hin Hwall]].
    + replace (width m <=? k) with true by (symmetry; apply Z.leb_le; exact Hout).
      cbn [orb]. exists a, b. split; [reflexivity|]. split; assumption.
    + replace (width m <=? k) with false by (symmetry; apply Z.leb_gt; lia).
      cbn [orb Float.round Float.floor bind].
      rewrite (round_eq a k Ha), (Qfloor_comp _ _ Hb).
      rewrite (cell_at_cell_of m k (Qfloor y) Hwf)
        by (apply in_grid_bounds; cbn [fst snd]; lia).
      cbn [bind]. rewrite Hwall.
      exists a, b. split; [reflexivity|]. split; assumption.
  - destruct fuel as [|fuel]; [lia|]. cbn [ray_loop].
    rewrite (before_horizontal sx z a b Hsx).
    unfold beyond, Float.ge, Float.le, Float.of_Z. cbn [fst snd].
    rewrite (Qle_bool_Z (width m) k a Ha).
    rewrite (Qle_bool_below (inject_Z (width m)) b y Hb Hyw).
    destruct (Hfree 0 ltac:(lia)) as [Hin Hopen].
    change (0 * sx) with 0 in Hin, Hopen. rewrite Z.add_0_r in Hin, Hopen.
    replace (width m <=? k) with false by (symmetry; apply Z.leb_gt; lia).
    cbn [orb Float.round Float.floor bind].
    rewrite (round_eq a k Ha), (Qfloor_comp _ _ Hb).
    rewrite (cell_at_cell_of m k (Qfloor y) Hwf)
      by (apply in_grid_bounds; cbn [fst snd]; lia).
    cbn [bind]. rewrite Hopen.
    cbn [horizontal_ray x_sign y_inc Float.add Float.of_Z].
    replace (k + Z.of_nat (S n) * sx) with (k + sx + Z.of_nat n * sx) by lia.
    apply IH.
    + rewrite Qred_correct, Ha, inject_Z_plus. reflexivity.
    + rewrite Qred_correct, Hb, Hz. ring.
    + intros i Hi.
      replace (k + sx + i * sx) with (k + (i + 1) * sx) by lia.
      apply Hfree. lia.
    + replace (k + sx + Z.of_nat n * sx) with (k + Z.of_nat (S n) * sx) by lia.
      exact Hstop.
    + lia.
Qed.

End Row.

(** *** Along a column *)

Section Column.

Variables (sy : Z) (z x : Q).
Hypothesis Hsy : sy = 1 \/ sy = -1.
Hypothesis Hz : (z == 0)%Q.
Hypothesis Hx : (0 <= x < inject_Z (width m))%Q.

Lemma march_column (n : nat) :
  forall k a b fuel,
    (a == x)%Q -> (b == inject_Z k)%Q ->
    (forall i, 0 <= i < Z.of_nat n ->
               0 <= k + i * sy < height m /\ k + i * sy < width m /\
               top (cell_of m (Qfloor x, k + i * sy)) = false) ->
    (width m <= k + Z.of_nat n * sy \/
     (0 <= k + Z.of_nat n * sy < height m /\
      top (cell_of m (Qfloor x, k + Z.of_nat n * sy)) = true)) ->
    (n < fuel)%nat ->
    ends_at (ray_loop fuel m (vertical_ray sy z) (Fin a, Fin b)
               (infinite_crossing (vertical_ray sy z)))
            x (inject_Z (k + Z.of_nat n * sy)).
Proof.
  pose proof (floor_in_range x (width m) Hx) as Fx.
  destruct Hx as [_ Hxw].
  induction n as [|n IH]; intros k a b fuel Ha Hb Hfree Hstop Hfuel.
  - destruct fuel as [|fuel]; [lia|]. cbn [ray_loop].
    rewrite (before_vertical sy z a b Hsy).
    unfold beyond, Float.ge, Float.le, Float.of_Z. cbn [fst snd].
    rewrite (Qle_bool_Z (width m) k b Hb).
    rewrite (Qle_bool_below (inject_Z (width m)) a x Ha Hxw).
    change (Z.of_nat 0 * sy) with 0 in *. rewrite Z.add_0_r in *.
    destruct Hstop as [Hout|[Hin Hwall]].
    + replace (width m <=? k) with true by (symmetry; apply Z.leb_le; exact Hout).
      cbn [orb]. exists a, b. split; [reflexivity|]. split; assumption.
    + destruct (Z.leb_spec (width m) k) as [L|L].
      * cbn [orb]. exists a, b. split; [reflexivity|]. split; assumption.
      * cbn [orb Float.round Float.floor bind].
        rewrite (round_eq b k Hb), (Qfloor_comp _ _ Ha).
        rewrite (cell_at_cell_of m (Qfloor x) k Hwf)
          by (apply in_grid_bounds; cbn [fst snd]; lia).
        cbn [bind]. rewrite Hwall.
        exists a, b. split; [reflexivity|]. split; assumption.
  - destruct fuel as [|fuel]; [lia|]. cbn [ray_loop].
    rewrite (before_vertical sy z a b Hsy).
    unfold beyond, Float.ge, Float.le, Float.of_Z. cbn [fst snd].
    rewrite (Qle_bool_Z (width m) k b Hb).
    rewrite (Qle_bool_below (inject_Z (width m)) a x Ha Hxw).
    destruct (Hfree 0 ltac:(lia)) as [Hin [Hkw Hopen]].
    change (0 * sy) with 0 in Hin, Hkw, Hopen.
    rewrite Z.add_0_r in Hin, Hkw, Hopen.
    replace (width m <=? k) with false by (symmetry; apply Z.leb_gt; lia).
    cbn [orb Float.round Float.floor bind].
    rewrite (round_eq b k Hb), (Qfloor_comp _ _ Ha).
    rewrite (cell_at_cell_of m (Qfloor x) k Hwf)
      by (apply in_grid_bounds; cbn [fst snd]; lia).
    cbn [bind]. rewrite Hopen.
    cbn [vertical_ray y_sign x_inc Float.add Float.of_Z].
    replace (k + Z.of_nat (S n) * sy) with (k + sy + Z.of_nat n * sy) by lia.
    apply IH.
    + rewrite Qred_correct, Ha, Hz. ring.
    + rewrite Qred_correct, Hb, inject_Z_plus. reflexivity.
    + intros i Hi.
      replace (k + sy + i * sy) with (k + (i + 1) * sy) by lia.
      apply Hfree. lia.
    + replace (k + sy + Z.of_nat n * sy) with (k + Z.of_nat (S n) * sy) by lia.
      exact Hstop.
    + lia.
Qed.

End Column.

End March.

(** ** The first wall on the way *)

Lemma first_up (P : Z -> bool) (n : nat) :
  forall lo hi,
    Z.to_nat (hi - lo) = n -> lo <= hi ->
    exists k, lo <= k <= hi /\ (k < hi -> P k = true) /\
              forall j, lo <= j < k -> P j = false.
Proof.
  induction n as [|n IH]; intros lo hi Hn Hle.
  - exists lo. split; [lia|]. split; [lia|]. intros j Hj. lia.
  - destruct (P lo) eqn:E.
    + exists lo. split; [lia|]. split; [intros _; exact E|]. intros j Hj. lia.
    + destruct (IH (lo + 1) hi ltac:(lia) ltac:(lia)) as [k [Hk [Hw Hfree]]].
      exists k. split; [lia|]. split; [exact Hw|].
      intros j Hj. destruct (Z.eq_dec j lo) as [->|Hne]; [exact E|].
      apply Hfree. lia.
Qed.

Lemma first_down (P : Z -> bool) (n : nat) :
  forall lo hi,
    Z.to_nat (hi - lo) = n -> lo <= hi -> P lo = true ->
    exists k, lo <= k <= hi /\ P k = true /\
              forall j, k < j <= hi -> P j = false.
Proof.
  induction n as [|n IH]; intros lo hi Hn Hle Hlo.
  - exists lo. split; [lia|]. split; [exact Hlo|]. intros j Hj. lia.
  - destruct (P hi) eqn:E.
    + exists hi. split; [lia|]. split; [exact E|]. intros j Hj. lia.
    + destruct (IH lo (hi - 1) ltac:(lia) ltac:(lia) Hlo) as [k [Hk [Hw Hfree]]].
      exists k. split; [lia|]. split; [exact Hw|].
      intros j Hj. destruct (Z.eq_dec j hi) as [->|Hne]; [exact E|].
      apply Hfree. lia.
Qed.

Lemma ceiling_in_range q w :
  (0 <= q < inject_Z w)%Q -> 0 <= Qceiling q <= w.
Proof.
  intros [H1 H2].
  pose proof (Qle_ceiling q) as A. pose proof (Qceiling_lt q) as B.
  split.
  - assert (C : (inject_Z (-1) < inject_Z (Qceiling q))%Q).
    { change (inject_Z (-1)) with (- (1))%Q. lra. }
    rewrite <- Zlt_Qlt in C. lia.
  - assert (C : (inject_Z (Qceiling q - 1) < inject_Z w)%Q) by lra.
    rewrite <- Zlt_Qlt in C. lia.
Qed.

(** The walls on the edge of a maze as built or as generated, on the
    cells [cell_at] decodes. *)
Lemma edge_cells m x y :
  reachable m -> in_grid (width m) (height m) (x, y) = true ->
  (x = 0 -> left (cell_of m (x, y)) = true) /\
  (y = 0 -> top (cell_of m (x, y)) = true).
Proof.
  intros Hr Hc.
  destruct (open_side_inside m x y Hr Hc) as [c [E [_ [_ [HL [_ [HT _]]]]]]].
  rewrite (cell_at_cell_of m x y (proj1 (reachable_shape m Hr)) Hc) in E.
  injection E as <-. split; intros ->.
  - destruct (left (cell_of m (0, y))); [reflexivity|]. specialize (HL eq_refl). lia.
  - destruct (top (cell_of m (x, 0))); [reflexivity|]. specialize (HT eq_refl). lia.
Qed.

(** ** The four casts *)

(** A ray cast to the right, from a point of the grid that lies above the
    line [y = width], is returned: it ends on the first line of its row
    that has a wall (the left wall of a cell), or on the right edge of the
    grid. *)
Theorem ray_cast_right m x y dx :
  well_formed m -> (0 < dx)%Q ->
  (0 <= x < inject_Z (width m))%Q -> (0 <= y < inject_Z (height m))%Q ->
  (y < inject_Z (width m))%Q ->
  exists k,
    Qceiling x <= k <= width m /\
    (k < width m -> left (cell_of m (k, Qfloor y)) = true) /\
    (forall j, Qceiling x <= j < k -> left (cell_of m (j, Qfloor y)) = false) /\
    forall fuel, (Z.to_nat (k - Qceiling x) < fuel)%nat ->
                 ends_at (ray_cast fuel x y dx 0 m) (inject_Z k) y.
Proof.
  intros Hwf Hdx Hx Hy Hyw.
  pose proof (ceiling_in_range x (width m) Hx) as Cx.
  destruct (first_up (fun j => left (cell_of m (j, Qfloor y)))
              (Z.to_nat (width m - Qceiling x)) (Qceiling x) (width m) eq_refl
              ltac:(lia)) as [k [Hk [Hwall Hfree]]].
  exists k. split; [exact Hk|]. split; [exact Hwall|]. split; [exact Hfree|].
  intros fuel Hfuel. unfold ray_cast.
  destruct (ray_of_horizontal dx ltac:(lra)) as [z [-> Hz]].
  rewrite (sign_of_positive dx Hdx).
  rewrite first_h_infinite by reflexivity.
  unfold first_v. cbn [horizontal_ray x_sign y_inc Float.add Float.mul Float.of_Z].
  change (1 >? 0) with true. cbv iota.
  change (all_finite _) with true. cbv iota.
  replace (inject_Z k) with (inject_Z (Qceiling x + Z.of_nat (Z.to_nat (k - Qceiling x)) * 1))
    by (f_equal; lia).
  apply (march_row m Hwf 1 z y (or_introl eq_refl) Hz Hy Hyw).
  - reflexivity.
  - rewrite !Qred_correct, Hz. ring.
  - intros i Hi. split; [lia|]. apply Hfree. lia.
  - destruct (Z.eq_dec k (width m)) as [E|E]; [left; lia|right].
    replace (Qceiling x + Z.of_nat (Z.to_nat (k - Qceiling x)) * 1) with k by lia.
    split; [lia|]. apply Hwall. lia.
  - exact Hfuel.
Qed.

Lemma ray_cast_right_witness :
  exists k,
    Qceiling (1 # 4) <= k <= width generated_2x2 /\
    (k < width generated_2x2 ->
     left (cell_of generated_2x2 (k, Qfloor (5 # 4))) = true) /\
    (forall j, Qceiling (1 # 4) <= j < k ->
               left (cell_of generated_2x2 (j, Qfloor (5 # 4))) = false) /\
    forall fuel, (Z.to_nat (k - Qceiling (1 # 4)) < fuel)%nat ->
                 ends_at (ray_cast fuel (1 # 4) (5 # 4) 3 0 generated_2x2)
                         (inject_Z k) (5 # 4).
Proof.
  apply (ray_cast_right generated_2x2 (1 # 4) (5 # 4) 3).
  - split; split; [reflexivity|repeat constructor|reflexivity|repeat constructor].
  - qcheck.
  - split; qcheck.
  - split; qcheck.
  - qcheck.
Defined.

(** A ray cast to the left in a maze as built or as generated, from a
    point of the grid that lies above the line [y = width], is returned:
    it ends on the first line of its row that has a wall, the left wall of
    the cell it starts in or of a cell further left. *)
Theorem ray_cast_left m x y dx :
  reachable m -> (dx < 0)%Q ->
  (0 <= x < inject_Z (width m))%Q -> (0 <= y < inject_Z (height m))%Q ->
  (y < inject_Z (width m))%Q ->
  exists k,
    0 <= k <= Qfloor x /\
    left (cell_of m (k, Qfloor y)) = true /\
    (forall j, k < j <= Qfloor x -> left (cell_of m (j, Qfloor y)) = false) /\
    forall fuel, (Z.to_nat (Qfloor x - k) < fuel)%nat ->
                 ends_at (ray_cast fuel x y dx 0 m) (inject_Z k) y.
Proof.
  intros Hr Hdx Hx Hy Hyw.
  pose proof (proj1 (reachable_shape m Hr)) as Hwf.
  pose proof (floor_in_range x (width m) Hx) as Fx.
  pose proof (floor_in_range y (height m) Hy) as Fy.
  assert (H0 : left (cell_of m (0, Qfloor y)) = true).
  { apply (edge_cells m 0 (Qfloor y) Hr); [|reflexivity].
    apply in_grid_bounds. cbn [fst snd]. lia. }
  destruct (first_down (fun j => left (cell_of m (j, Qfloor y)))
              (Z.to_nat (Qfloor x - 0)) 0 (Qfloor x) eq_refl
              ltac:(lia) H0) as [k [Hk [Hwall Hfree]]].
  exists k. split; [exact Hk|]. split; [exact Hwall|]. split; [exact Hfree|].
  intros fuel Hfuel. unfold ray_cast.
  destruct (ray_of_horizontal dx ltac:(lra)) as [z [-> Hz]].
  rewrite (sign_of_negative dx Hdx).
  rewrite first_h_infinite by reflexivity.
  unfold first_v. cbn [horizontal_ray x_sign y_inc Float.add Float.mul Float.of_Z].
  change (-1 >? 0) with false. cbv iota.
  change (all_finite _) with true. cbv iota.
  replace (inject_Z k) with (inject_Z (Qfloor x + Z.of_nat (Z.to_nat (Qfloor x - k)) * -1))
    by (f_equal; lia).
  apply (march_row m Hwf (-1) z y (or_intror eq_refl) Hz Hy Hyw).
  - reflexivity.
  - rewrite !Qred_correct, Hz. ring.
  - intros i Hi. split; [lia|]. apply Hfree. lia.
  - right.
    replace (Qfloor x + Z.of_nat (Z.to_nat (Qfloor x - k)) * -1) with k by lia.
    split; [lia|exact Hwall].
  - exact Hfuel.
Qed.

Lemma ray_cast_left_witness :
  exists k,
    0 <= k <= Qfloor (7 # 4) /\
    left (cell_of generated_2x2 (k, Qfloor (5 # 4))) = true /\
    (forall j, k < j <= Qfloor (7 # 4) ->
               left (cell_of generated_2x2 (j, Qfloor (5 # 4))) = false) /\
    forall fuel, (Z.to_nat (Qfloor (7 # 4) - k) < fuel)%nat ->
                 ends_at (ray_cast fuel (7 # 4) (5 # 4) (- (2)) 0 generated_2x2)
                         (inject_Z k) (5 # 4).
Proof.
  apply (ray_cast_left generated_2x2 (7 # 4) (5 # 4) (- (2))).
  - exact generated_2x2_reachable.
  - qcheck.
  - split; qcheck.
  - split; qcheck.
  - qcheck.
Defined.

(** A ray cast upwards in a maze as built or as generated, from a point
    of the grid that lies above the line [y = width], is returned: it ends
    on the first line of its column that has a wall, the top wall of the
    cell it starts in or of a cell further up. *)
Theorem ray_cast_up m x y dy :
  reachable m -> (dy < 0)%Q ->
  (0 <= x < inject_Z (width m))%Q -> (0 <= y < inject_Z (height m))%Q ->
  (y < inject_Z (width m))%Q ->
  exists k,
    0 <= k <= Qfloor y /\
    top (cell_of m (Qfloor x, k)) = true /\
    (forall j, k < j <= Qfloor y -> top (cell_of m (Qfloor x, j)) = false) /\
    forall fuel, (Z.to_nat (Qfloor y - k) < fuel)%nat ->
                 ends_at (ray_cast fuel x y 0 dy m) x (inject_Z k).
Proof.
  intros Hr Hdy Hx Hy Hyw.
  pose proof (proj1 (reachable_shape m Hr)) as Hwf.
  pose proof (floor_in_range x (width m) Hx) as Fx.
  pose proof (floor_in_range y (height m) Hy) as Fy.
  assert (Fw : Qfloor y < width m).
  { destruct (floor_bounds y) as [A _].
    assert (B : (inject_Z (Qfloor y) < inject_Z (width m))%Q) by lra.
    rewrite <- Zlt_Qlt in B. exact B. }
  assert (H0 : top (cell_of m (Qfloor x, 0)) = true).
  { apply (edge_cells m (Qfloor x) 0 Hr); [|reflexivity].
    apply in_grid_bounds. cbn [fst snd]. lia. }
  destruct (first_down (fun j => top (cell_of m (Qfloor x, j)))
              (Z.to_nat (Qfloor y - 0)) 0 (Qfloor y) eq_refl
              ltac:(lia) H0) as [k [Hk [Hwall Hfree]]].
  exists k. split; [exact Hk|]. split; [exact Hwall|]. split; [exact Hfree|].
  intros fuel Hfuel. unfold ray_cast.
  destruct (ray_of_vertical dy ltac:(lra)) as [z [-> Hz]].
  rewrite (sign_of_negative dy Hdy).
  rewrite first_v_infinite by reflexivity.
  unfold first_h. cbn [vertical_ray y_sign x_inc Float.add Float.mul Float.of_Z].
  change (-1 >? 0) with false. cbv iota.
  change (all_finite _) with true. cbv iota.
  replace (inject_Z k) with (inject_Z (Qfloor y + Z.of_nat (Z.to_nat (Qfloor y - k)) * -1))
    by (f_equal; lia).
  apply (march_column m Hwf (-1) z x (or_intror eq_refl) Hz Hx).
  - rewrite !Qred_correct, Hz. ring.
  - reflexivity.
  - intros i Hi. split; [lia|]. split; [lia|]. apply Hfree. lia.
  - right.
    replace (Qfloor y + Z.of_nat (Z.to_nat (Qfloor y - k)) * -1) with k by lia.
    split; [lia|exact Hwall].
  - exact Hfuel.
Qed.

Lemma ray_cast_up_witness :
  exists k,
    0 <= k <= Qfloor (7 # 4) /\
    top (cell_of generated_2x2 (Qfloor (1 # 4), k)) = true /\
    (forall j, k < j <= Qfloor (7 # 4) ->
               top (cell_of generated_2x2 (Qfloor (1 # 4), j)) = false) /\
    forall fuel, (Z.to_nat (Qfloor (7 # 4) - k) < fuel)%nat ->
                 ends_at (ray_cast fuel (1 # 4) (7 # 4) 0 (- (1)) generated_2x2)
                         (1 # 4) (inject_Z k).
Proof.
  apply (ray_cast_up generated_2x2 (1 # 4) (7 # 4) (- (1))).
  - exact generated_2x2_reachable.
  - qcheck.
  - split; qcheck.
  - split; qcheck.
  - qcheck.
Defined.

(** A ray cast downwards in a square maze, from a point of the grid, is
    returned: it ends on the first line of its column that has a wall (the
    top wall of a cell), or on the bottom edge of the grid. *)
Theorem ray_cast_down m x y dy :
  well_formed m -> width m = height m -> (0 < dy)%Q ->
  (0 <= x < inject_Z (width m))%Q -> (0 <= y < inject_Z (height m))%Q ->
  exists k,
    Qceiling y <= k <= height m /\
    (k < height m -> top (cell_of m (Qfloor x, k)) = true) /\
    (forall j, Qceiling y <= j < k -> top (cell_of m (Qfloor x, j)) = false) /\
    forall fuel, (Z.to_nat (k - Qceiling y) < fuel)%nat ->
                 ends_at (ray_cast fuel x y 0 dy m) x (inject_Z k).
Proof.
  intros Hwf Hsq Hdy Hx Hy.
  pose proof (ceiling_in_range y (height m) Hy) as Cy.
  destruct (first_up (fun j => top (cell_of m (Qfloor x, j)))
              (Z.to_nat (height m - Qceiling y)) (Qceiling y) (height m) eq_refl
              ltac:(lia)) as [k [Hk [Hwall Hfree]]].
  exists k. split; [exact Hk|]. split; [exact Hwall|]. split; [exact Hfree|].
  intros fuel Hfuel. unfold ray_cast.
  destruct (ray_of_vertical dy ltac:(lra)) as [z [-> Hz]].
  rewrite (sign_of_positive dy Hdy).
  rewrite first_v_infinite by reflexivity.
  unfold first_h. cbn [vertical_ray y_sign x_inc Float.add Float.mul Float.of_Z].
  change (1 >? 0) with true. cbv iota.
  change (all_finite _) with true. cbv iota.
  replace (inject_Z k) with (inject_Z (Qceiling y + Z.of_nat (Z.to_nat (k - Qceiling y)) * 1))
    by (f_equal; lia).
  apply (march_column m Hwf 1 z x (or_introl eq_refl) Hz Hx).
  - rewrite !Qred_correct, Hz. ring.
  - reflexivity.
  - intros i Hi. split; [lia|]. split; [lia|]. apply Hfree. lia.
  - destruct (Z.eq_dec k (height m)) as [E|E]; [left; lia|right].
    replace (Qceiling y + Z.of_nat (Z.to_nat (k - Qceiling y)) * 1) with k by lia.
    split; [lia|]. apply Hwall. lia.
  - exact Hfuel.
Qed.

Lemma ray_cast_down_witness :
  exists k,
    Qceiling (1 # 4) <= k <= height generated_2x2 /\
    (k < height generated_2x2 ->
     top (cell_of generated_2x2 (Qfloor (1 # 4), k)) = true) /\
    (forall j, Qceiling (1 # 4) <= j < k ->
               top (cell_of generated_2x2 (Qfloor (1 # 4), j)) = false) /\
    forall fuel, (Z.to_nat (k - Qceiling (1 # 4)) < fuel)%nat ->
                 ends_at (ray_cast fuel (1 # 4) (1 # 4) 0 1 generated_2x2)
                         (1 # 4) (inject_Z k).
Proof.
  apply (ray_cast_down generated_2x2 (1 # 4) (1 # 4) 1).
  - split; split; [reflexivity|repeat constructor|reflexivity|repeat constructor].
  - reflexivity.
  - qcheck.
  - split; qcheck.
  - split; qcheck.
Defined.

(** * The drone of the hallway check *)

















(** ** The check ends *)



Lemma travelled_nonneg cps dts :
  Forall (short_step cps) dts -> (0 <= travelled cps dts)%Q.
Proof.
  induction 1 as [|dt dts [H0 _] _ IH]; cbn [travelled fold_right].
  - lra.
  - fold (travelled cps dts). lra.
Qed.



